(** * Session store and streaming-turn controller of the chat client

    A shallow embedding of [src/types.ts] and of the state logic of
    [src/App.tsx] ([createNewSession], [updateCurrentSession],
    [handleSendMessage] with its three streaming callbacks, and the
    session selector), followed by the properties of the specification.

    Modelling choices.
    - A JS string is a [string]; one [ascii] stands for one code unit, so
      [String.length] is [.length] and [slice] is [.slice].
    - [Record<string, ChatSession>] is a [gmap string ChatSession.t].
    - [Message] objects are the one kind of object the program writes to
      after construction ([lastMsg.text += ...], [lastMsg.isStreaming =
      false]).  They live in a store [Heap], and a session's [messages]
      array holds their addresses, so that two arrays copied with
      [[...session.messages]] share their elements as they do in JS.
      Session objects, arrays and the [AppState] object are only ever
      copied ([{...x}], [[...xs]]), never written to: they are plain values.
    - [uuidv4()] and [Date.now()] are inputs of the operations.
    - An uncaught [TypeError] (reading a property of [undefined]) is the
      result [None].
    - A handler runs on the state of the latest render: the [state] its
      closure reads is the state its queued updates are applied to.  The
      callbacks of a send keep the [currentSessionId] and the [aiMsgId]
      they closed over ([Turn]).
    - [setState], [setError] and [setIsGenerating] do not write the state
      the running handler reads: they queue an update, and React applies
      the queued updates, in the order of the calls, when it renders the
      component next.  [handleSendMessage] gives the component state once
      the updates of a send have been applied; [handleSendMessage_steps]
      and [flush] give the handler statement by statement.
    - Session ids are not names of properties of [Object.prototype]
      ([plain_key]), so that [sessions[id]] is a lookup in the mapping. *)

From stdpp Require Import base strings list gmap.
From Stdlib Require Import ZArith.

Local Open Scope string_scope.
Local Open Scope list_scope.
Local Open Scope stdpp_scope.
Local Open Scope nat_scope.

(** ** Data model ([src/types.ts]) *)

Inductive Role := USER | MODEL.

Inductive ModelId := FLASH | PRO | FLASH_LITE.

Record Attachment := mkAttachment {
  mimeType : string;
  url : string;
  data : string
}.

(** [attachments?] and [isStreaming?] are optional fields: [None] is
    [undefined].  [groundingMetadata?] is never assigned by [App.tsx] and is
    left out. *)
Module Message.
Record t := mk {
  id : string;
  role : Role;
  text : string;
  attachments : option (list Attachment);
  isStreaming : option bool;
  timestamp : Z
}.
Definition with_text (m : t) (s : string) : t :=
  mk (id m) (role m) s (attachments m) (isStreaming m) (timestamp m).
Definition with_isStreaming (m : t) (b : bool) : t :=
  mk (id m) (role m) (text m) (attachments m) (Some b) (timestamp m).
End Message.

(** Address of a [Message] object. *)
Abbreviation loc := nat (only parsing).

(** The store of [Message] objects; a new object gets the next address. *)
Abbreviation Heap := (list Message.t) (only parsing).

Definition alloc (h : Heap) (m : Message.t) : Heap * loc := (h ++ [m], length h).

Module ChatSession.
Record t := mk {
  id : string;
  title : string;
  messages : list loc;
  updatedAt : Z
}.
End ChatSession.

Record UserProfile := mkUserProfile {
  firstName : string;
  email : string
}.

Record AppState := mkAppState {
  user : option UserProfile;
  currentSessionId : option string;
  sessions : gmap string ChatSession.t;
  selectedModel : ModelId;
  sidebarOpen : bool
}.

#[global] Instance Role_eq_dec : EqDecision Role.
Proof. solve_decision. Defined.
#[global] Instance ModelId_eq_dec : EqDecision ModelId.
Proof. solve_decision. Defined.
#[global] Instance Attachment_eq_dec : EqDecision Attachment.
Proof. solve_decision. Defined.
#[global] Instance Message_eq_dec : EqDecision Message.t.
Proof. solve_decision. Defined.
#[global] Instance ChatSession_eq_dec : EqDecision ChatSession.t.
Proof. solve_decision. Defined.
#[global] Instance UserProfile_eq_dec : EqDecision UserProfile.
Proof. solve_decision. Defined.
#[global] Instance AppState_eq_dec : EqDecision AppState.
Proof. solve_decision. Defined.

(** [src/constants.ts] *)
Definition DEFAULT_MODEL : ModelId := FLASH.

(** ** JS helpers *)

(** Truthiness of a string: only [""] is falsy. *)
Definition truthy (s : string) : bool := negb (String.eqb s "").

(** [a || b] on strings. *)
Definition str_or (a b : string) : string := if truthy a then a else b.

(** [s.slice(b, e)] for [0 <= b <= e]. *)
Definition slice (s : string) (b e : nat) : string := String.substring b (e - b) s.

(** [msgs[msgs.length - 1]]: [undefined] ([None]) on the empty array. *)
Definition last_elem {A} (l : list A) : option A := l !! (length l - 1).

(** What an observer holding the array [ms] reads through the store. *)
Definition deref (h : Heap) (ms : list loc) : list (option Message.t) :=
  map (λ r, h !! r) ms.

(** ** Component state of [App]

    [state], [isGenerating] and [error] are the [useState] cells of the
    component that the turn logic reads and writes. *)
Record App := mkApp {
  heap : Heap;
  state : AppState;
  isGenerating : bool;
  error : option string
}.

Definition initialState : AppState :=
  mkAppState None None ∅ DEFAULT_MODEL false.

Definition initialApp : App := mkApp [] initialState false None.

Definition with_state (a : App) (h : Heap) (st : AppState) : App :=
  mkApp h st (isGenerating a) (error a).

Definition setIsGenerating (b : bool) (a : App) : App :=
  mkApp (heap a) (state a) b (error a).

Definition setError (e : option string) (a : App) : App :=
  mkApp (heap a) (state a) (isGenerating a) e.

(** ** Session store *)

(** [createNewSession], lines 51-66. *)
Definition createNewSession (newId : string) (now : Z) (prev : AppState) : AppState :=
  let newSession := ChatSession.mk newId "New Chat" [] now in
  mkAppState (user prev) (Some newId) (<[newId := newSession]> (sessions prev))
             (selectedModel prev) false.

(** An updater receives the store and a copy of the session; it returns
    [None] when it throws. *)
Definition Updater := Heap → ChatSession.t → option (Heap * ChatSession.t).

(** [updateCurrentSession], lines 68-79.  [cur] is [state.currentSessionId]
    as the enclosing render closed over it; [prev] is the state the queued
    update function is applied to.  [{ ...session }] is a copy with the
    same field values.  [prev.sessions[id]] is the lookup in the mapping,
    which is what the source reads for every id that is a [plain_key]. *)
Definition updateCurrentSession (cur : option string) (updater : Updater)
    (h : Heap) (prev : AppState) : option (Heap * AppState) :=
  match cur with
  | None => Some (h, prev)
  | Some sid =>
    if truthy sid then
      match sessions prev !! sid with
      | None => Some (h, prev)
      | Some session =>
        match updater h session with
        | None => None
        | Some (h', updatedSession) =>
          Some (h', mkAppState (user prev) (currentSessionId prev)
                      (<[ChatSession.id session := updatedSession]> (sessions prev))
                      (selectedModel prev) (sidebarOpen prev))
        end
      end
    else Some (h, prev)
  end.

Arguments updateCurrentSession : simpl never.

(** [onSelectSession], line 247. *)
Definition selectSession (id : string) (prev : AppState) : AppState :=
  mkAppState (user prev) (Some id) (sessions prev) (selectedModel prev) (sidebarOpen prev).

(** [onToggle], lines 246 and 256. *)
Definition toggleSidebar (prev : AppState) : AppState :=
  mkAppState (user prev) (currentSessionId prev) (sessions prev) (selectedModel prev)
             (negb (sidebarOpen prev)).

(** Model menu, line 281. *)
Definition selectModel (m : ModelId) (prev : AppState) : AppState :=
  mkAppState (user prev) (currentSessionId prev) (sessions prev) m (sidebarOpen prev).

(** ** Streaming turn controller ([handleSendMessage], lines 96-183) *)

(** Title written by the first send, line 115. *)
Definition firstTitle (text : string) : string :=
  String.append (slice text 0 30) (if (30 <? String.length text)%nat then "..." else "").

(** Updater of step 1, lines 111-123; [userRef] is the address of the new
    user message. *)
Definition addUserMessage (text : string) (userRef : loc) (now : Z) : Updater :=
  λ h session,
    let newTitle :=
      if (length (ChatSession.messages session) =? 0)%nat then firstTitle text
      else ChatSession.title session in
    Some (h, ChatSession.mk (ChatSession.id session) newTitle
               (ChatSession.messages session ++ [userRef]) now).

(** Updater of step 2, lines 135-138. *)
Definition addPlaceholder (aiRef : loc) : Updater :=
  λ h session,
    Some (h, ChatSession.mk (ChatSession.id session) (ChatSession.title session)
               (ChatSession.messages session ++ [aiRef])
               (ChatSession.updatedAt session)).

(** The session returned by the three callbacks:
    [{ ...session, messages: msgs }] with [msgs = [...session.messages]]. *)
Definition sameSession (session : ChatSession.t) : ChatSession.t :=
  ChatSession.mk (ChatSession.id session) (ChatSession.title session)
                 (ChatSession.messages session) (ChatSession.updatedAt session).

(** Updater of [onChunk], lines 151-158.  [lastMsg.text += chunkText]
    writes to the object [msgs] shares with [session.messages]. *)
Definition chunkUpdater (aiMsgId chunkText : string) : Updater :=
  λ h session,
    match last_elem (ChatSession.messages session) with
    | None => None
    | Some r =>
      match h !! r with
      | None => None
      | Some lastMsg =>
        let h' :=
          if String.eqb (Message.id lastMsg) aiMsgId
          then <[r := Message.with_text lastMsg (Message.text lastMsg +:+ chunkText)]> h
          else h in
        Some (h', sameSession session)
      end
    end.

(** Updater of [onComplete], lines 163-168. *)
Definition completeUpdater : Updater :=
  λ h session,
    match last_elem (ChatSession.messages session) with
    | None => None
    | Some r =>
      match h !! r with
      | None => None
      | Some lastMsg =>
        Some (<[r := Message.with_isStreaming lastMsg false]> h, sameSession session)
      end
    end.

Definition APOLOGY : string := "Sorry, I encountered an error processing your request.".

Definition GENERIC_ERROR : string := "Something went wrong".

(** Updater of [onError], lines 174-180. *)
Definition errorUpdater : Updater :=
  λ h session,
    match last_elem (ChatSession.messages session) with
    | None => None
    | Some r =>
      match h !! r with
      | None => None
      | Some lastMsg =>
        let m1 := Message.with_isStreaming lastMsg false in
        let m2 := Message.with_text m1 (str_or (Message.text m1) APOLOGY) in
        Some (<[r := m2]> h, sameSession session)
      end
    end.

(** One invocation of [generateResponseStream] that has not delivered its
    terminal event yet: the values its three callbacks closed over
    ([captured] is [state.currentSessionId] of the render that built
    [handleSendMessage]) and the arguments of the call. *)
Record Turn := mkTurn {
  captured : string;
  aiMsgId : string;
  modelArg : ModelId;
  historyArg : list loc;
  textArg : string;
  attachmentsArg : list Attachment
}.

#[global] Instance Turn_eq_dec : EqDecision Turn.
Proof. solve_decision. Defined.

(** The values [handleSendMessage] draws from [uuidv4()] and [Date.now()],
    in the order of the calls. *)
Record SendEnv := mkSendEnv {
  userMsgId : string;
  userStamp : Z;
  updatedStamp : Z;
  aiId : string;
  aiStamp : Z
}.

(** The object built at lines 102-108. *)
Definition userMessage (text : string) (attachments : list Attachment)
    (env : SendEnv) : Message.t :=
  Message.mk (userMsgId env) USER text (Some attachments) None (userStamp env).

(** The object built at lines 127-133. *)
Definition aiPlaceholder (env : SendEnv) : Message.t :=
  Message.mk (aiId env) MODEL "" None (Some true) (aiStamp env).

(** [handleSendMessage], lines 96-183, up to the call of
    [generateResponseStream]: the new component state and the invocation
    made, if any.  The two queued updates run in the order they were
    queued, before any update queued by a callback
    ([handleSendMessage_steps] has the handler before they run).
    [state.sessions[id]] at line 48 is the lookup in the mapping, as in
    [updateCurrentSession]. *)
Definition handleSendMessage (text : string) (attachments : list Attachment)
    (env : SendEnv) (a : App) : option (App * option Turn) :=
  match currentSessionId (state a) with
  | None => Some (a, None)
  | Some sid =>
    if truthy sid then
      let a1 := setIsGenerating true (setError None a) in
      let '(h1, userRef) := alloc (heap a1) (userMessage text attachments env) in
      match updateCurrentSession (Some sid)
              (addUserMessage text userRef (updatedStamp env)) h1 (state a1) with
      | None => None
      | Some (h2, st2) =>
        let '(h3, aiRef) := alloc h2 (aiPlaceholder env) in
        match updateCurrentSession (Some sid) (addPlaceholder aiRef) h3 st2 with
        | None => None
        | Some (h4, st4) =>
          let history :=
            match sessions (state a) !! sid with
            | Some currentSession => ChatSession.messages currentSession ++ [userRef]
            | None => [userRef]
            end in
          Some (with_state a1 h4 st4,
                Some (mkTurn sid (aiId env) (selectedModel (state a)) history text attachments))
        end
      end
    else Some (a, None)
  end.

(** Runs a callback's update on the component state. *)
Definition updating (t : Turn) (u : Updater) (a : App) : option App :=
  match updateCurrentSession (Some (captured t)) u (heap a) (state a) with
  | None => None
  | Some (h', st') => Some (with_state a h' st')
  end.

(** [onChunk] callback, lines 149-159. *)
Definition onChunk (t : Turn) (chunkText : string) (a : App) : option App :=
  updating t (chunkUpdater (aiMsgId t) chunkText) a.

(** [onComplete] callback, lines 160-169. *)
Definition onComplete (t : Turn) (a : App) : option App :=
  updating t completeUpdater (setIsGenerating false a).

(** [onError] callback, lines 170-181; [message] is [err.message]. *)
Definition onError (t : Turn) (message : option string) (a : App) : option App :=
  let banner := str_or (default "" message) GENERIC_ERROR in
  updating t errorUpdater (setError (Some banner) (setIsGenerating false a)).

(** The deltas of one turn, applied in the order received. *)
Fixpoint onChunks (t : Turn) (chunks : list string) (a : App) : option App :=
  match chunks with
  | [] => Some a
  | c :: rest =>
    match onChunk t c a with
    | None => None
    | Some a' => onChunks t rest a'
    end
  end.

(** [handleOnboardingSubmit], lines 81-92, followed by the effect of lines
    40-45, which runs once [state.user] has changed.  [name] and [mail] are
    the results of [.trim()]. *)
Definition handleOnboardingSubmit (name mail : string) (prev : AppState) : AppState :=
  if truthy name && truthy mail then
    mkAppState (Some (mkUserProfile name mail)) (currentSessionId prev) (sessions prev)
               (selectedModel prev) (sidebarOpen prev)
  else prev.

Definition initSessionEffect (newId : string) (now : Z) (st : AppState) : AppState :=
  match user st, currentSessionId st with
  | Some _, None => createNewSession newId now st
  | Some _, Some sid => if truthy sid then st else createNewSession newId now st
  | None, _ => st
  end.

(** ** The component and its environment *)

Record World := mkWorld {
  app : App;
  inflight : list Turn
}.

Definition initialWorld : World := mkWorld initialApp [].

Inductive event :=
  | Onboard (name mail newId : string) (now : Z)
  | NewChat (newId : string) (now : Z)
  | SelectSession (id : string)
  | ToggleSidebar
  | SelectModel (m : ModelId)
  | Send (text : string) (attachments : list Attachment) (env : SendEnv)
  | Chunk (t : Turn) (chunkText : string)
  | Complete (t : Turn)
  | Fail (t : Turn) (message : option string).

Definition on_state (f : AppState → AppState) (w : World) : World :=
  mkWorld (with_state (app w) (heap (app w)) (f (state (app w)))) (inflight w).

Definition remove_turn (t : Turn) (l : list Turn) : list Turn :=
  filter (λ t', t' ≠ t) l.

(** Modelled from the spec: the generation capability
    ([generateResponseStream] of [services/geminiService], whose source is
    not available) "emits zero or more text-delta events in arrival order,
    followed by exactly one terminal event".  A turn is therefore in flight
    from the send that invoked the capability to its terminal event, and
    only turns in flight receive events ([offered]).  The handlers the
    events run are those of [App.tsx]. *)
Definition apply (ev : event) (w : World) : option World :=
  match ev with
  | Onboard name mail newId now =>
    Some (on_state (λ st, initSessionEffect newId now (handleOnboardingSubmit name mail st)) w)
  | NewChat newId now => Some (on_state (createNewSession newId now) w)
  | SelectSession id => Some (on_state (selectSession id) w)
  | ToggleSidebar => Some (on_state toggleSidebar w)
  | SelectModel m => Some (on_state (selectModel m) w)
  | Send text attachments env =>
    match handleSendMessage text attachments env (app w) with
    | None => None
    | Some (a', None) => Some (mkWorld a' (inflight w))
    | Some (a', Some t) => Some (mkWorld a' (inflight w ++ [t]))
    end
  | Chunk t chunkText =>
    match onChunk t chunkText (app w) with
    | None => None
    | Some a' => Some (mkWorld a' (inflight w))
    end
  | Complete t =>
    match onComplete t (app w) with
    | None => None
    | Some a' => Some (mkWorld a' (remove_turn t (inflight w)))
    end
  | Fail t message =>
    match onError t message (app w) with
    | None => None
    | Some a' => Some (mkWorld a' (remove_turn t (inflight w)))
    end
  end.

(** [uuidv4()] returns an id that is in use nowhere: it keys no session and
    no pending callback closed over it. *)
Definition fresh (newId : string) (w : World) : bool :=
  bool_decide (sessions (state (app w)) !! newId = None)
  && forallb (λ t, bool_decide (captured t ≠ newId)) (inflight w).

(** The target of a send has no turn in flight (the single-turn-per-session
    precondition of the specification). *)
Definition idle_target (w : World) : bool :=
  match currentSessionId (state (app w)) with
  | None => true
  | Some sid => forallb (λ t, bool_decide (captured t ≠ sid)) (inflight w)
  end.

Definition onboarded (w : World) : bool :=
  bool_decide (user (state (app w)) ≠ None).

(** When the environment may raise an event: the onboarding form is shown
    while there is no user and the chat screen afterwards; ids are fresh;
    callbacks belong to turns in flight. *)
Definition offered (ev : event) (w : World) : bool :=
  match ev with
  | Onboard _ _ newId _ => negb (onboarded w) && fresh newId w
  | NewChat newId _ => onboarded w && fresh newId w
  | SelectSession _ | ToggleSidebar | SelectModel _ | Send _ _ _ => onboarded w
  | Chunk t _ | Complete t | Fail t _ => bool_decide (t ∈ inflight w)
  end.

(** [offered], and a send only when its target session is idle. *)
Definition enabled (ev : event) (w : World) : bool :=
  match ev with
  | Onboard _ _ newId _ => negb (onboarded w) && fresh newId w
  | NewChat newId _ => onboarded w && fresh newId w
  | SelectSession _ | ToggleSidebar | SelectModel _ => onboarded w
  | Send _ _ _ => onboarded w && idle_target w
  | Chunk t _ | Complete t | Fail t _ => bool_decide (t ∈ inflight w)
  end.

(** The sidebar offers existing sessions only. *)
Definition known_select (ev : event) (w : World) : bool :=
  match ev with
  | SelectSession id => bool_decide (id ∈ dom (sessions (state (app w))))
  | _ => true
  end.

Definition offered_known (ev : event) (w : World) : bool :=
  offered ev w && known_select ev w.

Fixpoint run (G : event → World → bool) (evs : list event) (w : World) : option World :=
  match evs with
  | [] => Some w
  | ev :: rest =>
    if G ev w then
      match apply ev w with
      | None => None
      | Some w' => run G rest w'
      end
    else None
  end.

Inductive reachable_by (G : event → World → bool) : World → Prop :=
  | reach_init : reachable_by G initialWorld
  | reach_step w ev w' :
      reachable_by G w → G ev w = true → apply ev w = Some w' → reachable_by G w'.

(** States reachable under the one-turn-per-session precondition, and
    states reachable without it. *)
Definition reachable : World → Prop := reachable_by enabled.

Definition reachable_any : World → Prop := reachable_by offered.

(** ** Observations *)

Definition is_streaming (h : Heap) (r : loc) : bool :=
  match h !! r with
  | Some m => bool_decide (Message.isStreaming m = Some true)
  | None => false
  end.

(** Number of messages of an array with [isStreaming = true]. *)
Definition count_streaming (h : Heap) (ms : list loc) : nat :=
  length (filter (λ r, is_streaming h r = true) ms).

Definition title_of (k : string) (w : World) : option string :=
  ChatSession.title <$> sessions (state (app w)) !! k.

(** Number of steps of a run at which the title of session [k] changes. *)
Fixpoint title_changes (k : string) (evs : list event) (w : World) : nat :=
  match evs with
  | [] => 0
  | ev :: rest =>
    match apply ev w with
    | None => 0
    | Some w' =>
      (if bool_decide (title_of k w' = title_of k w) then 0 else 1)
      + title_changes k rest w'
    end
  end.

(** ** Notions used in the statements *)

(** The text a sequence of deltas adds up to. *)
Definition joined (chunks : list string) : string := foldr String.app "" chunks.

(** The session written by a send on the session [s]. *)
Definition sentSession (text : string) (env : SendEnv) (h : Heap)
    (s : ChatSession.t) : ChatSession.t :=
  ChatSession.mk (ChatSession.id s)
    (if (length (ChatSession.messages s) =? 0)%nat then firstTitle text
     else ChatSession.title s)
    (ChatSession.messages s ++ [length h; S (length h)])
    (updatedStamp env).

(** The invocation a send on the session [s] makes, and the address of
    the placeholder it creates. *)
Definition sentTurn (text : string) (attachments : list Attachment) (env : SendEnv)
    (a : App) (s : ChatSession.t) : Turn :=
  mkTurn (ChatSession.id s) (aiId env) (selectedModel (state a))
         (ChatSession.messages s ++ [length (heap a)]) text attachments.

Definition placeholderRef (a : App) : loc := S (length (heap a)).

(** The state deltas leave behind when the last message [lastMsg] of the
    target session sits at address [r]. *)
Definition afterChunks (t : Turn) (chunks : list string) (a : App)
    (r : loc) (lastMsg : Message.t) : App :=
  if String.eqb (Message.id lastMsg) (aiMsgId t)
  then mkApp (<[r := Message.with_text lastMsg (Message.text lastMsg +:+ joined chunks)]> (heap a))
             (state a) (isGenerating a) (error a)
  else a.

(** Whether [ev] is the terminal event of the turn [t]. *)
Definition terminal_of (t : Turn) (ev : event) : bool :=
  match ev with
  | Complete t' | Fail t' _ => bool_decide (t' = t)
  | _ => false
  end.

(** The deltas a run delivers to the turn [t], in order. *)
Definition deltas_of (t : Turn) (evs : list event) : list string :=
  omap (λ ev, match ev with
              | Chunk t' c => if decide (t' = t) then Some c else None
              | _ => None
              end) evs.

(** An updater that hands the session back as it was and writes, if at
    all, to the object at the end of its [messages]. *)
Definition last_only (u : Updater) : Prop :=
  ∀ h s h' s', u h s = Some (h', s') →
    s' = s ∧ ∀ r, last_elem (ChatSession.messages s) ≠ Some r → h' !! r = h !! r.

(** [currentSessionId], if set, keys an entry of [sessions]. *)
Definition current_known (st : AppState) : Prop :=
  ∀ cur, currentSessionId st = Some cur → is_Some (sessions st !! cur).

(** ** Invariants *)

(** The placeholder a turn in flight anchors: the last message of its
    target session, still streaming. *)
Definition anchored (h : Heap) (t : Turn) (s : ChatSession.t) : Prop :=
  ∃ r m, last_elem (ChatSession.messages s) = Some r ∧ h !! r = Some m ∧
         Message.id m = aiMsgId t ∧ Message.role m = MODEL ∧
         Message.isStreaming m = Some true.

(** What the send protocol maintains under the one-turn precondition:
    keys agree with session ids; [messages] holds live addresses; no
    object belongs to two sessions; a streaming message is the last of its
    session and has a turn in flight; the target of a turn in flight, when
    it resolves, ends with the turn's placeholder; the turns in flight
    have distinct, non-empty targets. *)
Record InvC (h : Heap) (ss : gmap string ChatSession.t) (fl : list Turn) : Prop := mkInvC {
  inv_keys : ∀ k s, ss !! k = Some s → ChatSession.id s = k;
  inv_valid : ∀ k s r, ss !! k = Some s → r ∈ ChatSession.messages s → r < length h;
  inv_disjoint : ∀ k1 k2 s1 s2 r,
    ss !! k1 = Some s1 → ss !! k2 = Some s2 →
    r ∈ ChatSession.messages s1 → r ∈ ChatSession.messages s2 → k1 = k2;
  inv_streaming : ∀ k s i r,
    ss !! k = Some s → ChatSession.messages s !! i = Some r → is_streaming h r = true →
    S i = length (ChatSession.messages s) ∧ ∃ t, t ∈ fl ∧ captured t = k;
  inv_turn : ∀ t s, t ∈ fl → ss !! captured t = Some s → anchored h t s;
  inv_nodup : NoDup (captured <$> fl);
  inv_truthy : ∀ t, t ∈ fl → truthy (captured t) = true
}.

Definition Inv (w : World) : Prop :=
  InvC (heap (app w)) (sessions (state (app w))) (inflight w).

(** What holds without that precondition: keys agree with session ids,
    [messages] holds live addresses, and the targets of the turns in
    flight are non-empty ids and, where they resolve, have a message. *)
Record InvJ (h : Heap) (ss : gmap string ChatSession.t) (fl : list Turn) : Prop := mkInvJ {
  j_keys : ∀ k s, ss !! k = Some s → ChatSession.id s = k;
  j_valid : ∀ k s r, ss !! k = Some s → r ∈ ChatSession.messages s → r < length h;
  j_turn : ∀ t s, t ∈ fl → ss !! captured t = Some s → ChatSession.messages s ≠ [];
  j_truthy : ∀ t, t ∈ fl → truthy (captured t) = true
}.

Definition Safe (w : World) : Prop :=
  InvJ (heap (app w)) (sessions (state (app w))) (inflight w).

(** ** Sample states *)

Definition sampleUser : UserProfile := mkUserProfile "Ann" "ann@example.org".

Definition sampleEnv : SendEnv := mkSendEnv "u1" 1 2 "a1" 3.

Definition secondEnv : SendEnv := mkSendEnv "u2" 4 5 "a2" 6.

Definition newChatSession : ChatSession.t := ChatSession.mk "s1" "New Chat" [] 0.

(** After onboarding: the session ["s1"] created by the effect. *)
Definition onboardedWorld : World :=
  mkWorld (mkApp [] (mkAppState (Some sampleUser) (Some "s1") {["s1" := newChatSession]}
                       FLASH false) false None) [].

(** After the send of ["Hi"]: the user message and the empty placeholder
    ["a1"], the turn in flight. *)
Definition streamingApp : App :=
  mkApp [userMessage "Hi" [] sampleEnv; aiPlaceholder sampleEnv]
        (mkAppState (Some sampleUser) (Some "s1")
           {["s1" := ChatSession.mk "s1" "Hi" [0; 1] 2]} FLASH false)
        true None.

Definition sampleTurn : Turn := mkTurn "s1" "a1" FLASH [0] "Hi" [].

Definition streamingWorld : World := mkWorld streamingApp [sampleTurn].

(** After the deltas ["He"] and ["llo"]. *)
Definition helloWorld : World :=
  mkWorld (mkApp [userMessage "Hi" [] sampleEnv;
                  Message.with_text (aiPlaceholder sampleEnv) "Hello"]
                 (state streamingApp) true None) [sampleTurn].

Definition secondTurn : Turn := mkTurn "s1" "a2" FLASH [0; 1; 2] "more" [].

(** A second send on ["s1"] while the first turn is in flight. *)
Definition overlapWorld : World :=
  mkWorld (mkApp [userMessage "Hi" [] sampleEnv; aiPlaceholder sampleEnv;
                  userMessage "more" [] secondEnv; aiPlaceholder secondEnv]
                 (mkAppState (Some sampleUser) (Some "s1")
                    {["s1" := ChatSession.mk "s1" "Hi" [0; 1; 2; 3] 5]} FLASH false)
                 true None)
          [sampleTurn; secondTurn].

(** ** Further code: what the component renders, and the constants *)

(** String values of the [ModelId] enum ([src/types.ts], lines 29-33). *)
Definition ModelId_value (m : ModelId) : string :=
  match m with
  | FLASH => "gemini-2.5-flash"
  | PRO => "gemini-3-pro-preview"
  | FLASH_LITE => "gemini-flash-lite-latest"
  end.

(** The model a string stands for, if any: what [id as ModelId] (line 281)
    takes for granted. *)
Definition ModelId_of_value (s : string) : option ModelId :=
  if String.eqb s "gemini-2.5-flash" then Some FLASH
  else if String.eqb s "gemini-3-pro-preview" then Some PRO
  else if String.eqb s "gemini-flash-lite-latest" then Some FLASH_LITE
  else None.

(** An object literal with string keys: its properties in source order.
    [obj_get] is [obj[k]] (a later property of the same name wins) and the
    list itself is [Object.entries(obj)] when the names are distinct. *)
Definition obj_get (k : string) (obj : list (string * string)) : option string :=
  foldl (λ acc kv, if String.eqb (fst kv) k then Some (snd kv) else acc) None obj.

(** [src/constants.ts], lines 5-15. *)
Definition MODEL_LABELS : list (string * string) :=
  [(ModelId_value FLASH, "Gemini 2.5 Flash");
   (ModelId_value PRO, "Gemini 3.0 Pro");
   (ModelId_value FLASH_LITE, "Gemini Flash Lite")].

Definition MODEL_DESCRIPTIONS : list (string * string) :=
  [(ModelId_value FLASH, "Best for speed and general tasks.");
   (ModelId_value PRO, "Best for complex reasoning and coding.");
   (ModelId_value FLASH_LITE, "Lightweight and cost-effective.")].

(** [src/constants.ts], lines 17-37. *)
Module Suggestion.
Record t := mk {
  icon : string;
  text : string;
  prompt : string
}.
End Suggestion.

Definition WELCOME_SUGGESTIONS : list Suggestion.t :=
  [Suggestion.mk "Code" "Write a Python script to scrape a website"
     "Write a Python script to scrape a website and save the data to a CSV file.";
   Suggestion.mk "Plane" "Plan a trip to Kyoto"
     "Plan a 5-day itinerary for a trip to Kyoto, Japan, focusing on historical sites and food.";
   Suggestion.mk "Brain" "Explain quantum computing"
     "Explain quantum computing to a 5-year-old using simple analogies.";
   Suggestion.mk "Image" "Analyze this image"
     "Describe what you see in this image in detail."].

(** [currentSession] and [currentMessages], lines 48-49. *)
Definition currentSession (st : AppState) : option ChatSession.t :=
  match currentSessionId st with
  | Some sid => if truthy sid then sessions st !! sid else None
  | None => None
  end.

Definition currentMessages (st : AppState) : list loc :=
  match currentSession st with
  | Some s => ChatSession.messages s
  | None => []
  end.

(** The welcome screen with the suggestion buttons, line 307. *)
Definition welcomeShown (a : App) : bool :=
  (length (currentMessages (state a)) =? 0)%nat.

(** The error banner, line 387: [error && ...]. *)
Definition bannerShown (a : App) : bool :=
  match error a with
  | Some e => truthy e
  | None => false
  end.

(** The [disabled] property handed to [InputArea], line 396. *)
Definition inputDisabled (a : App) : bool := isGenerating a.

(** What the text bubble of a message holds, lines 363-377. *)
Inductive Bubble :=
  | PlainText (s : string)
  | Markdown (content : string)
  | TypingDots
  | NoContent.

Definition bubble (msg : Message.t) : Bubble :=
  match Message.role msg with
  | USER => PlainText (Message.text msg)
  | MODEL =>
    if truthy (Message.text msg) then Markdown (Message.text msg)
    else match Message.isStreaming msg with
         | Some true => TypingDots
         | _ => NoContent
         end
  end.

(** A row of the model menu, lines 277-292, and the label of the header,
    line 268. *)
Record MenuRow := mkMenuRow {
  row_id : string;
  row_label : string;
  row_selected : bool;
  row_description : option string
}.

Definition modelMenu (selected : ModelId) : list MenuRow :=
  map (λ kv, mkMenuRow (fst kv) (snd kv)
               (String.eqb (ModelId_value selected) (fst kv))
               (obj_get (fst kv) MODEL_DESCRIPTIONS))
      MODEL_LABELS.

Definition headerLabel (selected : ModelId) : option string :=
  obj_get (ModelId_value selected) MODEL_LABELS.

(** ** Further notions *)

(** The turn whose callback an event is. *)
Definition event_turn (ev : event) : option Turn :=
  match ev with
  | Chunk t _ | Complete t | Fail t _ => Some t
  | _ => None
  end.

(** The events of the sidebar, the header and the model menu. *)
Definition is_nav (ev : event) : bool :=
  match ev with
  | NewChat _ _ | SelectSession _ | ToggleSidebar | SelectModel _ => true
  | _ => false
  end.

(** Whether a send is accepted: a current session id is set. *)
Definition active (a : App) : bool :=
  match currentSessionId (state a) with
  | Some sid => truthy sid
  | None => false
  end.

(** How a [Message] object may differ from an earlier state of itself. *)
Definition evolves (m m' : Message.t) : Prop :=
  Message.id m' = Message.id m ∧ Message.role m' = Message.role m ∧
  Message.attachments m' = Message.attachments m ∧
  Message.timestamp m' = Message.timestamp m ∧
  (∃ suffix, Message.text m' = Message.text m +:+ suffix) ∧
  (Message.isStreaming m' = Message.isStreaming m ∨
   Message.isStreaming m' = Some false).

(** What one event does to the store of objects, the sessions and the
    turns in flight. *)
Inductive change (ev : event) (w w' : World) : Prop :=
  | ch_none :
      heap (app w') = heap (app w) →
      sessions (state (app w')) = sessions (state (app w)) →
      (∀ t, t ∈ inflight w' → t ∈ inflight w) →
      (event_turn ev = None → inflight w' = inflight w) →
      change ev w w'
  | ch_create newId now :
      sessions (state (app w)) !! newId = None →
      heap (app w') = heap (app w) →
      sessions (state (app w')) =
        <[newId := ChatSession.mk newId "New Chat" [] now]> (sessions (state (app w))) →
      inflight w' = inflight w →
      change ev w w'
  | ch_send text attachments env sid :
      ev = Send text attachments env →
      currentSessionId (state (app w)) = Some sid → truthy sid = true →
      heap (app w') =
        heap (app w) ++ [userMessage text attachments env; aiPlaceholder env] →
      sessions (state (app w')) =
        match sessions (state (app w)) !! sid with
        | Some s => <[sid := sentSession text env (heap (app w)) s]> (sessions (state (app w)))
        | None => sessions (state (app w))
        end →
      (∃ t, inflight w' = inflight w ++ [t] ∧ captured t = sid ∧ aiMsgId t = aiId env) →
      change ev w w'
  | ch_write t s r m m' :
      event_turn ev = Some t → t ∈ inflight w →
      sessions (state (app w)) !! captured t = Some s →
      last_elem (ChatSession.messages s) = Some r →
      heap (app w) !! r = Some m →
      evolves m m' →
      ((∃ c, ev = Chunk t c) → Message.id m = aiMsgId t) →
      heap (app w') = <[r := m']> (heap (app w)) →
      sessions (state (app w')) = sessions (state (app w)) →
      (∀ t', t' ∈ inflight w' → t' ∈ inflight w) →
      change ev w w'.

(** The last message of every session is a [MODEL] message. *)
Definition last_model (w : World) : Prop :=
  ∀ k s r m,
    sessions (state (app w)) !! k = Some s →
    last_elem (ChatSession.messages s) = Some r →
    heap (app w) !! r = Some m → Message.role m = MODEL.

(** The ids of the messages of an array, as the list keys its rows
    (line 337). *)
Definition message_ids (h : Heap) (ms : list loc) : list string :=
  omap (λ r, Message.id <$> h !! r) ms.

(** [uuidv4()] returns message ids in use by no message. *)
Definition fresh_ids (ev : event) (w : World) : bool :=
  match ev with
  | Send _ _ env =>
    bool_decide (userMsgId env ≠ aiId env)
    && bool_decide (userMsgId env ∉ Message.id <$> heap (app w))
    && bool_decide (aiId env ∉ Message.id <$> heap (app w))
  | _ => true
  end.

Definition offered_fresh (ev : event) (w : World) : bool :=
  offered ev w && fresh_ids ev w.

(** Modelled from the spec: [InputArea] ([components/InputArea], whose
    source is not available) is the "disabled-input collaborator" that
    sends nothing while its [disabled] property, [isGenerating], is set. *)
Definition via_input (ev : event) (w : World) : bool :=
  match ev with
  | Send _ _ _ => negb (inputDisabled (app w))
  | _ => true
  end.

(** A click on a suggestion button, lines 307-329: the buttons are there
    while the current session shows no message, and send the prompt with
    no attachment. *)
Definition via_suggestion (ev : event) (w : World) : bool :=
  match ev with
  | Send text attachments _ =>
    welcomeShown (app w) && bool_decide (attachments = [])
    && bool_decide (text ∈ Suggestion.prompt <$> WELCOME_SUGGESTIONS)
  | _ => false
  end.

(** Sends through the input only, and sends through the input or the
    suggestions. *)
Definition input_offered (ev : event) (w : World) : bool :=
  offered ev w && via_input ev w.

Definition ui_offered (ev : event) (w : World) : bool :=
  offered ev w && (via_input ev w || via_suggestion ev w).

(** One updater after the other. *)
Definition then_updater (u1 u2 : Updater) : Updater :=
  λ h s, match u1 h s with
         | Some (h1, s1) => u2 h1 s1
         | None => None
         end.

(** A world with a dangling current id: ["ghost"] keys no session. *)
Definition ghostWorld : World := on_state (selectSession "ghost") onboardedWorld.

(** The names of the properties every object inherits from
    [Object.prototype]: for these, [sessions[id]] finds the inherited value
    where the mapping has no entry of its own. *)
Definition OBJECT_PROTOTYPE_KEYS : list string :=
  ["constructor"; "__defineGetter__"; "__defineSetter__"; "hasOwnProperty";
   "__lookupGetter__"; "__lookupSetter__"; "isPrototypeOf"; "propertyIsEnumerable";
   "toString"; "valueOf"; "__proto__"; "toLocaleString"].

(** An id for which [sessions[id]] is the lookup in the mapping. *)
Definition plain_key (id : string) : bool := bool_decide (id ∉ OBJECT_PROTOTYPE_KEYS).

(** ** The order of effects within a send *)

(** A state update as React queues it: [setError(e)], [setIsGenerating(b)],
    and the [setState(prev => ...)] of [updateCurrentSession] called from a
    render whose [state.currentSessionId] is [cur].  The three hooks are
    listed in one queue, in the order of the calls. *)
Inductive Update :=
  | QError (e : option string)
  | QGenerating (b : bool)
  | QSession (cur : option string) (u : Updater).

Definition run_update (q : Update) (a : App) : option App :=
  match q with
  | QError e => Some (setError e a)
  | QGenerating b => Some (setIsGenerating b a)
  | QSession cur u =>
    match updateCurrentSession cur u (heap a) (state a) with
    | None => None
    | Some (h', st') => Some (with_state a h' st')
    end
  end.

(** The next render applies the queued updates in the order they were
    queued. *)
Fixpoint flush (qs : list Update) (a : App) : option App :=
  match qs with
  | [] => Some a
  | q :: rest =>
    match run_update q a with
    | None => None
    | Some a' => flush rest a'
    end
  end.

(** Where [handleSendMessage] stands when it calls
    [generateResponseStream] at line 144: the component state as it is
    then (the two message objects are built, no update has been applied),
    the updates queued so far, and the invocation. *)
Record Call := mkCall {
  atCall : App;
  queue : list Update;
  invocation : Turn
}.

(** [handleSendMessage], lines 96-148, statement by statement; [None] when
    the handler returns at line 97. *)
Definition handleSendMessage_steps (text : string) (attachments : list Attachment)
    (env : SendEnv) (a : App) : option Call :=
  match currentSessionId (state a) with
  | None => None
  | Some sid =>
    if truthy sid then
      let '(h1, userRef) := alloc (heap a) (userMessage text attachments env) in
      let '(h2, aiRef) := alloc h1 (aiPlaceholder env) in
      let history :=
        match sessions (state a) !! sid with
        | Some currentSession => ChatSession.messages currentSession ++ [userRef]
        | None => [userRef]
        end in
      Some (mkCall (with_state a h2 (state a))
                   [QError None; QGenerating true;
                    QSession (Some sid) (addUserMessage text userRef (updatedStamp env));
                    QSession (Some sid) (addPlaceholder aiRef)]
                   (mkTurn sid (aiId env) (selectedModel (state a)) history text attachments))
    else None
  end.

(** A run the interface offers (input and suggestion buttons) that ends
    with two turns in flight on the session ["s2"]: a turn streams in
    ["s1"]; a suggestion is clicked in the new chat ["s2"]; the first turn
    completes, which enables the input; a message is sent in ["s2"]. *)
Definition thirdEnv : SendEnv := mkSendEnv "u3" 8 9 "a3" 10.

Definition crossedRun : list event :=
  [Onboard "Ann" "ann@example.org" "s1" 0;
   Send "Hi" [] sampleEnv;
   NewChat "s2" 7;
   Send "Explain quantum computing to a 5-year-old using simple analogies." [] secondEnv;
   Complete sampleTurn;
   Send "and then?" [] thirdEnv].

(** The turn of the suggestion, whose placeholder ["a2"] sits at address
    3, and the turn sent after it, whose placeholder ["a3"] sits at 5. *)
Definition suggestionTurn : Turn :=
  mkTurn "s2" "a2" FLASH [2]
         "Explain quantum computing to a 5-year-old using simple analogies." [].

Definition followUpTurn : Turn := mkTurn "s2" "a3" FLASH [2; 3; 4] "and then?" [].

(** * Properties *)

(** ** Basic facts *)

Lemma last_elem_snoc {A} (l : list A) (x : A) : last_elem (l ++ [x]) = Some x.
Proof.
  unfold last_elem. rewrite length_app. simpl.
  replace (length l + 1 - 1) with (length l) by lia.
  rewrite lookup_app_r by lia. by rewrite Nat.sub_diag.
Qed.

Lemma last_elem_nil {A} : last_elem (@nil A) = None.
Proof. reflexivity. Qed.

Lemma last_elem_is_Some {A} (l : list A) : l ≠ [] → is_Some (last_elem l).
Proof.
  intros Hne. unfold last_elem. apply lookup_lt_is_Some.
  destruct l; [done | simpl; lia].
Qed.

Lemma last_elem_elem_of {A} (l : list A) (x : A) : last_elem l = Some x → x ∈ l.
Proof. unfold last_elem. intros H. eapply list_elem_of_lookup_2, H. Qed.

Lemma last_elem_at {A} (l : list A) (i : nat) : S i = length l → last_elem l = l !! i.
Proof. intros H. unfold last_elem. f_equal. lia. Qed.

Lemma sameSession_id (s : ChatSession.t) : sameSession s = s.
Proof. by destruct s. Qed.

Lemma truthy_true (s : string) : truthy s = true ↔ s ≠ "".
Proof.
  unfold truthy. rewrite negb_true_iff. split.
  - intros H ->. by rewrite String.eqb_refl in H.
  - intros H. by apply String.eqb_neq.
Qed.

Lemma str_or_spec (a b : string) : str_or a b = if decide (a = "") then b else a.
Proof.
  unfold str_or. destruct (decide (a = "")) as [-> | Hne]; [done |].
  by apply truthy_true in Hne as ->.
Qed.

Lemma forallb_captured_ne (sid : string) (fl : list Turn) :
  forallb (λ t, bool_decide (captured t ≠ sid)) fl = true ↔
  ∀ t, t ∈ fl → captured t ≠ sid.
Proof.
  rewrite forallb_forall. split.
  - intros H t Ht. apply list_elem_of_In, H in Ht. by apply bool_decide_eq_true in Ht.
  - intros H t Ht. apply bool_decide_eq_true, H. by apply list_elem_of_In.
Qed.

Lemma elem_of_remove_turn (t t' : Turn) (fl : list Turn) :
  t' ∈ remove_turn t fl ↔ t' ∈ fl ∧ t' ≠ t.
Proof. unfold remove_turn. rewrite list_elem_of_filter. tauto. Qed.

Lemma NoDup_captured_remove (t : Turn) (fl : list Turn) :
  NoDup (captured <$> fl) → NoDup (captured <$> remove_turn t fl).
Proof.
  intros H. eapply sublist_NoDup; [exact H |].
  apply fmap_sublist. unfold remove_turn. apply sublist_filter.
Qed.

Lemma NoDup_captured_inj (fl : list Turn) (t t' : Turn) :
  NoDup (captured <$> fl) → t ∈ fl → t' ∈ fl → captured t = captured t' → t = t'.
Proof.
  induction fl as [| x fl IH]; intros Hnd Ht Ht' Heq; [by apply elem_of_nil in Ht |].
  rewrite fmap_cons in Hnd. apply NoDup_cons in Hnd as [Hnotin Hnd].
  apply elem_of_cons in Ht as [-> | Ht]; apply elem_of_cons in Ht' as [-> | Ht'].
  - done.
  - exfalso. apply Hnotin. rewrite Heq. by apply list_elem_of_fmap_2.
  - exfalso. apply Hnotin. rewrite <- Heq. by apply list_elem_of_fmap_2.
  - by apply IH.
Qed.

(** ** The session store *)

Lemma updateCurrentSession_inactive (cur : option string) (u : Updater) h prev :
  cur = None ∨ cur = Some "" → updateCurrentSession cur u h prev = Some (h, prev).
Proof. by intros [-> | ->]. Qed.

Lemma updateCurrentSession_unresolved sid (u : Updater) h prev :
  sessions prev !! sid = None → updateCurrentSession (Some sid) u h prev = Some (h, prev).
Proof. intros H. unfold updateCurrentSession. rewrite H. by destruct (truthy sid). Qed.

Lemma updateCurrentSession_resolved sid (u : Updater) h prev session :
  truthy sid = true → sessions prev !! sid = Some session →
  updateCurrentSession (Some sid) u h prev =
  match u h session with
  | None => None
  | Some (h', updatedSession) =>
    Some (h', mkAppState (user prev) (currentSessionId prev)
                (<[ChatSession.id session := updatedSession]> (sessions prev))
                (selectedModel prev) (sidebarOpen prev))
  end.
Proof. intros Ht H. unfold updateCurrentSession. by rewrite Ht, H. Qed.

(** An updater that hands the session back unchanged leaves the state as
    it was. *)
Lemma state_insert_same (prev : AppState) (session : ChatSession.t) :
  sessions prev !! ChatSession.id session = Some session →
  mkAppState (user prev) (currentSessionId prev)
    (<[ChatSession.id session := sameSession session]> (sessions prev))
    (selectedModel prev) (sidebarOpen prev) = prev.
Proof.
  intros H. rewrite sameSession_id, insert_id by done. by destruct prev.
Qed.

(** ** What a send does *)

Lemma handleSendMessage_inactive text attachments env a :
  currentSessionId (state a) = None ∨ currentSessionId (state a) = Some "" →
  handleSendMessage text attachments env a = Some (a, None).
Proof. unfold handleSendMessage. by intros [-> | ->]. Qed.

Lemma handleSendMessage_unresolved text attachments env a sid :
  currentSessionId (state a) = Some sid → truthy sid = true →
  sessions (state a) !! sid = None →
  handleSendMessage text attachments env a =
  Some (mkApp (heap a ++ [userMessage text attachments env; aiPlaceholder env])
              (state a) true None,
        Some (mkTurn sid (aiId env) (selectedModel (state a)) [length (heap a)]
                     text attachments)).
Proof.
  intros Hcur Ht Hnone. unfold handleSendMessage. rewrite Hcur, Ht. simpl.
  rewrite !updateCurrentSession_unresolved by done. rewrite Hnone.
  unfold with_state. simpl. by rewrite <- app_assoc.
Qed.

Lemma handleSendMessage_resolved text attachments env a sid s :
  currentSessionId (state a) = Some sid → truthy sid = true →
  sessions (state a) !! sid = Some s → ChatSession.id s = sid →
  handleSendMessage text attachments env a =
  Some (mkApp (heap a ++ [userMessage text attachments env; aiPlaceholder env])
              (mkAppState (user (state a)) (Some sid)
                 (<[sid := sentSession text env (heap a) s]> (sessions (state a)))
                 (selectedModel (state a)) (sidebarOpen (state a)))
              true None,
        Some (mkTurn sid (aiId env) (selectedModel (state a))
                     (ChatSession.messages s ++ [length (heap a)]) text attachments)).
Proof.
  intros Hcur Ht Hs Hid. unfold handleSendMessage. rewrite Hcur, Ht. simpl.
  rewrite (updateCurrentSession_resolved _ _ _ _ s) by done. simpl.
  erewrite updateCurrentSession_resolved; [| done | simpl; rewrite Hid; apply lookup_insert_eq].
  simpl. rewrite Hs, Hid, insert_insert_eq. unfold with_state, sentSession. simpl.
  rewrite Hcur, Hid, length_app, <- !app_assoc. simpl.
  by replace (length (heap a) + 1) with (S (length (heap a))) by lia.
Qed.

(** ** What the callbacks do *)

Lemma updating_unresolved t (u : Updater) a :
  sessions (state a) !! captured t = None → updating t u a = Some a.
Proof.
  intros H. unfold updating. rewrite updateCurrentSession_unresolved by done.
  by destruct a.
Qed.

Section callbacks_on_a_resolved_session.
Context (t : Turn) (a : App) (s : ChatSession.t) (r : loc) (lastMsg : Message.t).
Hypothesis Htruthy : truthy (captured t) = true.
Hypothesis Hsession : sessions (state a) !! captured t = Some s.
Hypothesis Hkey : ChatSession.id s = captured t.
Hypothesis Hlast : last_elem (ChatSession.messages s) = Some r.
Hypothesis Hobj : heap a !! r = Some lastMsg.

Lemma onChunk_resolved chunkText :
  onChunk t chunkText a =
  Some (mkApp
          (if String.eqb (Message.id lastMsg) (aiMsgId t)
           then <[r := Message.with_text lastMsg (Message.text lastMsg +:+ chunkText)]> (heap a)
           else heap a)
          (state a) (isGenerating a) (error a)).
Proof.
  unfold onChunk, updating.
  rewrite (updateCurrentSession_resolved _ _ _ _ s) by done.
  unfold chunkUpdater. rewrite Hlast, Hobj, state_insert_same by by rewrite Hkey.
  reflexivity.
Qed.

Lemma onComplete_resolved :
  onComplete t a =
  Some (mkApp (<[r := Message.with_isStreaming lastMsg false]> (heap a))
              (state a) false (error a)).
Proof.
  unfold onComplete, updating. simpl.
  rewrite (updateCurrentSession_resolved _ _ _ _ s) by done.
  unfold completeUpdater. rewrite Hlast, Hobj, state_insert_same by by rewrite Hkey.
  reflexivity.
Qed.

Lemma onError_resolved message :
  onError t message a =
  Some (mkApp
          (<[r := Message.with_text (Message.with_isStreaming lastMsg false)
                    (str_or (Message.text lastMsg) APOLOGY)]> (heap a))
          (state a) false
          (Some (str_or (default "" message) GENERIC_ERROR))).
Proof.
  unfold onError, updating. simpl.
  rewrite (updateCurrentSession_resolved _ _ _ _ s) by done.
  unfold errorUpdater. rewrite Hlast, Hobj, state_insert_same by by rewrite Hkey.
  reflexivity.
Qed.
End callbacks_on_a_resolved_session.

(** ** The invariant of the send protocol *)

Lemma is_streaming_app_l (h ms : Heap) (r : loc) :
  r < length h → is_streaming (h ++ ms) r = is_streaming h r.
Proof. intros H. unfold is_streaming. by rewrite lookup_app_l. Qed.

Lemma is_streaming_insert_ne (h : Heap) (r r' : loc) (m : Message.t) :
  r ≠ r' → is_streaming (<[r' := m]> h) r = is_streaming h r.
Proof. intros H. unfold is_streaming. by rewrite list_lookup_insert_ne. Qed.

Lemma is_streaming_insert_false (h : Heap) (r : loc) (m : Message.t) :
  Message.isStreaming m ≠ Some true → is_streaming (<[r := m]> h) r = false.
Proof.
  intros H. unfold is_streaming.
  destruct (decide (r < length h)) as [Hlt | Hge].
  - rewrite list_lookup_insert_eq by done. by apply bool_decide_eq_false.
  - rewrite list_insert_ge by lia. by rewrite lookup_ge_None_2 by lia.
Qed.

Lemma is_streaming_Some_true (h : Heap) (r : loc) (m : Message.t) :
  h !! r = Some m → Message.isStreaming m = Some true → is_streaming h r = true.
Proof. intros H1 H2. unfold is_streaming. rewrite H1. by apply bool_decide_eq_true. Qed.

Lemma is_streaming_with_text (h : Heap) (r r' : loc) (m : Message.t) (x : string) :
  h !! r' = Some m →
  is_streaming (<[r' := Message.with_text m x]> h) r = is_streaming h r.
Proof.
  intros H. destruct (decide (r = r')) as [-> | Hne].
  - unfold is_streaming. rewrite list_lookup_insert_eq by eauto using lookup_lt_Some.
    by rewrite H.
  - by apply is_streaming_insert_ne.
Qed.

Lemma InvC_init : InvC [] ∅ [].
Proof.
  split.
  - intros k s H. by rewrite lookup_empty in H.
  - intros k s r H. by rewrite lookup_empty in H.
  - intros k1 k2 s1 s2 r H. by rewrite lookup_empty in H.
  - intros k s i r H. by rewrite lookup_empty in H.
  - intros t s Ht. by apply elem_of_nil in Ht.
  - constructor.
  - intros t Ht. by apply elem_of_nil in Ht.
Qed.

Lemma InvC_create h ss fl k ttl now :
  InvC h ss fl → ss !! k = None → (∀ t, t ∈ fl → captured t ≠ k) →
  InvC h (<[k := ChatSession.mk k ttl [] now]> ss) fl.
Proof.
  intros [Hk Hv Hd Hs Ht Hn Htr] Hnone Hfl. split; try done.
  - intros k' s [[<- <-] | [? ?]]%lookup_insert_Some; [done | eauto].
  - intros k' s r [[<- <-] | [? ?]]%lookup_insert_Some; [| eauto].
    simpl. by intros ?%elem_of_nil.
  - intros k1 k2 s1 s2 r [[<- <-] | [? H1]]%lookup_insert_Some
           [[<- <-] | [? H2]]%lookup_insert_Some; simpl;
      try (by intros ?%elem_of_nil); try (by intros _ ?%elem_of_nil); eauto.
  - intros k' s i r [[<- <-] | [? ?]]%lookup_insert_Some; [done | eauto].
  - intros t s Hin [[Heq <-] | [? ?]]%lookup_insert_Some; [| eauto].
    by destruct (Hfl t Hin).
Qed.

Lemma InvC_text h ss fl r m x :
  InvC h ss fl → h !! r = Some m → InvC (<[r := Message.with_text m x]> h) ss fl.
Proof.
  intros [Hk Hv Hd Hs Ht Hn Htr] Hm. split; try done.
  - intros. rewrite length_insert. eauto.
  - intros k s i r' H1 H2. rewrite is_streaming_with_text by done. eauto.
  - intros t s Hin Hss. destruct (Ht t s Hin Hss) as (r' & m' & Hl & Hh & Hid & Hr & Hst).
    destruct (decide (r' = r)) as [-> | Hne].
    + exists r, (Message.with_text m x). rewrite list_lookup_insert_eq by eauto using lookup_lt_Some.
      by simplify_eq.
    + exists r', m'. by rewrite list_lookup_insert_ne.
Qed.

Lemma InvC_drop_unresolved h ss fl t :
  InvC h ss fl → ss !! captured t = None → InvC h ss (remove_turn t fl).
Proof.
  intros [Hk Hv Hd Hs Ht Hn Htr] Hnone. split; try done.
  - intros k s i r H1 H2 H3. destruct (Hs k s i r H1 H2 H3) as [Hi (t' & Hin & Hc)].
    split; [done |]. exists t'. split; [| done].
    apply elem_of_remove_turn. split; [done |]. intros ->. congruence.
  - intros t' s [Hin _]%elem_of_remove_turn. eauto.
  - by apply NoDup_captured_remove.
  - intros t' [Hin _]%elem_of_remove_turn. eauto.
Qed.

Lemma InvC_terminal h ss fl t s r m m' :
  InvC h ss fl → t ∈ fl → ss !! captured t = Some s →
  last_elem (ChatSession.messages s) = Some r → h !! r = Some m →
  Message.isStreaming m' ≠ Some true →
  InvC (<[r := m']> h) ss (remove_turn t fl).
Proof.
  intros [Hk Hv Hd Hs Ht Hn Htr] Hin Hss Hlast Hm Hst'. split; try done.
  - intros. rewrite length_insert. eauto.
  - intros k s0 i r0 H1 H2 H3.
    destruct (decide (r0 = r)) as [-> | Hne].
    { by rewrite is_streaming_insert_false in H3. }
    rewrite is_streaming_insert_ne in H3 by done.
    destruct (Hs k s0 i r0 H1 H2 H3) as [Hi (t' & Hin' & Hc)].
    split; [done |]. exists t'. split; [| done].
    apply elem_of_remove_turn. split; [done |]. intros ->. subst k.
    rewrite Hss in H1. injection H1 as <-.
    rewrite (last_elem_at _ i) in Hlast by done. congruence.
  - intros t' s' [Hin' Hne]%elem_of_remove_turn Hss'.
    destruct (Ht t' s' Hin' Hss') as (r' & m0 & Hl & Hh & ?).
    exists r', m0. split; [done |]. split; [| done].
    rewrite list_lookup_insert_ne; [done |]. intros <-.
    apply Hne. apply (NoDup_captured_inj fl); try done.
    symmetry.
    eapply (Hd _ _ s s' r); eauto using last_elem_elem_of.
  - by apply NoDup_captured_remove.
  - intros t' [Hin' _]%elem_of_remove_turn. eauto.
Qed.

Lemma anchored_app_l h ms t s : anchored h t s → anchored (h ++ ms) t s.
Proof.
  intros (r & m & Hl & Hh & Hrest). exists r, m. split; [done |]. split; [| done].
  rewrite lookup_app_l; [done |]. by eapply lookup_lt_Some.
Qed.

Lemma NoDup_captured_snoc fl tn :
  NoDup (captured <$> fl) → (∀ t, t ∈ fl → captured t ≠ captured tn) →
  NoDup (captured <$> (fl ++ [tn])).
Proof.
  intros Hn Hfl. rewrite fmap_app. apply NoDup_app. split; [done |]. split.
  - intros x (t & -> & Hin)%list_elem_of_fmap Hx.
    apply list_elem_of_singleton in Hx. by apply (Hfl t).
  - apply NoDup_singleton.
Qed.

Lemma InvC_send_unresolved h ss fl tn um ph :
  InvC h ss fl → ss !! captured tn = None → truthy (captured tn) = true →
  (∀ t, t ∈ fl → captured t ≠ captured tn) →
  InvC (h ++ [um; ph]) ss (fl ++ [tn]).
Proof.
  intros [Hk Hv Hd Hs Ht Hn Htr] Hnone Htruthy Hfl. split; try done.
  - intros k s r H1 H2. rewrite length_app. specialize (Hv k s r H1 H2). lia.
  - intros k s i r H1 H2 H3.
    rewrite is_streaming_app_l in H3 by eauto using list_elem_of_lookup_2.
    destruct (Hs k s i r H1 H2 H3) as [Hi (t & Hin & Hc)].
    split; [done |]. exists t. split; [| done]. apply elem_of_app. by left.
  - intros t s [Hin | ->%list_elem_of_singleton]%elem_of_app Hss; [| congruence].
    by apply anchored_app_l, Ht.
  - by apply NoDup_captured_snoc.
  - intros t [Hin | ->%list_elem_of_singleton]%elem_of_app; eauto.
Qed.

Lemma InvC_send_resolved h ss fl s tn um ph ttl upd :
  InvC h ss fl → ss !! captured tn = Some s → truthy (captured tn) = true →
  (∀ t, t ∈ fl → captured t ≠ captured tn) →
  Message.isStreaming um ≠ Some true →
  Message.id ph = aiMsgId tn → Message.role ph = MODEL →
  Message.isStreaming ph = Some true →
  InvC (h ++ [um; ph])
       (<[captured tn :=
            ChatSession.mk (captured tn) ttl
              (ChatSession.messages s ++ [length h; S (length h)]) upd]> ss)
       (fl ++ [tn]).
Proof.
  intros [Hk Hv Hd Hs Ht Hn Htr] Hss Htruthy Hfl Hum Hid Hrole Hph.
  assert (Hnew : ∀ r, r ∈ [length h; S (length h)] → length h ≤ r < length (h ++ [um; ph])).
  { intros r Hr. rewrite length_app. simpl.
    apply elem_of_cons in Hr as [-> | Hr]; [lia |].
    apply list_elem_of_singleton in Hr as ->. lia. }
  split.
  - intros k s0 [[<- <-] | [? ?]]%lookup_insert_Some; [done | eauto].
  - intros k s0 r [[<- <-] | [? H1]]%lookup_insert_Some; simpl.
    + intros [Hr | Hr]%elem_of_app.
      * rewrite length_app. specialize (Hv _ _ _ Hss Hr). lia.
      * by apply Hnew.
    + intros Hr. rewrite length_app. specialize (Hv _ _ _ H1 Hr). lia.
  - intros k1 k2 s1 s2 r [[<- <-] | [Hne1 H1]]%lookup_insert_Some
           [[<- <-] | [Hne2 H2]]%lookup_insert_Some; simpl; try done.
    + intros [Hr | Hr]%elem_of_app Hr2; [by eapply Hd |].
      apply Hnew in Hr. specialize (Hv _ _ _ H2 Hr2). lia.
    + intros Hr1 [Hr | Hr]%elem_of_app; [by eapply Hd |].
      apply Hnew in Hr. specialize (Hv _ _ _ H1 Hr1). lia.
    + by eapply Hd.
  - intros k s0 i r [[<- <-] | [Hne H1]]%lookup_insert_Some; simpl.
    + intros Hi Hst. apply lookup_app_Some in Hi as [Hi | [Hge Hi]].
      * exfalso. rewrite is_streaming_app_l in Hst by eauto using list_elem_of_lookup_2.
        destruct (Hs _ _ _ _ Hss Hi Hst) as [_ (t & Hin & Hc)]. by apply (Hfl t).
      * destruct (i - length (ChatSession.messages s)) as [| [| n]] eqn:Hn'; simpl in Hi;
          [| | done]; injection Hi as <-.
        -- exfalso. unfold is_streaming in Hst.
           rewrite lookup_app_r, Nat.sub_diag in Hst by lia. simpl in Hst.
           by apply bool_decide_eq_true in Hst.
        -- split; [rewrite length_app; simpl; lia |].
           exists tn. split; [| done]. apply elem_of_app. right. by apply list_elem_of_singleton.
    + intros Hi Hst.
      rewrite is_streaming_app_l in Hst by eauto using list_elem_of_lookup_2.
      destruct (Hs _ _ _ _ H1 Hi Hst) as [Hlen (t & Hin & Hc)].
      split; [done |]. exists t. split; [| done]. apply elem_of_app. by left.
  - intros t s0 [Hin | ->%list_elem_of_singleton]%elem_of_app.
    + rewrite lookup_insert_ne by (intros Heq; by apply (Hfl t)).
      intros Hs0. by apply anchored_app_l, Ht.
    + rewrite lookup_insert_eq. intros [= <-]. exists (S (length h)), ph. simpl.
      split.
      { replace (ChatSession.messages s ++ [length h; S (length h)])
          with ((ChatSession.messages s ++ [length h]) ++ [S (length h)])
          by by rewrite <- app_assoc.
        apply last_elem_snoc. }
      split; [| done].
      rewrite lookup_app_r by lia. by replace (S (length h) - length h) with 1 by lia.
  - by apply NoDup_captured_snoc.
  - intros t [Hin | ->%list_elem_of_singleton]%elem_of_app; eauto.
Qed.

Lemma fresh_spec newId w :
  fresh newId w = true ↔
  sessions (state (app w)) !! newId = None ∧ ∀ t, t ∈ inflight w → captured t ≠ newId.
Proof.
  unfold fresh. rewrite andb_true_iff, bool_decide_eq_true, forallb_captured_ne. tauto.
Qed.

Lemma idle_target_spec w sid :
  idle_target w = true → currentSessionId (state (app w)) = Some sid →
  ∀ t, t ∈ inflight w → captured t ≠ sid.
Proof. unfold idle_target. intros H Hcur. rewrite Hcur in H. by apply forallb_captured_ne. Qed.

Lemma Inv_create w newId now :
  Inv w → fresh newId w = true → Inv (on_state (createNewSession newId now) w).
Proof.
  intros HI [Hnone Hfl]%fresh_spec. unfold Inv. simpl. by apply InvC_create.
Qed.

Lemma sessions_handleOnboardingSubmit name mail st :
  sessions (handleOnboardingSubmit name mail st) = sessions st.
Proof. unfold handleOnboardingSubmit. by destruct (truthy name && truthy mail). Qed.

Lemma Inv_onboard w name mail newId now :
  Inv w → fresh newId w = true →
  Inv (on_state (λ st, initSessionEffect newId now (handleOnboardingSubmit name mail st)) w).
Proof.
  intros HI [Hnone Hfl]%fresh_spec. unfold Inv. simpl.
  pose proof (sessions_handleOnboardingSubmit name mail (state (app w))) as Hs.
  unfold initSessionEffect.
  destruct (user (handleOnboardingSubmit name mail (state (app w)))); [| by rewrite Hs].
  destruct (currentSessionId (handleOnboardingSubmit name mail (state (app w)))) as [sid |].
  - destruct (truthy sid); [by rewrite Hs |]. simpl. rewrite Hs. by apply InvC_create.
  - simpl. rewrite Hs. by apply InvC_create.
Qed.

Lemma Inv_send w text attachments env :
  Inv w → idle_target w = true →
  ∃ a' ot, handleSendMessage text attachments env (app w) = Some (a', ot) ∧
           Inv (mkWorld a' (inflight w ++ option_list ot)).
Proof.
  intros HI Hidle.
  destruct (currentSessionId (state (app w))) as [sid |] eqn:Hcur.
  2:{ exists (app w), None. rewrite handleSendMessage_inactive by auto.
      split; [done |]. simpl. by rewrite app_nil_r. }
  destruct (truthy sid) eqn:Ht.
  2:{ exists (app w), None. rewrite handleSendMessage_inactive.
      - split; [done |]. simpl. by rewrite app_nil_r.
      - right. rewrite Hcur. f_equal.
        destruct (decide (sid = "")) as [-> | Hne]; [done |].
        apply truthy_true in Hne. congruence. }
  pose proof (idle_target_spec _ _ Hidle Hcur) as Hfl.
  destruct (sessions (state (app w)) !! sid) as [s |] eqn:Hs.
  - pose proof (inv_keys _ _ _ HI _ _ Hs) as Hid.
    eexists _, _. split; [by apply handleSendMessage_resolved |].
    unfold Inv, sentSession. simpl. rewrite Hid.
    by apply (InvC_send_resolved _ _ _ s
                (mkTurn sid (aiId env) _ _ text attachments)).
  - eexists _, _. split; [by apply handleSendMessage_unresolved |].
    unfold Inv. simpl.
    by apply (InvC_send_unresolved _ _ _
                (mkTurn sid (aiId env) _ _ text attachments)).
Qed.

Lemma Inv_chunk w t chunkText :
  Inv w → t ∈ inflight w →
  ∃ a', onChunk t chunkText (app w) = Some a' ∧ Inv (mkWorld a' (inflight w)).
Proof.
  intros HI Hin.
  destruct (sessions (state (app w)) !! captured t) as [s |] eqn:Hs.
  - destruct (inv_turn _ _ _ HI _ _ Hin Hs) as (r & m & Hl & Hh & Hid & _).
    eexists. split.
    + eapply onChunk_resolved; eauto using inv_truthy, inv_keys.
    + unfold Inv. simpl. destruct (String.eqb _ _); [by apply InvC_text | done].
  - exists (app w). split; [by apply updating_unresolved | done].
Qed.

Lemma Inv_complete w t :
  Inv w → t ∈ inflight w →
  ∃ a', onComplete t (app w) = Some a' ∧ Inv (mkWorld a' (remove_turn t (inflight w))).
Proof.
  intros HI Hin.
  destruct (sessions (state (app w)) !! captured t) as [s |] eqn:Hs.
  - destruct (inv_turn _ _ _ HI _ _ Hin Hs) as (r & m & Hl & Hh & Hid & _).
    eexists. split.
    + eapply onComplete_resolved; eauto using inv_truthy, inv_keys.
    + unfold Inv. simpl. by eapply InvC_terminal.
  - eexists. split; [by apply updating_unresolved |].
    unfold Inv. simpl. by apply InvC_drop_unresolved.
Qed.

Lemma Inv_fail w t message :
  Inv w → t ∈ inflight w →
  ∃ a', onError t message (app w) = Some a' ∧ Inv (mkWorld a' (remove_turn t (inflight w))).
Proof.
  intros HI Hin.
  destruct (sessions (state (app w)) !! captured t) as [s |] eqn:Hs.
  - destruct (inv_turn _ _ _ HI _ _ Hin Hs) as (r & m & Hl & Hh & Hid & _).
    eexists. split.
    + eapply onError_resolved; eauto using inv_truthy, inv_keys.
    + unfold Inv. simpl. by eapply InvC_terminal.
  - eexists. split; [by apply updating_unresolved |].
    unfold Inv. simpl. by apply InvC_drop_unresolved.
Qed.

(** Every enabled event runs to completion and keeps the invariant. *)
Lemma Inv_step w ev :
  Inv w → enabled ev w = true → ∃ w', apply ev w = Some w' ∧ Inv w'.
Proof.
  intros HI Hen. destruct ev as [name mail newId now | newId now | id | | m
                                | text attachments env | t c | t | t message]; simpl in *.
  - apply andb_true_iff in Hen as [_ Hf]. eexists. split; [done |]. by apply Inv_onboard.
  - apply andb_true_iff in Hen as [_ Hf]. eexists. split; [done |]. by apply Inv_create.
  - eexists. split; [done |]. exact HI.
  - eexists. split; [done |]. exact HI.
  - eexists. split; [done |]. exact HI.
  - apply andb_true_iff in Hen as [_ Hidle].
    destruct (Inv_send w text attachments env HI Hidle) as (a' & ot & -> & HI').
    destruct ot; simpl in HI'; eexists; (split; [done |]); [done |].
    by rewrite app_nil_r in HI'.
  - apply bool_decide_eq_true in Hen.
    destruct (Inv_chunk w t c HI Hen) as (a' & -> & HI'). eauto.
  - apply bool_decide_eq_true in Hen.
    destruct (Inv_complete w t HI Hen) as (a' & -> & HI'). eauto.
  - apply bool_decide_eq_true in Hen.
    destruct (Inv_fail w t message HI Hen) as (a' & -> & HI'). eauto.
Qed.

Lemma Inv_initial : Inv initialWorld.
Proof. exact InvC_init. Qed.

Lemma reachable_by_weaken (G G' : event → World → bool) w :
  (∀ ev w0, G ev w0 = true → G' ev w0 = true) → reachable_by G w → reachable_by G' w.
Proof.
  intros HG. induction 1 as [| w ev w' _ IH Hen Hap]; [constructor |].
  eapply reach_step; eauto.
Qed.

Lemma reachable_Inv w : reachable w → Inv w.
Proof.
  induction 1 as [| w ev w' _ IH Hen Hap]; [exact Inv_initial |].
  destruct (Inv_step w ev IH Hen) as (w'' & Hap' & HI). congruence.
Qed.

Lemma run_reachable_by G evs w w' :
  reachable_by G w → run G evs w = Some w' → reachable_by G w'.
Proof.
  revert w. induction evs as [| ev evs IH]; intros w Hw; simpl.
  - by intros [= <-].
  - destruct (G ev w) eqn:Hen; [| done].
    destruct (apply ev w) as [w1 |] eqn:Hap; [| done].
    apply IH. by eapply reach_step.
Qed.

(** ** What holds without the one-turn precondition *)

Lemma enabled_offered ev w : enabled ev w = true → offered ev w = true.
Proof.
  destruct ev; simpl; try done. by intros [H _]%andb_true_iff.
Qed.

Lemma reachable_reachable_any w : reachable w → reachable_any w.
Proof. apply reachable_by_weaken, enabled_offered. Qed.

Lemma run_enabled_offered evs w w' :
  run enabled evs w = Some w' → run offered evs w = Some w'.
Proof.
  revert w. induction evs as [| ev evs IH]; intros w; simpl; [done |].
  destruct (enabled ev w) eqn:Hen; [| done].
  rewrite (enabled_offered _ _ Hen). destruct (apply ev w); [apply IH | done].
Qed.

Lemma Inv_Safe w : Inv w → Safe w.
Proof.
  intros [Hk Hv _ _ Ht _ Htr]. split; try done.
  intros t s Hin Hs Hnil. destruct (Ht t s Hin Hs) as (r & m & Hl & _).
  by rewrite Hnil in Hl.
Qed.

Lemma InvJ_create h ss fl k ttl now :
  InvJ h ss fl → ss !! k = None → (∀ t, t ∈ fl → captured t ≠ k) →
  InvJ h (<[k := ChatSession.mk k ttl [] now]> ss) fl.
Proof.
  intros [Hk Hv Ht Htr] Hnone Hfl. split; try done.
  - intros k' s [[<- <-] | [? ?]]%lookup_insert_Some; [done | eauto].
  - intros k' s r [[<- <-] | [? ?]]%lookup_insert_Some; [| eauto].
    simpl. by intros ?%elem_of_nil.
  - intros t s Hin [[Heq <-] | [? ?]]%lookup_insert_Some; [| eauto].
    by destruct (Hfl t Hin).
Qed.

Lemma InvJ_send_unresolved h ss fl tn ms :
  InvJ h ss fl → ss !! captured tn = None → truthy (captured tn) = true →
  InvJ (h ++ ms) ss (fl ++ [tn]).
Proof.
  intros [Hk Hv Ht Htr] Hnone Htruthy. split; try done.
  - intros k s r H1 H2. rewrite length_app. specialize (Hv k s r H1 H2). lia.
  - intros t s [Hin | ->%list_elem_of_singleton]%elem_of_app Hss; [eauto | congruence].
  - intros t [Hin | ->%list_elem_of_singleton]%elem_of_app; eauto.
Qed.

Lemma InvJ_send_resolved h ss fl s tn um ph ttl upd :
  InvJ h ss fl → ss !! captured tn = Some s → truthy (captured tn) = true →
  InvJ (h ++ [um; ph])
       (<[captured tn :=
            ChatSession.mk (captured tn) ttl
              (ChatSession.messages s ++ [length h; S (length h)]) upd]> ss)
       (fl ++ [tn]).
Proof.
  intros [Hk Hv Ht Htr] Hss Htruthy. split.
  - intros k s0 [[<- <-] | [? ?]]%lookup_insert_Some; [done | eauto].
  - intros k s0 r [[<- <-] | [? H1]]%lookup_insert_Some; simpl; rewrite length_app; simpl.
    + intros [Hr | Hr]%elem_of_app.
      * specialize (Hv _ _ _ Hss Hr). lia.
      * apply elem_of_cons in Hr as [-> | Hr]; [lia |].
        apply list_elem_of_singleton in Hr as ->. lia.
    + intros Hr. specialize (Hv _ _ _ H1 Hr). lia.
  - intros t s0 Hin [[Heq <-] | [Hne H1]]%lookup_insert_Some; simpl.
    + by destruct (ChatSession.messages s).
    + apply elem_of_app in Hin as [Hin | ->%list_elem_of_singleton]; [eauto | done].
  - intros t [Hin | ->%list_elem_of_singleton]%elem_of_app; eauto.
Qed.

Lemma InvJ_write h ss fl r m :
  InvJ h ss fl → InvJ (<[r := m]> h) ss fl.
Proof.
  intros [Hk Hv Ht Htr]. split; try done. intros. rewrite length_insert. eauto.
Qed.

Lemma InvJ_remove h ss fl t :
  InvJ h ss fl → InvJ h ss (remove_turn t fl).
Proof.
  intros [Hk Hv Ht Htr]. split; try done.
  - intros t' s [Hin _]%elem_of_remove_turn. eauto.
  - intros t' [Hin _]%elem_of_remove_turn. eauto.
Qed.

(** The last message a callback of a turn in flight finds. *)
Lemma Safe_last w t s :
  Safe w → t ∈ inflight w → sessions (state (app w)) !! captured t = Some s →
  ∃ r lastMsg, last_elem (ChatSession.messages s) = Some r ∧
               heap (app w) !! r = Some lastMsg.
Proof.
  intros HJ Hin Hs.
  destruct (last_elem_is_Some _ (j_turn _ _ _ HJ t s Hin Hs)) as [r Hr].
  destruct (lookup_lt_is_Some_2 (heap (app w)) r) as [m Hm].
  { eapply (j_valid _ _ _ HJ); eauto using last_elem_elem_of. }
  by exists r, m.
Qed.

Lemma Safe_send w text attachments env :
  Safe w →
  ∃ a' ot, handleSendMessage text attachments env (app w) = Some (a', ot) ∧
           Safe (mkWorld a' (inflight w ++ option_list ot)).
Proof.
  intros HJ.
  destruct (currentSessionId (state (app w))) as [sid |] eqn:Hcur.
  2:{ exists (app w), None. rewrite handleSendMessage_inactive by auto.
      split; [done |]. unfold Safe. simpl. by rewrite app_nil_r. }
  destruct (truthy sid) eqn:Ht.
  2:{ exists (app w), None. rewrite handleSendMessage_inactive.
      - split; [done |]. unfold Safe. simpl. by rewrite app_nil_r.
      - right. f_equal.
        destruct (decide (sid = "")) as [-> | Hne]; [done |].
        apply truthy_true in Hne. congruence. }
  destruct (sessions (state (app w)) !! sid) as [s |] eqn:Hs.
  - pose proof (j_keys _ _ _ HJ _ _ Hs) as Hid.
    eexists _, _. split; [by apply handleSendMessage_resolved |].
    unfold Safe, sentSession. simpl. rewrite Hid.
    by apply (InvJ_send_resolved _ _ _ s (mkTurn sid (aiId env) _ _ text attachments)).
  - eexists _, _. split; [by apply handleSendMessage_unresolved |].
    unfold Safe. simpl.
    by apply (InvJ_send_unresolved _ _ _ (mkTurn sid (aiId env) _ _ text attachments)).
Qed.

Lemma Safe_chunk w t chunkText :
  Safe w → t ∈ inflight w →
  ∃ a', onChunk t chunkText (app w) = Some a' ∧ state a' = state (app w) ∧
        Safe (mkWorld a' (inflight w)).
Proof.
  intros HJ Hin.
  destruct (sessions (state (app w)) !! captured t) as [s |] eqn:Hs.
  - destruct (Safe_last w t s HJ Hin Hs) as (r & m & Hl & Hh).
    eexists. split; [| split].
    + eapply onChunk_resolved; eauto using j_truthy, j_keys.
    + done.
    + unfold Safe. simpl. destruct (String.eqb _ _); [by apply InvJ_write | done].
  - exists (app w). split; [by apply updating_unresolved | done].
Qed.

Lemma Safe_complete w t :
  Safe w → t ∈ inflight w →
  ∃ a', onComplete t (app w) = Some a' ∧ state a' = state (app w) ∧
        Safe (mkWorld a' (remove_turn t (inflight w))).
Proof.
  intros HJ Hin.
  destruct (sessions (state (app w)) !! captured t) as [s |] eqn:Hs.
  - destruct (Safe_last w t s HJ Hin Hs) as (r & m & Hl & Hh).
    eexists. split; [| split].
    + eapply onComplete_resolved; eauto using j_truthy, j_keys.
    + done.
    + unfold Safe. simpl. by apply InvJ_write, InvJ_remove.
  - eexists. split; [by apply updating_unresolved |]. split; [done |].
    unfold Safe. simpl. by apply InvJ_remove.
Qed.

Lemma Safe_fail w t message :
  Safe w → t ∈ inflight w →
  ∃ a', onError t message (app w) = Some a' ∧ state a' = state (app w) ∧
        Safe (mkWorld a' (remove_turn t (inflight w))).
Proof.
  intros HJ Hin.
  destruct (sessions (state (app w)) !! captured t) as [s |] eqn:Hs.
  - destruct (Safe_last w t s HJ Hin Hs) as (r & m & Hl & Hh).
    eexists. split; [| split].
    + eapply onError_resolved; eauto using j_truthy, j_keys.
    + done.
    + unfold Safe. simpl. by apply InvJ_write, InvJ_remove.
  - eexists. split; [by apply updating_unresolved |]. split; [done |].
    unfold Safe. simpl. by apply InvJ_remove.
Qed.

Lemma Safe_onboard w name mail newId now :
  Safe w → fresh newId w = true →
  Safe (on_state (λ st, initSessionEffect newId now (handleOnboardingSubmit name mail st)) w).
Proof.
  intros HJ [Hnone Hfl]%fresh_spec. unfold Safe. simpl.
  pose proof (sessions_handleOnboardingSubmit name mail (state (app w))) as Hs.
  unfold initSessionEffect.
  destruct (user (handleOnboardingSubmit name mail (state (app w)))); [| by rewrite Hs].
  destruct (currentSessionId (handleOnboardingSubmit name mail (state (app w)))) as [sid |].
  - destruct (truthy sid); [by rewrite Hs |]. simpl. rewrite Hs. by apply InvJ_create.
  - simpl. rewrite Hs. by apply InvJ_create.
Qed.

(** Every event the environment may raise runs to completion. *)
Lemma Safe_step w ev :
  Safe w → offered ev w = true → ∃ w', apply ev w = Some w' ∧ Safe w'.
Proof.
  intros HJ Hen. destruct ev as [name mail newId now | newId now | id | | m
                                | text attachments env | t c | t | t message]; simpl in *.
  - apply andb_true_iff in Hen as [_ Hf]. eexists. split; [done |]. by apply Safe_onboard.
  - apply andb_true_iff in Hen as [_ [Hnone Hfl]%fresh_spec]. eexists. split; [done |].
    unfold Safe. simpl. by apply InvJ_create.
  - eexists. split; [done |]. exact HJ.
  - eexists. split; [done |]. exact HJ.
  - eexists. split; [done |]. exact HJ.
  - destruct (Safe_send w text attachments env HJ) as (a' & ot & -> & HJ').
    destruct ot; simpl in HJ'; eexists; (split; [done |]); [done |].
    by rewrite app_nil_r in HJ'.
  - apply bool_decide_eq_true in Hen.
    destruct (Safe_chunk w t c HJ Hen) as (a' & -> & _ & HJ'). eauto.
  - apply bool_decide_eq_true in Hen.
    destruct (Safe_complete w t HJ Hen) as (a' & -> & _ & HJ'). eauto.
  - apply bool_decide_eq_true in Hen.
    destruct (Safe_fail w t message HJ Hen) as (a' & -> & _ & HJ'). eauto.
Qed.

Lemma reachable_any_Safe w : reachable_any w → Safe w.
Proof.
  induction 1 as [| w ev w' _ IH Hen Hap].
  - apply Inv_Safe, Inv_initial.
  - destruct (Safe_step w ev IH Hen) as (w'' & Hap' & HJ). congruence.
Qed.

(** ** The sample states are reachable *)

Lemma onboardedWorld_reachable : reachable onboardedWorld.
Proof.
  apply (run_reachable_by enabled [Onboard "Ann" "ann@example.org" "s1" 0] initialWorld).
  - constructor.
  - vm_compute. reflexivity.
Defined.

Lemma streamingWorld_reachable : reachable streamingWorld.
Proof.
  apply (run_reachable_by enabled [Send "Hi" [] sampleEnv] onboardedWorld).
  - exact onboardedWorld_reachable.
  - vm_compute. reflexivity.
Defined.

Lemma onboardedWorld_reachable_any : reachable_any onboardedWorld.
Proof.
  apply (run_reachable_by offered [Onboard "Ann" "ann@example.org" "s1" 0] initialWorld).
  - constructor.
  - vm_compute. reflexivity.
Defined.

Lemma streamingWorld_reachable_any : reachable_any streamingWorld.
Proof.
  apply (run_reachable_by offered [Send "Hi" [] sampleEnv] onboardedWorld).
  - exact onboardedWorld_reachable_any.
  - vm_compute. reflexivity.
Defined.

(** ** Strings *)

Lemma append_cons (c : Ascii.ascii) (s1 s2 : string) :
  String c s1 +:+ s2 = String c (s1 +:+ s2).
Proof. reflexivity. Qed.

Lemma append_nil_r (s : string) : s +:+ "" = s.
Proof. induction s as [| c s IH]; [done |]. by rewrite append_cons, IH. Qed.

Lemma append_assoc (s1 s2 s3 : string) : (s1 +:+ s2) +:+ s3 = s1 +:+ (s2 +:+ s3).
Proof. induction s1 as [| c s1 IH]; [done |]. by rewrite !append_cons, IH. Qed.

Lemma joined_cons (c : string) (chunks : list string) :
  joined (c :: chunks) = c +:+ joined chunks.
Proof. reflexivity. Qed.

Lemma with_text_with_text (m : Message.t) (x y : string) :
  Message.with_text (Message.with_text m x) y = Message.with_text m y.
Proof. reflexivity. Qed.

Lemma with_text_same (m : Message.t) : Message.with_text m (Message.text m) = m.
Proof. by destruct m. Qed.

Lemma with_text_nil (m : Message.t) :
  Message.with_text m (Message.text m +:+ "") = m.
Proof. by rewrite append_nil_r, with_text_same. Qed.

(** ** Deltas *)

Lemma onChunks_resolved t chunks a s r lastMsg :
  truthy (captured t) = true →
  sessions (state a) !! captured t = Some s →
  ChatSession.id s = captured t →
  last_elem (ChatSession.messages s) = Some r →
  heap a !! r = Some lastMsg →
  chunks ≠ [] →
  onChunks t chunks a = Some (afterChunks t chunks a r lastMsg).
Proof.
  intros Htr Hs Hid Hl. revert a lastMsg Hs.
  induction chunks as [| c chunks IH]; intros a lastMsg Hs Hh Hne; [done |].
  simpl. rewrite (onChunk_resolved t a s r lastMsg) by done.
  unfold afterChunks. rewrite joined_cons.
  destruct (String.eqb (Message.id lastMsg) (aiMsgId t)) eqn:Heq.
  - destruct chunks as [| c' chunks].
    { simpl. by rewrite append_nil_r. }
    rewrite (IH _ (Message.with_text lastMsg (Message.text lastMsg +:+ c))); try done.
    + unfold afterChunks. simpl. rewrite Heq, list_insert_insert_eq.
      by rewrite with_text_with_text, append_assoc.
    + simpl. apply list_lookup_insert_eq. by eapply lookup_lt_Some.
  - destruct chunks as [| c' chunks]; [by destruct a |].
    replace (mkApp (heap a) (state a) (isGenerating a) (error a)) with a by by destruct a.
    rewrite (IH a lastMsg) by done. unfold afterChunks. by rewrite Heq.
Qed.

(** Deltas on a state whose target session resolves and ends with the
    object [lastMsg]. *)
Lemma deltas_on_last_message (t : Turn) (a : App) (s : ChatSession.t)
    (r : loc) (lastMsg : Message.t) :
  truthy (captured t) = true →
  sessions (state a) !! captured t = Some s →
  ChatSession.id s = captured t →
  last_elem (ChatSession.messages s) = Some r →
  heap a !! r = Some lastMsg →
  (∀ chunkText, ∃ a',
      onChunk t chunkText a = Some a' ∧
      state a' = state a ∧ isGenerating a' = isGenerating a ∧ error a' = error a ∧
      (Message.id lastMsg = aiMsgId t →
         heap a' = <[r := Message.with_text lastMsg (Message.text lastMsg +:+ chunkText)]> (heap a)) ∧
      (Message.id lastMsg ≠ aiMsgId t → a' = a)) ∧
  (∀ chunks, Message.id lastMsg = aiMsgId t → ∃ a',
      onChunks t chunks a = Some a' ∧ state a' = state a ∧
      heap a' !! r = Some (Message.with_text lastMsg (Message.text lastMsg +:+ joined chunks)) ∧
      (∀ r', r' ≠ r → heap a' !! r' = heap a !! r')) ∧
  (Message.id lastMsg = aiMsgId t → Message.text lastMsg = "" → ∃ a',
      onChunks t ["Hel"; "lo"] a = Some a' ∧
      Message.text <$> heap a' !! r = Some "Hello").
Proof.
  intros Htr Hs Hid Hl Hh.
  assert (Hlt : r < length (heap a)) by by eapply lookup_lt_Some.
  split; [| split].
  - intros c. eexists. split; [by eapply onChunk_resolved |]. simpl.
    do 3 (split; [done |]). split.
    + intros Heq%String.eqb_eq. by rewrite Heq.
    + intros Hne%String.eqb_neq. rewrite Hne. by destruct a.
  - intros chunks Heq%String.eqb_eq. destruct chunks as [| c chunks].
    + exists a. simpl. do 2 (split; [done |]). split; [| done].
      by rewrite append_nil_r, with_text_same.
    + eexists. split; [by eapply onChunks_resolved |].
      unfold afterChunks. rewrite Heq. simpl. split; [done |]. split.
      * by apply list_lookup_insert_eq.
      * intros r' Hne. by apply list_lookup_insert_ne.
  - intros Heq%String.eqb_eq Htext. eexists.
    split; [by eapply onChunks_resolved |].
    unfold afterChunks. rewrite Heq. simpl.
    rewrite list_lookup_insert_eq by done. simpl. by rewrite Htext.
Qed.

(** ** Frame of the callbacks *)

Lemma chunkUpdater_last_only aiMsg chunkText : last_only (chunkUpdater aiMsg chunkText).
Proof.
  intros h s h' s'. unfold chunkUpdater.
  destruct (last_elem (ChatSession.messages s)) as [r0 |]; [| done].
  destruct (h !! r0) as [m |]; [| done]. intros [= <- <-].
  split; [apply sameSession_id |]. intros r Hne.
  destruct (String.eqb _ _); [| done].
  apply list_lookup_insert_ne. congruence.
Qed.

Lemma completeUpdater_last_only : last_only completeUpdater.
Proof.
  intros h s h' s'. unfold completeUpdater.
  destruct (last_elem (ChatSession.messages s)) as [r0 |]; [| done].
  destruct (h !! r0) as [m |]; [| done]. intros [= <- <-].
  split; [apply sameSession_id |]. intros r Hne.
  apply list_lookup_insert_ne. congruence.
Qed.

Lemma errorUpdater_last_only : last_only errorUpdater.
Proof.
  intros h s h' s'. unfold errorUpdater.
  destruct (last_elem (ChatSession.messages s)) as [r0 |]; [| done].
  destruct (h !! r0) as [m |]; [| done]. intros [= <- <-].
  split; [apply sameSession_id |]. intros r Hne.
  apply list_lookup_insert_ne. congruence.
Qed.

Lemma updating_frame t (u : Updater) a a' :
  last_only u →
  (∀ k s, sessions (state a) !! k = Some s → ChatSession.id s = k) →
  updating t u a = Some a' →
  state a' = state a ∧ isGenerating a' = isGenerating a ∧ error a' = error a ∧
  ∀ r, (∀ s, sessions (state a) !! captured t = Some s →
             last_elem (ChatSession.messages s) ≠ Some r) →
       heap a' !! r = heap a !! r.
Proof.
  intros Hu Hkeys. unfold updating, updateCurrentSession.
  destruct (truthy (captured t)); [| by intros [= <-]].
  destruct (sessions (state a) !! captured t) as [s |] eqn:Hs; [| by intros [= <-]].
  destruct (u (heap a) s) as [[h' s'] |] eqn:Hus; [| done].
  intros [= <-]. simpl. destruct (Hu _ _ _ _ Hus) as [-> Hframe].
  split; [| by eauto].
  rewrite insert_id by by rewrite (Hkeys _ _ Hs). by destruct (state a).
Qed.

(** ** A turn between its send and its terminal event *)

Lemma other_turn_anchor h ss fl t t' s s' r r' :
  InvC h ss fl → t ∈ fl → t' ∈ fl → t' ≠ t →
  ss !! captured t = Some s → last_elem (ChatSession.messages s) = Some r →
  ss !! captured t' = Some s' → last_elem (ChatSession.messages s') = Some r' →
  r' ≠ r.
Proof.
  intros HI Hin Hin' Hne Hs Hl Hs' Hl' ->. apply Hne.
  apply (NoDup_captured_inj fl); eauto using inv_nodup.
  eapply (inv_disjoint _ _ _ HI _ _ s' s r); eauto using last_elem_elem_of.
Qed.

Lemma callback_of_other_turn w t t' s r (u : Updater) a0 a' :
  Inv w → t ∈ inflight w → t' ∈ inflight w → t' ≠ t →
  sessions (state (app w)) !! captured t = Some s →
  last_elem (ChatSession.messages s) = Some r →
  last_only u →
  state a0 = state (app w) → heap a0 = heap (app w) →
  updating t' u a0 = Some a' →
  state a' = state (app w) ∧ heap a' !! r = heap (app w) !! r.
Proof.
  intros HI Hin Hin' Hne Hs Hl Hu Hst Hh Hup.
  destruct (updating_frame t' u a0 a' Hu) as (Hst' & _ & _ & Hframe); [| done |].
  { rewrite Hst. eauto using inv_keys. }
  split; [congruence |]. rewrite <- Hh. apply Hframe.
  rewrite Hst. intros s' Hs' Hl'. by eapply (other_turn_anchor _ _ _ t t' s s' r r).
Qed.

Lemma step_keeps_turn w ev w' t s r m :
  Inv w → enabled ev w = true → apply ev w = Some w' → terminal_of t ev = false →
  t ∈ inflight w → sessions (state (app w)) !! captured t = Some s →
  last_elem (ChatSession.messages s) = Some r → heap (app w) !! r = Some m →
  t ∈ inflight w' ∧ sessions (state (app w')) !! captured t = Some s ∧
  heap (app w') !! r =
    Some (Message.with_text m (Message.text m +:+ joined (deltas_of t [ev]))).
Proof.
  intros HI Hen Hap Hterm Hin Hs Hl Hm.
  destruct ev as [name mail newId now | newId now | id | | md
                 | text attachments env | t' c | t' | t' message]; simpl in *.
  - injection Hap as <-. apply andb_true_iff in Hen as [_ [Hnone Hfl]%fresh_spec].
    simpl. rewrite with_text_nil. split; [done |]. split; [| done].
    pose proof (sessions_handleOnboardingSubmit name mail (state (app w))) as Hss.
    unfold initSessionEffect.
    destruct (user (handleOnboardingSubmit name mail (state (app w)))); [| by rewrite Hss].
    destruct (currentSessionId (handleOnboardingSubmit name mail (state (app w)))) as [sid |].
    + destruct (truthy sid); [by rewrite Hss |]. simpl. rewrite Hss.
      rewrite lookup_insert_ne; [done |]. intros Heq. by apply (Hfl t).
    + simpl. rewrite Hss. rewrite lookup_insert_ne; [done |]. intros Heq. by apply (Hfl t).
  - injection Hap as <-. apply andb_true_iff in Hen as [_ [Hnone Hfl]%fresh_spec].
    simpl. rewrite with_text_nil. split; [done |]. split; [| done].
    rewrite lookup_insert_ne; [done |]. intros Heq. by apply (Hfl t).
  - injection Hap as <-. simpl. by rewrite with_text_nil.
  - injection Hap as <-. simpl. by rewrite with_text_nil.
  - injection Hap as <-. simpl. by rewrite with_text_nil.
  - rewrite with_text_nil. apply andb_true_iff in Hen as [_ Hidle].
    destruct (currentSessionId (state (app w))) as [sid |] eqn:Hcur.
    2:{ rewrite handleSendMessage_inactive in Hap by auto. by injection Hap as <-. }
    destruct (truthy sid) eqn:Ht.
    2:{ rewrite handleSendMessage_inactive in Hap.
        - by injection Hap as <-.
        - right. rewrite Hcur. f_equal.
          destruct (decide (sid = "")) as [-> | Hne]; [done |].
          apply truthy_true in Hne. congruence. }
    pose proof (idle_target_spec _ _ Hidle Hcur t Hin) as Hne.
    assert (Hr : r < length (heap (app w))) by by eapply lookup_lt_Some.
    destruct (sessions (state (app w)) !! sid) as [s0 |] eqn:Hs0.
    + rewrite (handleSendMessage_resolved _ _ _ _ sid s0) in Hap
        by eauto using inv_keys.
      injection Hap as <-. simpl. split; [apply elem_of_app; by left |].
      rewrite lookup_insert_ne by done. by rewrite lookup_app_l.
    + rewrite (handleSendMessage_unresolved _ _ _ _ sid) in Hap by done.
      injection Hap as <-. simpl. split; [apply elem_of_app; by left |].
      by rewrite lookup_app_l.
  - apply bool_decide_eq_true in Hen.
    destruct (onChunk t' c (app w)) as [a' |] eqn:Hc; [| done]. injection Hap as <-.
    simpl. split; [done |]. destruct (decide (t' = t)) as [-> | Hne].
    + destruct (inv_turn _ _ _ HI _ _ Hin Hs) as (r0 & m0 & Hl0 & Hh0 & Hid & _).
      assert (r0 = r) as -> by congruence. assert (m0 = m) as -> by congruence.
      rewrite (onChunk_resolved t (app w) s r m) in Hc by eauto using inv_truthy, inv_keys.
      injection Hc as <-. simpl. apply String.eqb_eq in Hid. rewrite Hid.
      split; [done |].
      rewrite list_lookup_insert_eq by by eapply lookup_lt_Some.
      change (joined [c]) with (c +:+ ""). by rewrite append_nil_r.
    + destruct (callback_of_other_turn w t t' s r _ (app w) a' HI Hin Hen Hne Hs Hl
                  (chunkUpdater_last_only _ _) eq_refl eq_refl Hc) as [-> ->].
      simpl. by rewrite with_text_nil.
  - apply bool_decide_eq_true in Hen. apply bool_decide_eq_false in Hterm.
    destruct (onComplete t' (app w)) as [a' |] eqn:Hc; [| done]. injection Hap as <-.
    simpl. split; [by apply elem_of_remove_turn |].
    destruct (callback_of_other_turn w t t' s r completeUpdater
                (setIsGenerating false (app w)) a' HI Hin Hen Hterm Hs Hl
                completeUpdater_last_only eq_refl eq_refl Hc) as [-> ->].
    simpl. by rewrite with_text_nil.
  - apply bool_decide_eq_true in Hen. apply bool_decide_eq_false in Hterm.
    destruct (onError t' message (app w)) as [a' |] eqn:Hc; [| done]. injection Hap as <-.
    simpl. split; [by apply elem_of_remove_turn |].
    destruct (callback_of_other_turn w t t' s r errorUpdater
                (setError (Some (str_or (default "" message) GENERIC_ERROR))
                   (setIsGenerating false (app w))) a' HI Hin Hen Hterm Hs Hl
                errorUpdater_last_only eq_refl eq_refl Hc) as [-> ->].
    simpl. by rewrite with_text_nil.
Qed.

Lemma joined_app (l1 l2 : list string) : joined (l1 ++ l2) = joined l1 +:+ joined l2.
Proof.
  induction l1 as [| x l1 IH]; [done |].
  change (x +:+ joined (l1 ++ l2) = (x +:+ joined l1) +:+ joined l2).
  by rewrite IH, append_assoc.
Qed.

Lemma deltas_of_cons t ev evs : deltas_of t (ev :: evs) = deltas_of t [ev] ++ deltas_of t evs.
Proof. unfold deltas_of. simpl. by destruct ev; try destruct (decide _). Qed.

Lemma run_keeps_turn evs w w' t s r m :
  Inv w → t ∈ inflight w → sessions (state (app w)) !! captured t = Some s →
  last_elem (ChatSession.messages s) = Some r → heap (app w) !! r = Some m →
  Forall (λ ev, terminal_of t ev = false) evs →
  run enabled evs w = Some w' →
  Inv w' ∧ t ∈ inflight w' ∧ sessions (state (app w')) !! captured t = Some s ∧
  heap (app w') !! r =
    Some (Message.with_text m (Message.text m +:+ joined (deltas_of t evs))).
Proof.
  revert w m. induction evs as [| ev evs IH]; intros w m HI Hin Hs Hl Hm Hall Hrun.
  - injection Hrun as <-. simpl. by rewrite with_text_nil.
  - simpl in Hrun. destruct (enabled ev w) eqn:Hen; [| done].
    destruct (apply ev w) as [w1 |] eqn:Hap; [| done].
    apply Forall_cons in Hall as [Hev Hall].
    destruct (Inv_step w ev HI Hen) as (w1' & Hap' & HI1).
    assert (w1' = w1) as -> by congruence.
    destruct (step_keeps_turn w ev w1 t s r m HI Hen Hap Hev Hin Hs Hl Hm)
      as (Hin1 & Hs1 & Hm1).
    destruct (IH w1 _ HI1 Hin1 Hs1 Hl Hm1 Hall Hrun) as (HI' & Hin' & Hs' & Hm').
    do 3 (split; [done |]).
    by rewrite Hm', (deltas_of_cons t ev evs), joined_app, <- append_assoc.
Qed.

(** A send on a resolving session, then any run that does not deliver the
    turn's terminal event. *)
Lemma turn_in_progress w0 text attachments env sid s w1 evs w2 :
  reachable w0 →
  currentSessionId (state (app w0)) = Some sid → truthy sid = true →
  sessions (state (app w0)) !! sid = Some s →
  enabled (Send text attachments env) w0 = true →
  apply (Send text attachments env) w0 = Some w1 →
  Forall (λ ev, terminal_of (sentTurn text attachments env (app w0) s) ev = false) evs →
  run enabled evs w1 = Some w2 →
  let t := sentTurn text attachments env (app w0) s in
  captured t = sid ∧ Inv w2 ∧ t ∈ inflight w2 ∧
  ∃ s2, sessions (state (app w2)) !! sid = Some s2 ∧
        ChatSession.messages s2 = ChatSession.messages s ++ [length (heap (app w0)); placeholderRef (app w0)] ∧
        heap (app w2) !! placeholderRef (app w0) =
          Some (Message.mk (aiId env) MODEL (joined (deltas_of t evs)) None (Some true)
                           (aiStamp env)).
Proof.
  intros Hreach Hcur Htr Hs Hen Hap Hall Hrun t.
  pose proof (reachable_Inv _ Hreach) as HI0.
  pose proof (inv_keys _ _ _ HI0 _ _ Hs) as Hid.
  destruct (Inv_step _ _ HI0 Hen) as (w1' & Hap' & HI1).
  assert (w1' = w1) as -> by congruence. clear Hap'.
  simpl in Hap. rewrite (handleSendMessage_resolved _ _ _ _ sid s) in Hap by done.
  injection Hap as <-.
  assert (Hct : captured t = sid) by done.
  set (s1 := sentSession text env (heap (app w0)) s).
  edestruct (run_keeps_turn evs _ w2 t s1 (placeholderRef (app w0)) (aiPlaceholder env) HI1)
    as (HI2 & Hin2 & Hs2 & Hm2); try done.
  - simpl. apply elem_of_app. right. apply list_elem_of_singleton.
    unfold t, sentTurn. by rewrite Hid.
  - simpl. rewrite Hid. apply lookup_insert_eq.
  - unfold s1, sentSession, placeholderRef. simpl.
    replace (ChatSession.messages s ++ [length (heap (app w0)); S (length (heap (app w0)))])
      with ((ChatSession.messages s ++ [length (heap (app w0))]) ++ [S (length (heap (app w0)))])
      by by rewrite <- app_assoc.
    apply last_elem_snoc.
  - simpl. unfold placeholderRef. rewrite lookup_app_r by lia.
    by replace (S (length (heap (app w0))) - length (heap (app w0))) with 1 by lia.
  - split; [done |]. split; [done |]. split; [done |].
    exists s1. rewrite <- Hct. split; [done |]. split; [done |]. exact Hm2.
Qed.

Lemma last_elem_two {A} (l : list A) (x y : A) : last_elem (l ++ [x; y]) = Some y.
Proof.
  replace (l ++ [x; y]) with ((l ++ [x]) ++ [y]) by by rewrite <- app_assoc.
  apply last_elem_snoc.
Qed.

(** C3 (with the precondition it needs).  Under the one-turn-per-session
    precondition: a turn sent on a
    resolving session, followed by any run that delivers deltas to it
    (possibly interleaved with events of other sessions) and then by its
    completion: the completion clears the
    generating flag, sets the placeholder's [isStreaming] to [false] and
    leaves its text equal to the concatenation of the deltas received, the
    session store and every other message being untouched.  With no delta
    received the placeholder ends with the empty text. *)
Theorem completion_of_a_turn w0 text attachments env sid s w1 evs w2 :
  reachable w0 →
  currentSessionId (state (app w0)) = Some sid → truthy sid = true →
  sessions (state (app w0)) !! sid = Some s →
  enabled (Send text attachments env) w0 = true →
  apply (Send text attachments env) w0 = Some w1 →
  Forall (λ ev, terminal_of (sentTurn text attachments env (app w0) s) ev = false) evs →
  run enabled evs w1 = Some w2 →
  ∃ w3,
    enabled (Complete (sentTurn text attachments env (app w0) s)) w2 = true ∧
    apply (Complete (sentTurn text attachments env (app w0) s)) w2 = Some w3 ∧
    isGenerating (app w3) = false ∧
    error (app w3) = error (app w2) ∧
    state (app w3) = state (app w2) ∧
    heap (app w3) !! placeholderRef (app w0) =
      Some (Message.mk (aiId env) MODEL
              (joined (deltas_of (sentTurn text attachments env (app w0) s) evs))
              None (Some false) (aiStamp env)) ∧
    (∀ r, r ≠ placeholderRef (app w0) → heap (app w3) !! r = heap (app w2) !! r) ∧
    (deltas_of (sentTurn text attachments env (app w0) s) evs = [] →
     Message.text <$> heap (app w3) !! placeholderRef (app w0) = Some "").
Proof.
  intros Hreach Hcur Htr Hs Hen Hap Hall Hrun.
  destruct (turn_in_progress _ _ _ _ _ _ _ _ _ Hreach Hcur Htr Hs Hen Hap Hall Hrun)
    as (Hct & HI2 & Hin2 & s2 & Hs2 & Hms & Hm).
  set (t := sentTurn text attachments env (app w0) s) in *.
  assert (Hl : last_elem (ChatSession.messages s2) = Some (placeholderRef (app w0))).
  { rewrite Hms. apply last_elem_two. }
  assert (Hlt : placeholderRef (app w0) < length (heap (app w2))) by by eapply lookup_lt_Some.
  eexists. split; [by apply bool_decide_eq_true |]. simpl.
  erewrite (onComplete_resolved t (app w2) s2 (placeholderRef (app w0)));
    [| by rewrite Hct | by rewrite Hct | rewrite Hct; eauto using inv_keys
     | exact Hl | exact Hm].
  split; [done |]. simpl. do 3 (split; [done |]).
  rewrite list_lookup_insert_eq by done. split; [done |]. split.
  - intros r Hne. by apply list_lookup_insert_ne.
  - by intros ->.
Qed.

(** C4 (with the precondition it needs).  Under the one-turn-per-session
    precondition, the same turn ended
    by a failure: the generating flag is cleared,
    the banner holds the failure's message, or the generic text when the
    failure has no (or an empty) message, the placeholder's [isStreaming]
    is set to [false], and its text is the apology exactly when the deltas
    received add up to the empty text; text received before the failure is
    kept. *)
Theorem failure_of_a_turn w0 text attachments env sid s w1 evs w2 message :
  reachable w0 →
  currentSessionId (state (app w0)) = Some sid → truthy sid = true →
  sessions (state (app w0)) !! sid = Some s →
  enabled (Send text attachments env) w0 = true →
  apply (Send text attachments env) w0 = Some w1 →
  Forall (λ ev, terminal_of (sentTurn text attachments env (app w0) s) ev = false) evs →
  run enabled evs w1 = Some w2 →
  ∃ w3,
    enabled (Fail (sentTurn text attachments env (app w0) s) message) w2 = true ∧
    apply (Fail (sentTurn text attachments env (app w0) s) message) w2 = Some w3 ∧
    isGenerating (app w3) = false ∧
    error (app w3) =
      Some (match message with
            | Some msg => if decide (msg = "") then "Something went wrong" else msg
            | None => "Something went wrong"
            end) ∧
    state (app w3) = state (app w2) ∧
    heap (app w3) !! placeholderRef (app w0) =
      Some (Message.mk (aiId env) MODEL
              (let received := joined (deltas_of (sentTurn text attachments env (app w0) s) evs) in
               if decide (received = "")
               then "Sorry, I encountered an error processing your request."
               else received)
              None (Some false) (aiStamp env)) ∧
    (∀ r, r ≠ placeholderRef (app w0) → heap (app w3) !! r = heap (app w2) !! r).
Proof.
  intros Hreach Hcur Htr Hs Hen Hap Hall Hrun.
  destruct (turn_in_progress _ _ _ _ _ _ _ _ _ Hreach Hcur Htr Hs Hen Hap Hall Hrun)
    as (Hct & HI2 & Hin2 & s2 & Hs2 & Hms & Hm).
  set (t := sentTurn text attachments env (app w0) s) in *.
  assert (Hl : last_elem (ChatSession.messages s2) = Some (placeholderRef (app w0))).
  { rewrite Hms. apply last_elem_two. }
  assert (Hlt : placeholderRef (app w0) < length (heap (app w2))) by by eapply lookup_lt_Some.
  eexists. split; [by apply bool_decide_eq_true |]. simpl.
  erewrite (onError_resolved t (app w2) s2 (placeholderRef (app w0)));
    [| by rewrite Hct | by rewrite Hct | rewrite Hct; eauto using inv_keys
     | exact Hl | exact Hm].
  split; [done |]. simpl. split; [done |]. split.
  { f_equal. rewrite str_or_spec. by destruct message as [msg |]. }
  split; [done |]. rewrite list_lookup_insert_eq by done. split.
  - unfold Message.with_text. simpl. by rewrite str_or_spec.
  - intros r Hne. by apply list_lookup_insert_ne.
Qed.

Lemma completion_of_a_turn_witness :
  ∃ w3, apply (Complete sampleTurn) helloWorld = Some w3 ∧
        isGenerating (app w3) = false ∧
        heap (app w3) !! 1 = Some (Message.mk "a1" MODEL "Hello" None (Some false) 3).
Proof.
  destruct (completion_of_a_turn onboardedWorld "Hi" [] sampleEnv "s1" newChatSession
              streamingWorld [Chunk sampleTurn "He"; Chunk sampleTurn "llo"] helloWorld)
    as (w3 & _ & Hap & Hgen & _ & _ & Hheap & _).
  - exact onboardedWorld_reachable.
  - reflexivity.
  - reflexivity.
  - reflexivity.
  - vm_compute. reflexivity.
  - vm_compute. reflexivity.
  - repeat constructor.
  - vm_compute. reflexivity.
  - exists w3. split; [exact Hap |]. split; [exact Hgen | exact Hheap].
Defined.

Lemma failure_of_a_turn_witness :
  ∃ w3, apply (Fail sampleTurn (Some "quota exceeded")) streamingWorld = Some w3 ∧
        isGenerating (app w3) = false ∧
        error (app w3) = Some "quota exceeded" ∧
        heap (app w3) !! 1 =
          Some (Message.mk "a1" MODEL
                  "Sorry, I encountered an error processing your request."
                  None (Some false) 3).
Proof.
  destruct (failure_of_a_turn onboardedWorld "Hi" [] sampleEnv "s1" newChatSession
              streamingWorld [] streamingWorld (Some "quota exceeded"))
    as (w3 & _ & Hap & Hgen & Herr & _ & Hheap & _).
  - exact onboardedWorld_reachable.
  - reflexivity.
  - reflexivity.
  - reflexivity.
  - vm_compute. reflexivity.
  - vm_compute. reflexivity.
  - constructor.
  - reflexivity.
  - exists w3. split; [exact Hap |]. split; [exact Hgen |]. split; [exact Herr | exact Hheap].
Defined.

(** Against C3 as stated: [onComplete] tests no id.  In a state the
    interface reaches, with two turns in flight on ["s2"], the completion
    of the first of them clears the flag and sets [isStreaming] to [false]
    on the placeholder of the other turn; its own placeholder ["a2"] is
    left streaming. *)
Lemma completion_with_overlapping_turns :
  ∃ w w3,
    run ui_offered crossedRun initialWorld = Some w ∧
    inflight w = [suggestionTurn; followUpTurn] ∧
    apply (Complete suggestionTurn) w = Some w3 ∧
    isGenerating (app w3) = false ∧
    heap (app w3) !! 3 = Some (Message.mk "a2" MODEL "" None (Some true) 6) ∧
    heap (app w3) !! 5 = Some (Message.mk "a3" MODEL "" None (Some false) 10) ∧
    inflight w3 = [followUpTurn].
Proof.
  eexists _, _. split; [vm_compute; reflexivity |].
  split; [reflexivity |]. split; [vm_compute; reflexivity |].
  repeat split.
Qed.

(** Against C4 as stated: [onError] tests no id either.  In the same
    state the failure of the first turn leaves its placeholder ["a2"]
    empty and streaming, and writes the apology to the placeholder of the
    other turn. *)
Lemma failure_with_overlapping_turns :
  ∃ w w3,
    run ui_offered crossedRun initialWorld = Some w ∧
    inflight w = [suggestionTurn; followUpTurn] ∧
    apply (Fail suggestionTurn (Some "quota exceeded")) w = Some w3 ∧
    error (app w3) = Some "quota exceeded" ∧
    heap (app w3) !! 3 = Some (Message.mk "a2" MODEL "" None (Some true) 6) ∧
    heap (app w3) !! 5 = Some (Message.mk "a3" MODEL APOLOGY None (Some false) 10) ∧
    inflight w3 = [followUpTurn].
Proof.
  eexists _, _. split; [vm_compute; reflexivity |].
  split; [reflexivity |]. split; [vm_compute; reflexivity |].
  repeat split.
Qed.

(** ** One streaming message per session *)

Lemma filter_only_last {A} (P : A → Prop) `{!∀ x, Decision (P x)} (l : list A) :
  (∀ i x, l !! i = Some x → P x → S i = length l) → (length (filter P l) ≤ 1)%nat.
Proof.
  induction l as [| x l IH]; intros Hlast; [simpl; lia |].
  destruct l as [| y l].
  - etrans; [apply length_filter |]. simpl. lia.
  - rewrite filter_cons_False.
    + apply IH. intros i z Hi Hz. specialize (Hlast (S i) z Hi Hz). simpl in *. lia.
    + intros Hx. specialize (Hlast 0 x eq_refl Hx). simpl in Hlast. lia.
Qed.

Lemma filter_none {A} (P : A → Prop) `{!∀ x, Decision (P x)} (l : list A) :
  (∀ x, x ∈ l → ¬ P x) → filter P l = [].
Proof.
  induction l as [| x l IH]; intros Hno; [done |].
  rewrite filter_cons_False by (apply Hno; left).
  apply IH. intros z Hz. apply Hno. by right.
Qed.

Lemma count_streaming_le_1 h ss fl k s :
  InvC h ss fl → ss !! k = Some s → (count_streaming h (ChatSession.messages s) ≤ 1)%nat.
Proof.
  intros HI Hs. unfold count_streaming. apply filter_only_last.
  intros i r Hi Hst. by destruct (inv_streaming _ _ _ HI k s i r Hs Hi Hst).
Qed.

Lemma count_streaming_idle h ss fl k s :
  InvC h ss fl → ss !! k = Some s → (∀ t, t ∈ fl → captured t ≠ k) →
  count_streaming h (ChatSession.messages s) = 0.
Proof.
  intros HI Hs Hfl. unfold count_streaming. rewrite filter_none; [done |].
  intros r [i Hi]%list_elem_of_lookup_1 Hst.
  destruct (inv_streaming _ _ _ HI k s i r Hs Hi Hst) as [_ (t & Hin & Hc)].
  by apply (Hfl t).
Qed.

Lemma count_streaming_in_flight h ss fl t s :
  InvC h ss fl → t ∈ fl → ss !! captured t = Some s →
  count_streaming h (ChatSession.messages s) = 1.
Proof.
  intros HI Hin Hs. pose proof (count_streaming_le_1 _ _ _ _ _ HI Hs) as Hle.
  destruct (inv_turn _ _ _ HI t s Hin Hs) as (r & m & Hl & Hh & _ & _ & Hst).
  assert (Hr : r ∈ filter (λ r, is_streaming h r = true) (ChatSession.messages s)).
  { apply list_elem_of_filter. split; [| by eapply last_elem_elem_of].
    by eapply is_streaming_Some_true. }
  unfold count_streaming in *.
  destruct (filter _ (ChatSession.messages s)); [by apply elem_of_nil in Hr |].
  simpl in *. lia.
Qed.

Lemma remove_turn_target fl t t' :
  NoDup (captured <$> fl) → t ∈ fl → t' ∈ remove_turn t fl → captured t' ≠ captured t.
Proof.
  intros Hnd Hin [Hin' Hne]%elem_of_remove_turn Heq.
  apply Hne. by apply (NoDup_captured_inj fl).
Qed.

(** C2.  In every state reachable under the one-turn-per-session
    precondition, a session has at most one message with
    [isStreaming = true].  A send on the session leaves exactly one (the
    placeholder), and the completion or the failure of the session's turn
    leaves none. *)
Theorem at_most_one_streaming w k s :
  reachable w → sessions (state (app w)) !! k = Some s →
  (count_streaming (heap (app w)) (ChatSession.messages s) ≤ 1)%nat ∧
  (∀ text attachments env w' s',
     currentSessionId (state (app w)) = Some k → truthy k = true →
     enabled (Send text attachments env) w = true →
     apply (Send text attachments env) w = Some w' →
     sessions (state (app w')) !! k = Some s' →
     count_streaming (heap (app w)) (ChatSession.messages s) = 0 ∧
     count_streaming (heap (app w')) (ChatSession.messages s') = 1) ∧
  (∀ t ev w' s',
     t ∈ inflight w → captured t = k →
     ev = Complete t ∨ (∃ message, ev = Fail t message) →
     apply ev w = Some w' →
     sessions (state (app w')) !! k = Some s' →
     count_streaming (heap (app w')) (ChatSession.messages s') = 0).
Proof.
  intros Hreach Hs. pose proof (reachable_Inv _ Hreach) as HI.
  split; [by eapply count_streaming_le_1 |]. split.
  - intros text attachments env w' s' Hcur Htr Hen Hap Hs'.
    destruct (Inv_step _ _ HI Hen) as (w1 & Hap1 & HI').
    assert (w1 = w') as -> by congruence.
    apply andb_true_iff in Hen as [_ Hidle].
    split.
    + eapply count_streaming_idle; eauto using idle_target_spec.
    + simpl in Hap.
      rewrite (handleSendMessage_resolved _ _ _ _ k s) in Hap by eauto using inv_keys.
      injection Hap as <-.
      eapply (count_streaming_in_flight _ _ _
                (mkTurn k (aiId env) _ _ text attachments)); [exact HI' | | exact Hs'].
      simpl. apply elem_of_app. right. by apply list_elem_of_singleton.
  - intros t ev w' s' Hin Hk Hev Hap Hs'.
    assert (Hen : enabled ev w = true).
    { destruct Hev as [-> | [message ->]]; by apply bool_decide_eq_true. }
    destruct (Inv_step _ _ HI Hen) as (w1 & Hap1 & HI').
    assert (w1 = w') as -> by congruence.
    assert (Hfl : inflight w' = remove_turn t (inflight w)).
    { destruct Hev as [-> | [message ->]]; simpl in Hap.
      - destruct (onComplete t (app w)); [| done]. by injection Hap as <-.
      - destruct (onError t message (app w)); [| done]. by injection Hap as <-. }
    eapply count_streaming_idle; [exact HI' | exact Hs' |].
    rewrite Hfl. intros t' Hin'. rewrite <- Hk.
    apply (remove_turn_target (inflight w)); [by eapply inv_nodup | done | done].
Qed.

Lemma at_most_one_streaming_witness :
  (count_streaming (heap streamingApp) [0; 1] ≤ 1)%nat.
Proof.
  refine (proj1 (at_most_one_streaming streamingWorld "s1"
                   (ChatSession.mk "s1" "Hi" [0; 1] 2) _ _)).
  - exact streamingWorld_reachable.
  - reflexivity.
Defined.

(** ** Titles *)

Lemma substring_prefix (n : nat) (text : string) :
  String.length (String.substring 0 n text) = n `min` String.length text ∧
  ∃ rest, text = String.substring 0 n text +:+ rest.
Proof.
  revert text. induction n as [| n IH]; intros text.
  - destruct text; simpl; (split; [done |]); eexists; reflexivity.
  - destruct text as [| c text]; simpl.
    + split; [done |]. by exists "".
    + destruct (IH text) as [Hlen [rest Hrest]]. split; [by rewrite Hlen |].
      exists rest. by rewrite append_cons, <- Hrest.
Qed.

Lemma substring_all (n : nat) (text : string) :
  String.length text ≤ n → String.substring 0 n text = text.
Proof.
  revert text. induction n as [| n IH]; intros text Hle.
  - destruct text; simpl in *; [done | lia].
  - destruct text as [| c text]; simpl in *; [done |]. rewrite IH; [done | lia].
Qed.

Lemma firstTitle_spec (text : string) :
  firstTitle text =
  if (30 <? String.length text)%nat then slice text 0 30 +:+ "..." else text.
Proof.
  unfold firstTitle. destruct (30 <? String.length text)%nat eqn:Hlen; [done |].
  apply Nat.ltb_ge in Hlen. unfold slice.
  by rewrite substring_all, append_nil_r by (simpl; lia).
Qed.

Lemma callback_keeps_state w t (u : Updater) a0 a' :
  Safe w → last_only u → state a0 = state (app w) →
  updating t u a0 = Some a' → state a' = state (app w).
Proof.
  intros HI Hu Hst Hup.
  destruct (updating_frame t u a0 a' Hu) as (Hst' & _); [| done | congruence].
  rewrite Hst. eauto using j_keys.
Qed.

Lemma step_title w ev w' k s :
  Safe w → offered ev w = true → apply ev w = Some w' →
  sessions (state (app w)) !! k = Some s →
  ∃ s', sessions (state (app w')) !! k = Some s' ∧
        ((ChatSession.title s' = ChatSession.title s ∧
          (ChatSession.messages s ≠ [] → ChatSession.messages s' ≠ [])) ∨
         (ChatSession.messages s = [] ∧ ChatSession.messages s' ≠ [])).
Proof.
  intros HI Hen Hap Hs.
  assert (Hkeep : ∀ st, sessions st = sessions (state (app w)) →
            ∃ s', sessions st !! k = Some s' ∧
              ((ChatSession.title s' = ChatSession.title s ∧
                (ChatSession.messages s ≠ [] → ChatSession.messages s' ≠ [])) ∨
               (ChatSession.messages s = [] ∧ ChatSession.messages s' ≠ []))).
  { intros st ->. exists s. split; [done |]. by left. }
  assert (Hkeep' : ∀ st, st = state (app w) →
            ∃ s', sessions st !! k = Some s' ∧
              ((ChatSession.title s' = ChatSession.title s ∧
                (ChatSession.messages s ≠ [] → ChatSession.messages s' ≠ [])) ∨
               (ChatSession.messages s = [] ∧ ChatSession.messages s' ≠ []))).
  { intros st ->. by apply Hkeep. }
  assert (Hfresh : ∀ newId, fresh newId w = true → newId ≠ k).
  { intros newId [Hnone _]%fresh_spec ->. congruence. }
  destruct ev as [name mail newId now | newId now | id | | md
                 | text attachments env | t c | t | t message]; simpl in *.
  - injection Hap as <-. apply andb_true_iff in Hen as [_ Hf%Hfresh]. simpl.
    pose proof (sessions_handleOnboardingSubmit name mail (state (app w))) as Hss.
    exists s. split; [| by left]. unfold initSessionEffect.
    destruct (user (handleOnboardingSubmit name mail (state (app w)))); [| by rewrite Hss].
    destruct (currentSessionId (handleOnboardingSubmit name mail (state (app w)))) as [sid |].
    + destruct (truthy sid); [by rewrite Hss |]. simpl. rewrite Hss.
      by rewrite lookup_insert_ne.
    + simpl. rewrite Hss. by rewrite lookup_insert_ne.
  - injection Hap as <-. apply andb_true_iff in Hen as [_ Hf%Hfresh]. simpl.
    exists s. split; [| by left]. by rewrite lookup_insert_ne.
  - injection Hap as <-. by apply Hkeep.
  - injection Hap as <-. by apply Hkeep.
  - injection Hap as <-. by apply Hkeep.
  - destruct (currentSessionId (state (app w))) as [sid |] eqn:Hcur.
    2:{ rewrite handleSendMessage_inactive in Hap by auto. injection Hap as <-.
        by apply Hkeep. }
    destruct (truthy sid) eqn:Ht.
    2:{ rewrite handleSendMessage_inactive in Hap.
        - injection Hap as <-. by apply Hkeep.
        - right. rewrite Hcur. f_equal.
          destruct (decide (sid = "")) as [-> | Hne]; [done |].
          apply truthy_true in Hne. congruence. }
    destruct (sessions (state (app w)) !! sid) as [s0 |] eqn:Hs0.
    + rewrite (handleSendMessage_resolved _ _ _ _ sid s0) in Hap by eauto using j_keys.
      injection Hap as <-. simpl. destruct (decide (sid = k)) as [-> | Hne].
      * rewrite lookup_insert_eq. eexists. split; [done |]. simpl.
        assert (s0 = s) as -> by congruence.
        destruct (ChatSession.messages s) as [| r ms] eqn:Hms; simpl.
        -- right. done.
        -- left. split; [done |]. intros _. by destruct ms.
      * rewrite lookup_insert_ne by done. exists s. split; [done |]. by left.
    + rewrite (handleSendMessage_unresolved _ _ _ _ sid) in Hap by done.
      injection Hap as <-. by apply Hkeep.
  - destruct (onChunk t c (app w)) as [a' |] eqn:Hc; [| done]. injection Hap as <-.
    apply Hkeep'. simpl.
    by eapply (callback_keeps_state w t _ (app w)), Hc; [| apply chunkUpdater_last_only |].
  - destruct (onComplete t (app w)) as [a' |] eqn:Hc; [| done]. injection Hap as <-.
    apply Hkeep'. simpl.
    by eapply (callback_keeps_state w t _ (setIsGenerating false (app w))), Hc;
      [| apply completeUpdater_last_only |].
  - destruct (onError t message (app w)) as [a' |] eqn:Hc; [| done]. injection Hap as <-.
    apply Hkeep'. simpl.
    by eapply (callback_keeps_state w t _
                 (setError (Some (str_or (default "" message) GENERIC_ERROR))
                    (setIsGenerating false (app w)))), Hc;
      [| apply errorUpdater_last_only |].
Qed.

Lemma title_changes_bound evs w w' k s :
  Safe w → sessions (state (app w)) !! k = Some s →
  run offered evs w = Some w' →
  (title_changes k evs w ≤ if decide (ChatSession.messages s = []) then 1 else 0)%nat.
Proof.
  revert w s. induction evs as [| ev evs IH]; intros w s HI Hs Hrun.
  - simpl. lia.
  - simpl in *. destruct (offered ev w) eqn:Hen; [| done].
    destruct (apply ev w) as [w1 |] eqn:Hap; [| done].
    destruct (Safe_step w ev HI Hen) as (w1' & Hap' & HI1).
    assert (w1' = w1) as -> by congruence.
    destruct (step_title w ev w1 k s HI Hen Hap Hs) as (s1 & Hs1 & Hcase).
    specialize (IH w1 s1 HI1 Hs1 Hrun).
    assert (Ht1 : title_of k w1 = Some (ChatSession.title s1)).
    { unfold title_of. by rewrite Hs1. }
    assert (Ht0 : title_of k w = Some (ChatSession.title s)).
    { unfold title_of. by rewrite Hs. }
    destruct Hcase as [[Htitle Hmsgs] | [Hempty Hne]].
    + rewrite bool_decide_eq_true_2 by congruence. simpl.
      destruct (decide (ChatSession.messages s = [])), (decide (ChatSession.messages s1 = []));
        try lia. by destruct Hmsgs.
    + rewrite decide_True by done. rewrite decide_False in IH by done.
      case_bool_decide; lia.
Qed.

(** C5.  In any reachable state (turns may even overlap), a send of
    [text] on a current session whose [messages] is empty sets the title
    to the first 30 characters of [text] followed by ["..."] when [text]
    is longer than 30, and to [text] itself otherwise; a send on a session
    with messages keeps the title.  Along any run the title of an existing
    session changes at most once. *)
Theorem title_written_once w k s :
  reachable_any w → sessions (state (app w)) !! k = Some s →
  (∀ text attachments env,
     currentSessionId (state (app w)) = Some k → truthy k = true →
     ∃ w' s',
       apply (Send text attachments env) w = Some w' ∧
       sessions (state (app w')) !! k = Some s' ∧
       ChatSession.title s' =
         match ChatSession.messages s with
         | [] => if 30 <? String.length text then slice text 0 30 +:+ "..." else text
         | _ :: _ => ChatSession.title s
         end) ∧
  (∀ text, 30 < String.length text →
     String.length (slice text 0 30) = 30 ∧ ∃ rest, text = slice text 0 30 +:+ rest) ∧
  (∀ evs w', run offered evs w = Some w' → title_changes k evs w ≤ 1).
Proof.
  intros Hreach Hs. pose proof (reachable_any_Safe _ Hreach) as HI.
  split; [| split].
  - intros text attachments env Hcur Htr. simpl.
    rewrite (handleSendMessage_resolved _ _ _ _ k s) by eauto using j_keys.
    eexists _, _. split; [done |]. simpl. rewrite lookup_insert_eq.
    split; [done |]. simpl. destruct (ChatSession.messages s); simpl; [| done].
    apply firstTitle_spec.
  - intros text Hlen. unfold slice.
    destruct (substring_prefix (30 - 0) text) as [Hl Hrest]. split; [| exact Hrest].
    rewrite Hl. lia.
  - intros evs w' Hrun.
    pose proof (title_changes_bound evs w w' k s HI Hs Hrun) as Hb.
    destruct (decide (ChatSession.messages s = [])); lia.
Qed.

Lemma title_written_once_witness :
  title_changes "s1"
    [Send "Hi" [] sampleEnv; Chunk sampleTurn "He"; Chunk sampleTurn "llo";
     Complete sampleTurn; Send "again" [] (mkSendEnv "u2" 4 5 "a2" 6)]
    onboardedWorld ≤ 1.
Proof.
  refine (proj2 (proj2 (title_written_once onboardedWorld "s1" newChatSession _ _)) _
            (default initialWorld
               (run offered
                  [Send "Hi" [] sampleEnv; Chunk sampleTurn "He"; Chunk sampleTurn "llo";
                   Complete sampleTurn; Send "again" [] (mkSendEnv "u2" 4 5 "a2" 6)]
                  onboardedWorld)) _).
  - exact onboardedWorld_reachable_any.
  - reflexivity.
  - vm_compute. reflexivity.
Defined.

(** ** Selecting a session *)

Lemma reachable_known_reachable w : reachable_by offered_known w → reachable_any w.
Proof.
  apply reachable_by_weaken. unfold offered_known. intros ev w0 H.
  by apply andb_true_iff in H as [H _].
Qed.

Lemma step_current_known w ev w' :
  Safe w → current_known (state (app w)) →
  offered_known ev w = true → apply ev w = Some w' →
  current_known (state (app w')).
Proof.
  intros HI Hck Hen Hap. apply andb_true_iff in Hen as [Hen Hknown].
  destruct ev as [name mail newId now | newId now | id | | md
                 | text attachments env | t c | t | t message]; simpl in *.
  - injection Hap as <-. simpl.
    assert (Hck1 : current_known (handleOnboardingSubmit name mail (state (app w)))).
    { unfold handleOnboardingSubmit. by destruct (truthy name && truthy mail). }
    unfold initSessionEffect.
    destruct (user (handleOnboardingSubmit name mail (state (app w)))); [| done].
    destruct (currentSessionId (handleOnboardingSubmit name mail (state (app w)))) as [sid |].
    + destruct (truthy sid); [done |]. intros cur [= <-]. simpl.
      rewrite lookup_insert_eq. by eexists.
    + intros cur [= <-]. simpl. rewrite lookup_insert_eq. by eexists.
  - injection Hap as <-. intros cur [= <-]. simpl. rewrite lookup_insert_eq. by eexists.
  - injection Hap as <-. intros cur [= <-]. simpl.
    apply bool_decide_eq_true in Hknown. by apply elem_of_dom.
  - by injection Hap as <-.
  - by injection Hap as <-.
  - destruct (currentSessionId (state (app w))) as [sid |] eqn:Hcur.
    2:{ rewrite handleSendMessage_inactive in Hap by auto. injection Hap as <-.
        intros cur. simpl. by rewrite Hcur. }
    destruct (truthy sid) eqn:Ht.
    2:{ rewrite handleSendMessage_inactive in Hap.
        - injection Hap as <-. simpl. intros cur Hc. apply Hck. congruence.
        - right. rewrite Hcur. f_equal.
          destruct (decide (sid = "")) as [-> | Hne]; [done |].
          apply truthy_true in Hne. congruence. }
    destruct (sessions (state (app w)) !! sid) as [s0 |] eqn:Hs0.
    + rewrite (handleSendMessage_resolved _ _ _ _ sid s0) in Hap by eauto using j_keys.
      injection Hap as <-. intros cur [= <-]. simpl. rewrite lookup_insert_eq. by eexists.
    + rewrite (handleSendMessage_unresolved _ _ _ _ sid) in Hap by done.
      injection Hap as <-. simpl. intros cur Hc. apply Hck. congruence.
  - destruct (onChunk t c (app w)) as [a' |] eqn:Hc; [| done]. injection Hap as <-.
    simpl. erewrite (callback_keeps_state w t _ (app w)); eauto using chunkUpdater_last_only.
  - destruct (onComplete t (app w)) as [a' |] eqn:Hc; [| done]. injection Hap as <-.
    simpl. erewrite (callback_keeps_state w t _ (setIsGenerating false (app w)));
      eauto using completeUpdater_last_only.
  - destruct (onError t message (app w)) as [a' |] eqn:Hc; [| done]. injection Hap as <-.
    simpl.
    erewrite (callback_keeps_state w t _
                (setError (Some (str_or (default "" message) GENERIC_ERROR))
                   (setIsGenerating false (app w))));
      eauto using errorUpdater_last_only.
Qed.

(** C6 (as the code has it).  [selectSession id] sets the current session
    id to [id] whether or not [id] keys a session, and changes nothing
    else.  In every state reached by runs in which sessions are selected
    among the existing ones, [currentSessionId], when set, keys an entry of
    [sessions]; selecting an existing session keeps that. *)
Theorem selection_sets_current w id :
  reachable_by offered_known w →
  currentSessionId (selectSession id (state (app w))) = Some id ∧
  sessions (selectSession id (state (app w))) = sessions (state (app w)) ∧
  user (selectSession id (state (app w))) = user (state (app w)) ∧
  selectedModel (selectSession id (state (app w))) = selectedModel (state (app w)) ∧
  sidebarOpen (selectSession id (state (app w))) = sidebarOpen (state (app w)) ∧
  current_known (state (app w)) ∧
  (is_Some (sessions (state (app w)) !! id) →
   current_known (selectSession id (state (app w)))).
Proof.
  intros Hreach. do 5 (split; [done |]). split.
  - induction Hreach as [| w ev w' Hreach IH Hen Hap]; [done |].
    eapply step_current_known; eauto using reachable_any_Safe, reachable_known_reachable.
  - intros Hsome cur [= <-]. done.
Qed.

Lemma selection_sets_current_witness :
  current_known (state (app onboardedWorld)) ∧
  currentSessionId (selectSession "ghost" (state (app onboardedWorld))) = Some "ghost".
Proof.
  assert (Hreach : reachable_by offered_known onboardedWorld).
  { apply (run_reachable_by offered_known
             [Onboard "Ann" "ann@example.org" "s1" 0] initialWorld).
    - constructor.
    - vm_compute. reflexivity. }
  destruct (selection_sets_current onboardedWorld "ghost" Hreach)
    as (Hcur & _ & _ & _ & _ & Hknown & _).
  split; [exact Hknown | exact Hcur].
Defined.

(** Against C6 as stated: selecting an id that keys no session is not a
    no-op, and it leads to a reachable state whose current id keys no
    session. *)
Lemma select_unknown_session_changes_state :
  sessions (state (app onboardedWorld)) !! "ghost" = None ∧
  selectSession "ghost" (state (app onboardedWorld)) ≠ state (app onboardedWorld) ∧
  ∃ w, reachable w ∧ ¬ current_known (state (app w)).
Proof.
  split; [reflexivity |]. split.
  - intros H. apply (f_equal currentSessionId) in H. discriminate H.
  - exists (on_state (selectSession "ghost") onboardedWorld). split.
    + apply (reach_step enabled onboardedWorld (SelectSession "ghost")).
      * exact onboardedWorld_reachable.
      * vm_compute. reflexivity.
      * reflexivity.
    + intros Hck. destruct (Hck "ghost" eq_refl) as [s Hs]. discriminate Hs.
Qed.

(** ** Sends *)

Lemma updateCurrentSession_total cur (u : Updater) h prev :
  (∀ h0 s0, is_Some (u h0 s0)) → is_Some (updateCurrentSession cur u h prev).
Proof.
  intros Hu. unfold updateCurrentSession. destruct cur as [sid |]; [| by eexists].
  destruct (truthy sid); [| by eexists].
  destruct (sessions prev !! sid) as [s |]; [| by eexists].
  destruct (Hu h s) as [[h' s'] ->]. by eexists.
Qed.

(** C7 (as the code has it).  [handleSendMessage] looks at neither [text]
    nor [attachments]: whatever they are, a send is ignored (no invocation
    of the generation capability, component state unchanged) exactly when
    no session is current, that is when [currentSessionId] is [null] or
    empty; otherwise it invokes the capability, raises the generating flag
    and clears the error banner. *)
Theorem send_ignored_without_session text attachments env a :
  ∃ a' ot,
    handleSendMessage text attachments env a = Some (a', ot) ∧
    (ot = None ↔
     currentSessionId (state a) = None ∨ currentSessionId (state a) = Some "") ∧
    (ot = None → a' = a) ∧
    (ot ≠ None → isGenerating a' = true ∧ error a' = None).
Proof.
  destruct (currentSessionId (state a)) as [sid |] eqn:Hcur.
  2:{ exists a, None. rewrite handleSendMessage_inactive by auto. split; [done |].
      split; [split; auto |]. split; [done |]. intros H. by destruct H. }
  destruct (truthy sid) eqn:Htr.
  2:{ assert (sid = "") as ->.
      { destruct (decide (sid = "")) as [-> | Hne]; [done |].
        apply truthy_true in Hne. congruence. }
      exists a, None. rewrite handleSendMessage_inactive by auto. split; [done |].
      split; [split; auto |]. split; [done |]. intros H. by destruct H. }
  unfold handleSendMessage. rewrite Hcur, Htr. simpl.
  destruct (updateCurrentSession_total (Some sid)
              (addUserMessage text (length (heap a)) (updatedStamp env))
              (heap a ++ [userMessage text attachments env]) (state a))
    as [[h2 st2] ->]; [by eexists |].
  destruct (updateCurrentSession_total (Some sid)
              (addPlaceholder (length h2)) (h2 ++ [aiPlaceholder env]) st2)
    as [[h4 st4] ->]; [by eexists |].
  eexists _, _. split; [done |]. split; [| done].
  split; [done |]. intros [[=] | [= ->]]. done.
Qed.

(** Against C7 as stated: a send with empty text and no attachments on an
    active session appends both messages and invokes the capability. *)
Lemma empty_send_is_processed :
  handleSendMessage "" [] sampleEnv (app onboardedWorld) =
  Some (mkApp [userMessage "" [] sampleEnv; aiPlaceholder sampleEnv]
              (mkAppState (Some sampleUser) (Some "s1")
                 {["s1" := ChatSession.mk "s1" "" [0; 1] 2]} FLASH false)
              true None,
        Some (mkTurn "s1" "a1" FLASH [0] "" [])) ∧
  handleSendMessage "" [] sampleEnv (app onboardedWorld) ≠ Some (app onboardedWorld, None).
Proof.
  assert (H : handleSendMessage "" [] sampleEnv (app onboardedWorld) =
              Some (mkApp [userMessage "" [] sampleEnv; aiPlaceholder sampleEnv]
                      (mkAppState (Some sampleUser) (Some "s1")
                         {["s1" := ChatSession.mk "s1" "" [0; 1] 2]} FLASH false)
                      true None,
                    Some (mkTurn "s1" "a1" FLASH [0] "" []))).
  { vm_compute. reflexivity. }
  split; [exact H |]. rewrite H. discriminate.
Qed.

Lemma flush_app (qs1 qs2 : list Update) (a : App) :
  flush (qs1 ++ qs2) a = flush qs1 a ≫= flush qs2.
Proof.
  revert a. induction qs1 as [| q qs1 IH]; intros a; simpl; [done |].
  destruct (run_update q a) as [a' |]; [apply IH | done].
Qed.

(** The state a send gives is the state at the call of the capability
    with the queued updates applied. *)
Lemma handleSendMessage_steps_flush text attachments env a :
  handleSendMessage text attachments env a =
  match handleSendMessage_steps text attachments env a with
  | None => Some (a, None)
  | Some c => (λ a', (a', Some (invocation c))) <$> flush (queue c) (atCall c)
  end.
Proof.
  unfold handleSendMessage, handleSendMessage_steps.
  destruct (currentSessionId (state a)) as [sid |]; [| done].
  destruct (truthy sid) eqn:Htr; [| done]. simpl.
  unfold updateCurrentSession. rewrite ?Htr. simpl.
  destruct (sessions (state a) !! sid) as [s |] eqn:Hs; simpl; rewrite ?Htr, ?Hs; simpl.
  - clear Hs. by destruct (_ !! sid).
  - done.
Qed.

(** C9 (as the code has it).  In any reachable state (turns may even
    overlap), a send on a current session that resolves appends exactly
    two entries to its [messages], in this order: the user message (role
    [USER], the text and attachments sent) and the placeholder (role
    [MODEL], empty text, [isStreaming = true]).  Both are in place in the
    state in which the invocation of the generation capability is in
    flight; the other sessions and the existing message objects are as
    before, and the history handed to the capability ends with the user
    message and leaves the placeholder out.  The two appends are not made
    before the capability is invoked: at the call they are queued, after
    the updates of the banner and of the flag, and the state is the one
    before the send; the next render applies them, in this order and ahead
    of whatever is queued after the call. *)
Theorem send_appends_two w text attachments env sid s :
  reachable_any w →
  currentSessionId (state (app w)) = Some sid → truthy sid = true →
  sessions (state (app w)) !! sid = Some s →
  ∃ w' s',
    apply (Send text attachments env) w = Some w' ∧
    sessions (state (app w')) !! sid = Some s' ∧
    ChatSession.messages s' =
      ChatSession.messages s ++ [length (heap (app w)); placeholderRef (app w)] ∧
    length (ChatSession.messages s') = length (ChatSession.messages s) + 2 ∧
    heap (app w') !! length (heap (app w)) =
      Some (Message.mk (userMsgId env) USER text (Some attachments) None (userStamp env)) ∧
    heap (app w') !! placeholderRef (app w) =
      Some (Message.mk (aiId env) MODEL "" None (Some true) (aiStamp env)) ∧
    length (heap (app w')) = length (heap (app w)) + 2 ∧
    (∀ k, k ≠ sid → sessions (state (app w')) !! k = sessions (state (app w)) !! k) ∧
    (∀ r, r < length (heap (app w)) → heap (app w') !! r = heap (app w) !! r) ∧
    inflight w' = inflight w ++ [sentTurn text attachments env (app w) s] ∧
    historyArg (sentTurn text attachments env (app w) s) =
      ChatSession.messages s ++ [length (heap (app w))] ∧
    ∃ c,
      handleSendMessage_steps text attachments env (app w) = Some c ∧
      invocation c = sentTurn text attachments env (app w) s ∧
      state (atCall c) = state (app w) ∧
      isGenerating (atCall c) = isGenerating (app w) ∧
      error (atCall c) = error (app w) ∧
      queue c =
        [QError None; QGenerating true;
         QSession (Some sid)
           (addUserMessage text (length (heap (app w))) (updatedStamp env));
         QSession (Some sid) (addPlaceholder (placeholderRef (app w)))] ∧
      flush (queue c) (atCall c) = Some (app w') ∧
      ∀ qs, flush (queue c ++ qs) (atCall c) = flush qs (app w').
Proof.
  intros Hreach Hcur Htr Hs. pose proof (reachable_any_Safe _ Hreach) as HI.
  pose proof (j_keys _ _ _ HI _ _ Hs) as Hid. simpl.
  pose proof (handleSendMessage_steps_flush text attachments env (app w)) as Hsteps.
  rewrite (handleSendMessage_resolved _ _ _ _ sid s) in Hsteps |- * by done.
  eexists _, _. split; [done |]. simpl. rewrite lookup_insert_eq.
  split; [done |]. simpl. split; [done |].
  split; [rewrite length_app; simpl; lia |].
  split; [by rewrite lookup_app_r, Nat.sub_diag by lia |].
  split.
  { unfold placeholderRef. rewrite lookup_app_r by lia.
    by replace (S (length (heap (app w))) - length (heap (app w))) with 1 by lia. }
  split; [rewrite length_app; simpl; lia |].
  split; [intros k Hne; by rewrite lookup_insert_ne |].
  split; [intros r Hr; by rewrite lookup_app_l |].
  split; [unfold sentTurn; by rewrite Hid |]. split; [done |].
  destruct (handleSendMessage_steps text attachments env (app w)) as [c |] eqn:Hc.
  2:{ unfold handleSendMessage_steps in Hc. by rewrite Hcur, Htr in Hc. }
  destruct (flush (queue c) (atCall c)) as [a' |] eqn:Hfl; [| done].
  injection Hsteps as <- Hinv.
  exists c. split; [done |].
  unfold handleSendMessage_steps in Hc. rewrite Hcur, Htr in Hc. simpl in Hc.
  rewrite Hs in Hc. injection Hc as <-.
  split; [simpl; unfold sentTurn; by rewrite Hid |]. do 3 (split; [done |]).
  split.
  { simpl. unfold placeholderRef. rewrite length_app. simpl.
    by replace (length (heap (app w)) + 1) with (S (length (heap (app w)))) by lia. }
  split; [exact Hfl |]. intros qs. by rewrite flush_app, Hfl.
Qed.

(** Against C9 as stated: when [generateResponseStream] is called for the
    send of ["Hi"] on the new session, the session shows no message yet
    and the flag is not raised; the two appends are in the queue, which
    the next render applies. *)
Lemma capability_called_before_the_appends :
  ∃ c,
    handleSendMessage_steps "Hi" [] sampleEnv (app onboardedWorld) = Some c ∧
    invocation c = sampleTurn ∧
    sessions (state (atCall c)) !! "s1" = Some newChatSession ∧
    currentMessages (state (atCall c)) = [] ∧
    isGenerating (atCall c) = false ∧
    flush (queue c) (atCall c) = Some streamingApp ∧
    currentMessages (state streamingApp) = [0; 1].
Proof.
  eexists. split; [vm_compute; reflexivity |]. repeat split.
Qed.

Lemma send_appends_two_witness :
  ∃ w' s',
    apply (Send "Hi" [] sampleEnv) onboardedWorld = Some w' ∧
    sessions (state (app w')) !! "s1" = Some s' ∧
    ChatSession.messages s' = [0; 1].
Proof.
  destruct (send_appends_two onboardedWorld "Hi" [] sampleEnv "s1" newChatSession)
    as (w' & s' & Hap & Hs & Hms & _).
  - exact onboardedWorld_reachable_any.
  - reflexivity.
  - reflexivity.
  - reflexivity.
  - exists w', s'. split; [exact Hap |]. split; [exact Hs | exact Hms].
Defined.

(** ** The store update and what it leaves alone *)

(** Whatever the updater, [updateCurrentSession] rewrites at most one entry
    of the mapping and no other field of the state. *)
Lemma updateCurrentSession_frame cur (u : Updater) h prev h' st' :
  updateCurrentSession cur u h prev = Some (h', st') →
  user st' = user prev ∧ currentSessionId st' = currentSessionId prev ∧
  selectedModel st' = selectedModel prev ∧ sidebarOpen st' = sidebarOpen prev ∧
  ((h' = h ∧ st' = prev) ∨
   ∃ sid session updatedSession,
     cur = Some sid ∧ sessions prev !! sid = Some session ∧
     u h session = Some (h', updatedSession) ∧
     sessions st' = <[ChatSession.id session := updatedSession]> (sessions prev)).
Proof.
  unfold updateCurrentSession. destruct cur as [sid |].
  2:{ intros [= <- <-]. do 4 (split; [done |]). by left. }
  destruct (truthy sid).
  2:{ intros [= <- <-]. do 4 (split; [done |]). by left. }
  destruct (sessions prev !! sid) as [session |] eqn:Hs.
  2:{ intros [= <- <-]. do 4 (split; [done |]). by left. }
  destruct (u h session) as [[h1 s1] |] eqn:Hu; [| done].
  intros [= <- <-]. simpl. do 4 (split; [done |]). right.
  by exists sid, session, s1.
Qed.

(** C8, the part the code breaks, at a concrete input: a session whose
    last message is the empty placeholder of a turn in flight, and the
    delta ["Hel"].  The update returns a state equal to the previous one
    (same arrays of addresses), yet what the previous session value shows
    has changed: its last [Message] object now reads ["Hel"], because the
    updater of [onChunk] writes to the object the previous array refers
    to. *)
Theorem chunk_writes_to_previous_snapshot :
  ∃ prevSession a',
    sessions (state streamingApp) !! "s1" = Some prevSession ∧
    onChunk sampleTurn "Hel" streamingApp = Some a' ∧
    sessions (state a') !! "s1" = Some prevSession ∧
    deref (heap streamingApp) (ChatSession.messages prevSession) =
      [Some (userMessage "Hi" [] sampleEnv);
       Some (Message.mk "a1" MODEL "" None (Some true) 3)] ∧
    deref (heap a') (ChatSession.messages prevSession) =
      [Some (userMessage "Hi" [] sampleEnv);
       Some (Message.mk "a1" MODEL "Hel" None (Some true) 3)] ∧
    deref (heap a') (ChatSession.messages prevSession) ≠
    deref (heap streamingApp) (ChatSession.messages prevSession).
Proof.
  exists (ChatSession.mk "s1" "Hi" [0; 1] 2).
  eexists. split; [reflexivity |]. split; [vm_compute; reflexivity |].
  split; [reflexivity |]. split; [reflexivity |]. split; [reflexivity |].
  discriminate.
Qed.

(** ** The callbacks never read past the end *)

Lemma updaters_on_nonempty aiMsg chunkText (h : Heap) (s : ChatSession.t) :
  ChatSession.messages s ≠ [] →
  (∀ r, r ∈ ChatSession.messages s → r < length h) →
  is_Some (chunkUpdater aiMsg chunkText h s) ∧
  is_Some (completeUpdater h s) ∧ is_Some (errorUpdater h s).
Proof.
  intros Hne Hvalid. destruct (last_elem_is_Some _ Hne) as [r Hr].
  destruct (lookup_lt_is_Some_2 h r) as [m Hm].
  { eauto using last_elem_elem_of. }
  unfold chunkUpdater, completeUpdater, errorUpdater. rewrite Hr, Hm.
  repeat split; by eexists.
Qed.

Lemma updaters_on_empty aiMsg chunkText (h : Heap) (s : ChatSession.t) :
  ChatSession.messages s = [] →
  chunkUpdater aiMsg chunkText h s = None ∧
  completeUpdater h s = None ∧ errorUpdater h s = None.
Proof.
  intros Hnil. unfold chunkUpdater, completeUpdater, errorUpdater.
  by rewrite Hnil, last_elem_nil.
Qed.

(** C10.  For every turn in flight in a reachable state (turns may even
    overlap), the session the callbacks target either does not resolve
    (and the store update returns before the updater runs) or has a
    non-empty [messages] whose last entry is a live object, so that
    [onChunk], [onComplete] and [onError] all run to completion; more
    generally every event the environment may raise does.  On a non-empty
    [messages] the three updaters find a last message; only on an empty one
    would they throw. *)
Theorem callbacks_find_last_message w t :
  reachable_any w → t ∈ inflight w →
  (∀ s, sessions (state (app w)) !! captured t = Some s →
        ChatSession.messages s ≠ [] ∧
        ∃ r lastMsg, last_elem (ChatSession.messages s) = Some r ∧
                     heap (app w) !! r = Some lastMsg) ∧
  (∀ chunkText, is_Some (onChunk t chunkText (app w))) ∧
  is_Some (onComplete t (app w)) ∧
  (∀ message, is_Some (onError t message (app w))) ∧
  (∀ ev, offered ev w = true → is_Some (apply ev w)) ∧
  (∀ aiMsg chunkText (h : Heap) s,
     ChatSession.messages s ≠ [] →
     (∀ r, r ∈ ChatSession.messages s → r < length h) →
     is_Some (chunkUpdater aiMsg chunkText h s) ∧
     is_Some (completeUpdater h s) ∧ is_Some (errorUpdater h s)) ∧
  (∀ aiMsg chunkText (h : Heap) s,
     ChatSession.messages s = [] →
     chunkUpdater aiMsg chunkText h s = None ∧
     completeUpdater h s = None ∧ errorUpdater h s = None).
Proof.
  intros Hreach Hin. pose proof (reachable_any_Safe _ Hreach) as HI.
  split; [| split; [| split; [| split; [| split; [| split]]]]].
  - intros s Hs. split; [by eapply (j_turn _ _ _ HI) | by eapply Safe_last].
  - intros c. destruct (Safe_chunk w t c HI Hin) as (a' & -> & _). by eexists.
  - destruct (Safe_complete w t HI Hin) as (a' & -> & _). by eexists.
  - intros message. destruct (Safe_fail w t message HI Hin) as (a' & -> & _). by eexists.
  - intros ev Hen. destruct (Safe_step w ev HI Hen) as (w' & -> & _). by eexists.
  - apply updaters_on_nonempty.
  - apply updaters_on_empty.
Qed.

Lemma callbacks_find_last_message_witness :
  is_Some (onComplete sampleTurn streamingApp) ∧
  is_Some (onChunk sampleTurn "Hel" streamingApp).
Proof.
  destruct (callbacks_find_last_message streamingWorld sampleTurn)
    as (_ & Hchunk & Hcomplete & _).
  - exact streamingWorld_reachable_any.
  - vm_compute. apply list_elem_of_here.
  - split; [exact Hcomplete | exact (Hchunk "Hel")].
Defined.

(** ** Deltas of the turns in flight *)

(** C1.  For every turn in flight whose (stale-captured) target session
    resolves, a delta finds the last message of that session: if its id is
    the placeholder's id the delta is appended to its text and nothing
    else changes; otherwise the whole component state is left as it was.
    Deltas applied in the order received add up to their concatenation:
    ["Hel"] then ["lo"] on an empty placeholder give ["Hello"]. *)
Theorem delta_application w t s :
  reachable_any w → t ∈ inflight w →
  sessions (state (app w)) !! captured t = Some s →
  ∃ r lastMsg,
    last_elem (ChatSession.messages s) = Some r ∧
    heap (app w) !! r = Some lastMsg ∧
    (∀ chunkText, ∃ a',
        onChunk t chunkText (app w) = Some a' ∧
        state a' = state (app w) ∧ isGenerating a' = isGenerating (app w) ∧
        error a' = error (app w) ∧
        (Message.id lastMsg = aiMsgId t →
           heap a' = <[r := Message.with_text lastMsg (Message.text lastMsg +:+ chunkText)]>
                       (heap (app w))) ∧
        (Message.id lastMsg ≠ aiMsgId t → a' = app w)) ∧
    (∀ chunks, Message.id lastMsg = aiMsgId t → ∃ a',
        onChunks t chunks (app w) = Some a' ∧ state a' = state (app w) ∧
        heap a' !! r =
          Some (Message.with_text lastMsg (Message.text lastMsg +:+ joined chunks)) ∧
        (∀ r', r' ≠ r → heap a' !! r' = heap (app w) !! r')) ∧
    (Message.id lastMsg = aiMsgId t → Message.text lastMsg = "" → ∃ a',
        onChunks t ["Hel"; "lo"] (app w) = Some a' ∧
        Message.text <$> heap a' !! r = Some "Hello").
Proof.
  intros Hreach Hin Hs. pose proof (reachable_any_Safe _ Hreach) as HJ.
  destruct (Safe_last w t s HJ Hin Hs) as (r & lastMsg & Hl & Hh).
  exists r, lastMsg. split; [done |]. split; [done |].
  apply (deltas_on_last_message t (app w) s r lastMsg);
    eauto using j_truthy, j_keys.
Qed.

Lemma delta_application_witness :
  ∃ a', onChunks sampleTurn ["Hel"; "lo"] streamingApp = Some a' ∧
        Message.text <$> heap a' !! 1 = Some "Hello".
Proof.
  destruct (delta_application streamingWorld sampleTurn (ChatSession.mk "s1" "Hi" [0; 1] 2))
    as (r & lastMsg & Hl & Hh & _ & _ & Hhello).
  - exact streamingWorld_reachable_any.
  - vm_compute. apply list_elem_of_here.
  - reflexivity.
  - vm_compute in Hl. injection Hl as <-.
    vm_compute in Hh. injection Hh as <-.
    apply Hhello; reflexivity.
Defined.

(** *** Outside the one-turn precondition *)

Example overlapWorld_reachable_any :
  run offered [Send "Hi" [] sampleEnv; Send "more" [] secondEnv] onboardedWorld
  = Some overlapWorld.
Proof. vm_compute. reflexivity. Qed.

(** A delta of the superseded turn is dropped. *)
Example superseded_delta_is_dropped :
  onChunk sampleTurn "Hel" (app overlapWorld) = Some (app overlapWorld).
Proof. vm_compute. reflexivity. Qed.

(** The completion of the superseded turn checks no id: it clears the
    flag of the newer placeholder and leaves its own streaming. *)
Example superseded_completion_hits_the_last_message :
  ∃ a', onComplete sampleTurn (app overlapWorld) = Some a' ∧
        Message.isStreaming <$> heap a' !! 1 = Some (Some true) ∧
        Message.isStreaming <$> heap a' !! 3 = Some (Some false).
Proof. eexists. split; [vm_compute; reflexivity |]. split; reflexivity. Qed.

(** ** The scenarios of the specification *)

(** Create a session, send ["Hi"], receive ["He"] and ["llo"], complete. *)
Example hi_hello_scenario :
  ∃ w, run enabled
         [Onboard "Ann" "ann@example.org" "s1" 0; Send "Hi" [] sampleEnv;
          Chunk sampleTurn "He"; Chunk sampleTurn "llo"; Complete sampleTurn]
         initialWorld = Some w ∧
       sessions (state (app w)) !! "s1" = Some (ChatSession.mk "s1" "Hi" [0; 1] 2) ∧
       heap (app w) =
         [Message.mk "u1" USER "Hi" (Some []) None 1;
          Message.mk "a1" MODEL "Hello" None (Some false) 3] ∧
       isGenerating (app w) = false ∧ inflight w = [].
Proof. eexists. split; [vm_compute; reflexivity |]. repeat split. Qed.

(** A message of 40 characters on a fresh session. *)
Example forty_characters_title :
  firstTitle "0123456789012345678901234567890123456789"
  = "012345678901234567890123456789...".
Proof. reflexivity. Qed.

(** Two sessions with turns in flight: a delta for the first leaves the
    messages of the second alone. *)
Example delta_stays_in_its_session :
  ∃ w w',
    run enabled
      [Onboard "Ann" "ann@example.org" "s1" 0; Send "Hi" [] sampleEnv;
       NewChat "s2" 7; Send "Yo" [] secondEnv] initialWorld = Some w ∧
    apply (Chunk sampleTurn "Hel") w = Some w' ∧
    deref (heap (app w')) [2; 3] = deref (heap (app w)) [2; 3] ∧
    Message.text <$> heap (app w') !! 1 = Some "Hel".
Proof.
  eexists _, _. split; [vm_compute; reflexivity |].
  split; [vm_compute; reflexivity |]. split; reflexivity.
Qed.

(** * Further properties *)

(** ** What one event changes *)

Lemma evolves_refl (m : Message.t) : evolves m m.
Proof.
  repeat split; try done; [| by left]. exists "". by rewrite append_nil_r.
Qed.

Lemma evolves_trans (m1 m2 m3 : Message.t) : evolves m1 m2 → evolves m2 m3 → evolves m1 m3.
Proof.
  intros (Hi & Hr & Ha & Ht & [x Hx] & Hs) (Hi' & Hr' & Ha' & Ht' & [y Hy] & Hs').
  repeat split; try congruence.
  - exists (x +:+ y). by rewrite Hy, Hx, append_assoc.
  - destruct Hs' as [Hs' | Hs']; [| by right]. destruct Hs as [Hs | Hs]; [left | right]; congruence.
Qed.

Lemma evolves_chunk (m : Message.t) (c : string) :
  evolves m (Message.with_text m (Message.text m +:+ c)).
Proof. repeat split; try done; [by exists c | by left]. Qed.

Lemma evolves_complete (m : Message.t) : evolves m (Message.with_isStreaming m false).
Proof.
  repeat split; try done; [| by right]. exists "". simpl. by rewrite append_nil_r.
Qed.

Lemma evolves_error (m : Message.t) :
  evolves m (Message.with_text (Message.with_isStreaming m false)
               (str_or (Message.text m) APOLOGY)).
Proof.
  repeat split; try done; [| by right]. simpl. rewrite str_or_spec.
  destruct (decide (Message.text m = "")) as [-> | Hne].
  - by exists APOLOGY.
  - exists "". by rewrite append_nil_r.
Qed.

Lemma truthy_false (s : string) : truthy s = false → s = "".
Proof.
  intros H. destruct (decide (s = "")) as [-> | Hne]; [done |].
  apply truthy_true in Hne. congruence.
Qed.

Lemma handleSendMessage_not_active text attachments env a :
  active a = false → handleSendMessage text attachments env a = Some (a, None).
Proof.
  unfold active. intros H. apply handleSendMessage_inactive.
  destruct (currentSessionId (state a)) as [sid |]; [| by left].
  right. f_equal. by apply truthy_false.
Qed.

Lemma active_spec a :
  active a = true ↔ ∃ sid, currentSessionId (state a) = Some sid ∧ truthy sid = true.
Proof.
  unfold active. destruct (currentSessionId (state a)) as [sid |].
  - split; [by exists sid | by intros (? & [= <-] & ?)].
  - split; [done | by intros (? & ? & ?)].
Qed.

Lemma sessions_onboard name mail newId now st :
  sessions (initSessionEffect newId now (handleOnboardingSubmit name mail st)) = sessions st ∨
  sessions (initSessionEffect newId now (handleOnboardingSubmit name mail st)) =
    <[newId := ChatSession.mk newId "New Chat" [] now]> (sessions st).
Proof.
  pose proof (sessions_handleOnboardingSubmit name mail st) as Hss.
  unfold initSessionEffect.
  destruct (user (handleOnboardingSubmit name mail st)); [| by left].
  destruct (currentSessionId (handleOnboardingSubmit name mail st)) as [sid |].
  - destruct (truthy sid); [by left |]. right. simpl. by rewrite Hss.
  - right. simpl. by rewrite Hss.
Qed.

(** The shape of every step of a safe world. *)
Lemma step_change w ev w' :
  Safe w → offered ev w = true → apply ev w = Some w' → change ev w w'.
Proof.
  intros HJ Hen Hap.
  destruct ev as [name mail newId now | newId now | id | | md
                 | text attachments env | t c | t | t message]; simpl in *.
  - injection Hap as <-. apply andb_true_iff in Hen as [_ [Hnone Hfl]%fresh_spec].
    destruct (sessions_onboard name mail newId now (state (app w))) as [Hss | Hss].
    + by apply ch_none.
    + by apply (ch_create _ _ _ newId now).
  - injection Hap as <-. apply andb_true_iff in Hen as [_ [Hnone Hfl]%fresh_spec].
    by apply (ch_create _ _ _ newId now).
  - injection Hap as <-. by apply ch_none.
  - injection Hap as <-. by apply ch_none.
  - injection Hap as <-. by apply ch_none.
  - destruct (active (app w)) eqn:Hact.
    2:{ rewrite handleSendMessage_not_active in Hap by done. injection Hap as <-.
        by apply ch_none. }
    apply active_spec in Hact as (sid & Hcur & Htr).
    destruct (sessions (state (app w)) !! sid) as [s |] eqn:Hs.
    + rewrite (handleSendMessage_resolved _ _ _ _ sid s) in Hap by eauto using j_keys.
      injection Hap as <-.
      apply (ch_send _ _ _ text attachments env sid); simpl; try done.
      * by rewrite Hs.
      * by eexists.
    + rewrite (handleSendMessage_unresolved _ _ _ _ sid) in Hap by done.
      injection Hap as <-.
      apply (ch_send _ _ _ text attachments env sid); simpl; try done.
      * by rewrite Hs.
      * by eexists.
  - apply bool_decide_eq_true in Hen.
    destruct (onChunk t c (app w)) as [a' |] eqn:Hc; [| done]. injection Hap as <-.
    destruct (sessions (state (app w)) !! captured t) as [s |] eqn:Hs.
    + destruct (Safe_last w t s HJ Hen Hs) as (r & m & Hl & Hh).
      rewrite (onChunk_resolved t (app w) s r m) in Hc by eauto using j_truthy, j_keys.
      injection Hc as <-.
      destruct (String.eqb (Message.id m) (aiMsgId t)) eqn:Heq.
      * apply (ch_write _ _ _ t s r m (Message.with_text m (Message.text m +:+ c)));
          simpl; try done.
        -- apply evolves_chunk.
        -- intros _. by apply String.eqb_eq.
      * by apply ch_none.
    + unfold onChunk in Hc. rewrite updating_unresolved in Hc by done.
      injection Hc as <-. by apply ch_none.
  - apply bool_decide_eq_true in Hen.
    destruct (onComplete t (app w)) as [a' |] eqn:Hc; [| done]. injection Hap as <-.
    destruct (sessions (state (app w)) !! captured t) as [s |] eqn:Hs.
    + destruct (Safe_last w t s HJ Hen Hs) as (r & m & Hl & Hh).
      rewrite (onComplete_resolved t (app w) s r m) in Hc by eauto using j_truthy, j_keys.
      injection Hc as <-.
      apply (ch_write _ _ _ t s r m (Message.with_isStreaming m false)); simpl; try done.
      * apply evolves_complete.
      * by intros [c [=]].
      * by intros t' [? _]%elem_of_remove_turn.
    + unfold onComplete in Hc. rewrite updating_unresolved in Hc by done.
      injection Hc as <-. apply ch_none; simpl; try done.
      by intros t' [? _]%elem_of_remove_turn.
  - apply bool_decide_eq_true in Hen.
    destruct (onError t message (app w)) as [a' |] eqn:Hc; [| done]. injection Hap as <-.
    destruct (sessions (state (app w)) !! captured t) as [s |] eqn:Hs.
    + destruct (Safe_last w t s HJ Hen Hs) as (r & m & Hl & Hh).
      rewrite (onError_resolved t (app w) s r m) in Hc by eauto using j_truthy, j_keys.
      injection Hc as <-.
      apply (ch_write _ _ _ t s r m
               (Message.with_text (Message.with_isStreaming m false)
                  (str_or (Message.text m) APOLOGY))); simpl; try done.
      * apply evolves_error.
      * by intros [c [=]].
      * by intros t' [? _]%elem_of_remove_turn.
    + unfold onError in Hc. rewrite updating_unresolved in Hc by done.
      injection Hc as <-. apply ch_none; simpl; try done.
      by intros t' [? _]%elem_of_remove_turn.
Qed.

Lemma change_heap_length ev w w' :
  change ev w w' → length (heap (app w)) ≤ length (heap (app w')).
Proof.
  intros [Hh _ _ _ | newId now _ Hh _ _ | text attachments env sid _ _ _ Hh _ _
         | t s r m m' _ _ _ _ _ _ _ Hh _ _]; rewrite Hh.
  - done.
  - done.
  - rewrite length_app. lia.
  - by rewrite length_insert.
Qed.

Lemma Safe_run evs w w' : Safe w → run offered evs w = Some w' → Safe w'.
Proof.
  revert w. induction evs as [| ev evs IH]; intros w HJ Hrun; simpl in Hrun.
  - by injection Hrun as <-.
  - destruct (offered ev w) eqn:Hen; [| done].
    destruct (apply ev w) as [w1 |] eqn:Hap; [| done].
    destruct (Safe_step w ev HJ Hen) as (w1' & Hap' & HJ1).
    apply (IH w1); [congruence | done].
Qed.

(** ** Sessions only grow *)

Lemma step_sessions_grow w ev w' k s :
  Safe w → change ev w w' → sessions (state (app w)) !! k = Some s →
  ∃ s', sessions (state (app w')) !! k = Some s' ∧
        ChatSession.id s' = ChatSession.id s ∧
        ChatSession.messages s `prefix_of` ChatSession.messages s' ∧
        ∀ r, r ∈ ChatSession.messages s' → r ∉ ChatSession.messages s →
             length (heap (app w)) ≤ r.
Proof.
  intros HJ Hch Hs.
  assert (Hsame : ∃ s', Some s = Some s' ∧ ChatSession.id s' = ChatSession.id s ∧
            ChatSession.messages s `prefix_of` ChatSession.messages s' ∧
            ∀ r, r ∈ ChatSession.messages s' → r ∉ ChatSession.messages s →
                 length (heap (app w)) ≤ r).
  { exists s. repeat split; try done; intros r Hr Hn; by destruct Hn. }
  destruct Hch as [_ Hss _ _ | newId now Hnone _ Hss _ | text attachments env sid _ _ _ _ Hss _
                   | t s0 r m m' _ _ _ _ _ _ _ _ Hss _]; rewrite Hss.
  - by rewrite Hs.
  - rewrite lookup_insert_ne by congruence. by rewrite Hs.
  - destruct (sessions (state (app w)) !! sid) as [s1 |] eqn:Hs1; [| by rewrite Hs].
    destruct (decide (sid = k)) as [-> | Hne]; [| by rewrite lookup_insert_ne, Hs].
    rewrite lookup_insert_eq. assert (s1 = s) as -> by congruence.
    eexists. split; [done |]. simpl. split; [done |]. split; [by eexists |].
    intros r [Hr | Hr]%elem_of_app Hn; [done |].
    apply elem_of_cons in Hr as [-> | Hr]; [lia |].
    apply list_elem_of_singleton in Hr as ->. lia.
  - by rewrite Hs.
Qed.

Lemma run_sessions_grow evs w w' k s :
  Safe w → run offered evs w = Some w' → sessions (state (app w)) !! k = Some s →
  length (heap (app w)) ≤ length (heap (app w')) ∧
  ∃ s', sessions (state (app w')) !! k = Some s' ∧
        ChatSession.id s' = ChatSession.id s ∧
        ChatSession.messages s `prefix_of` ChatSession.messages s' ∧
        ∀ r, r ∈ ChatSession.messages s' → r ∉ ChatSession.messages s →
             length (heap (app w)) ≤ r.
Proof.
  revert w s. induction evs as [| ev evs IH]; intros w s HJ Hrun Hs; simpl in Hrun.
  - injection Hrun as <-. split; [done |].
    exists s. repeat split; try done; intros r Hr Hn; by destruct Hn.
  - destruct (offered ev w) eqn:Hen; [| done].
    destruct (apply ev w) as [w1 |] eqn:Hap; [| done].
    destruct (Safe_step w ev HJ Hen) as (w1' & Hap' & HJ1).
    assert (w1' = w1) as -> by congruence.
    pose proof (step_change w ev w1 HJ Hen Hap) as Hch.
    pose proof (change_heap_length _ _ _ Hch) as Hlen.
    destruct (step_sessions_grow w ev w1 k s HJ Hch Hs) as (s1 & Hs1 & Hid1 & Hpre1 & Hnew1).
    destruct (IH w1 s1 HJ1 Hrun Hs1) as (Hlen' & s' & Hs' & Hid' & Hpre' & Hnew').
    split; [lia |]. exists s'. split; [done |]. split; [congruence |].
    split; [by etrans |]. intros r Hr Hn.
    destruct (decide (r ∈ ChatSession.messages s1)) as [Hin | Hnin].
    + by apply Hnew1.
    + specialize (Hnew' r Hr Hnin). lia.
Qed.

(** X1.  Along any run (turns may overlap) no session is ever removed or
    re-keyed, its [messages] array only grows at the end, and the entries
    added refer to objects created during the run; the store of objects
    never shrinks. *)
Theorem sessions_only_grow w evs w' k s :
  reachable_any w → run offered evs w = Some w' →
  sessions (state (app w)) !! k = Some s →
  length (heap (app w)) ≤ length (heap (app w')) ∧
  ∃ s', sessions (state (app w')) !! k = Some s' ∧
        ChatSession.id s' = k ∧
        ChatSession.messages s `prefix_of` ChatSession.messages s' ∧
        ∀ r, r ∈ ChatSession.messages s' → r ∉ ChatSession.messages s →
             length (heap (app w)) ≤ r < length (heap (app w')).
Proof.
  intros Hreach Hrun Hs. pose proof (reachable_any_Safe _ Hreach) as HJ.
  pose proof (Safe_run _ _ _ HJ Hrun) as HJ'.
  destruct (run_sessions_grow evs w w' k s HJ Hrun Hs) as (Hlen & s' & Hs' & Hid & Hpre & Hnew).
  split; [done |]. exists s'. split; [done |].
  split; [by apply (j_keys _ _ _ HJ') |]. split; [done |].
  intros r Hr Hn. split; [by apply Hnew |]. by apply (j_valid _ _ _ HJ' k s').
Qed.

Lemma sessions_only_grow_witness :
  ∃ s', sessions (state (app helloWorld)) !! "s1" = Some s' ∧
        ChatSession.messages newChatSession `prefix_of` ChatSession.messages s'.
Proof.
  destruct (sessions_only_grow onboardedWorld
              [Send "Hi" [] sampleEnv; Chunk sampleTurn "He"; Chunk sampleTurn "llo"]
              helloWorld "s1" newChatSession)
    as (_ & s' & Hs' & _ & Hpre & _).
  - exact onboardedWorld_reachable_any.
  - vm_compute. reflexivity.
  - reflexivity.
  - exists s'. split; [exact Hs' | exact Hpre].
Defined.

(** ** Message objects *)

Lemma step_last_model w ev w' :
  Safe w → last_model w → change ev w w' → last_model w'.
Proof.
  intros HJ HL Hch k s0 r0 m0.
  destruct Hch as [Hh Hss _ _ | newId now Hnone Hh Hss _
                   | text attachments env sid _ Hcur Htr Hh Hss _
                   | t s r m m' _ Hin Hs Hl Hm Hev _ Hh Hss _]; rewrite Hss, Hh.
  - apply HL.
  - intros [[<- <-] | [? H1]]%lookup_insert_Some; [done |]. by apply (HL k).
  - assert (Hold : sessions (state (app w)) !! k = Some s0 →
              last_elem (ChatSession.messages s0) = Some r0 →
              (heap (app w) ++ [userMessage text attachments env; aiPlaceholder env]) !! r0
                = Some m0 → Message.role m0 = MODEL).
    { intros H1 H2 H3. rewrite lookup_app_l in H3; [by eapply HL |].
      eapply (j_valid _ _ _ HJ); eauto using last_elem_elem_of. }
    destruct (sessions (state (app w)) !! sid) as [s1 |] eqn:Hs1; [| done].
    intros [[<- <-] | [? H1]]%lookup_insert_Some; [| by apply Hold].
    simpl. rewrite last_elem_two. intros [= <-].
    rewrite lookup_app_r by lia.
    replace (S (length (heap (app w))) - length (heap (app w))) with 1 by lia.
    by intros [= <-].
  - intros H1 H2 H3. destruct (decide (r0 = r)) as [-> | Hne].
    + rewrite list_lookup_insert_eq in H3 by by eapply lookup_lt_Some.
      injection H3 as <-. destruct Hev as (_ & -> & _). by eapply (HL _ s r m).
    + rewrite list_lookup_insert_ne in H3 by done. by eapply HL.
Qed.

Lemma reachable_any_last_model w : reachable_any w → last_model w.
Proof.
  induction 1 as [| w ev w' Hreach IH Hen Hap].
  - intros k s r m H. simpl in H. by rewrite lookup_empty in H.
  - pose proof (reachable_any_Safe _ Hreach) as HJ.
    eapply step_last_model; eauto using step_change.
Qed.

Lemma step_objects w ev w' r0 m0 :
  last_model w → change ev w w' → heap (app w) !! r0 = Some m0 →
  ∃ m0', heap (app w') !! r0 = Some m0' ∧ evolves m0 m0' ∧
         (Message.role m0 = USER → m0' = m0).
Proof.
  intros HL Hch H0.
  assert (Hsame : ∃ m0', Some m0 = Some m0' ∧ evolves m0 m0' ∧
                         (Message.role m0 = USER → m0' = m0)).
  { exists m0. split; [done |]. split; [apply evolves_refl | done]. }
  destruct Hch as [Hh _ _ _ | newId now _ Hh _ _ | text attachments env sid _ _ _ Hh _ _
                   | t s r m m' _ Hin Hs Hl Hm Hev _ Hh _ _]; rewrite Hh.
  - by rewrite H0.
  - by rewrite H0.
  - rewrite lookup_app_l by by eapply lookup_lt_Some. by rewrite H0.
  - destruct (decide (r0 = r)) as [-> | Hne].
    + rewrite list_lookup_insert_eq by by eapply lookup_lt_Some.
      assert (m0 = m) as -> by congruence.
      exists m'. split; [done |]. split; [done |].
      intros Hrole. pose proof (HL _ s r m Hs Hl Hm). congruence.
    + rewrite list_lookup_insert_ne by done. by rewrite H0.
Qed.

Lemma run_objects evs w w' r m :
  reachable_any w → run offered evs w = Some w' → heap (app w) !! r = Some m →
  ∃ m', heap (app w') !! r = Some m' ∧ evolves m m' ∧
        (Message.role m = USER → m' = m).
Proof.
  revert w m. induction evs as [| ev evs IH]; intros w m Hreach Hrun Hm.
  - injection Hrun as <-. exists m. split; [done |]. split; [apply evolves_refl | done].
  - simpl in Hrun. destruct (offered ev w) eqn:Hen; [| done].
    destruct (apply ev w) as [w1 |] eqn:Hap; [| done].
    pose proof (reachable_any_Safe _ Hreach) as HJ.
    pose proof (step_change w ev w1 HJ Hen Hap) as Hch.
    destruct (step_objects w ev w1 r m (reachable_any_last_model _ Hreach) Hch Hm)
      as (m1 & Hm1 & Hev1 & Hu1).
    assert (Hreach1 : reachable_any w1) by by eapply reach_step.
    destruct (IH w1 m1 Hreach1 Hrun Hm1) as (m' & Hm' & Hev' & Hu').
    exists m'. split; [done |]. split; [by eapply evolves_trans |].
    intros Hrole. rewrite <- (Hu1 Hrole). apply Hu'. by rewrite (Hu1 Hrole).
Qed.

(** X2.  Along any run (turns may overlap) a [Message] object stays in the
    store and keeps its id, role, attachments and timestamp; its text is
    only ever extended at the end; its [isStreaming] is never switched on;
    and a user message never changes at all. *)
Theorem messages_evolve w evs w' r m :
  reachable_any w → run offered evs w = Some w' →
  heap (app w) !! r = Some m →
  ∃ m', heap (app w') !! r = Some m' ∧
        Message.id m' = Message.id m ∧ Message.role m' = Message.role m ∧
        Message.attachments m' = Message.attachments m ∧
        Message.timestamp m' = Message.timestamp m ∧
        (∃ suffix, Message.text m' = Message.text m +:+ suffix) ∧
        (Message.isStreaming m' = Some true → Message.isStreaming m = Some true) ∧
        (Message.role m = USER → m' = m).
Proof.
  intros Hreach Hrun Hm.
  destruct (run_objects evs w w' r m Hreach Hrun Hm)
    as (m' & Hm' & (Hi & Hr & Ha & Ht & Hx & Hs) & Hu).
  exists m'. repeat split; try done.
  intros Hon. destruct Hs as [Hs | Hs]; congruence.
Qed.

Lemma messages_evolve_witness :
  ∃ m', heap (app helloWorld) !! 1 = Some m' ∧
        ∃ suffix, Message.text m' = Message.text (aiPlaceholder sampleEnv) +:+ suffix.
Proof.
  destruct (messages_evolve streamingWorld
              [Chunk sampleTurn "He"; Chunk sampleTurn "llo"] helloWorld 1
              (aiPlaceholder sampleEnv))
    as (m' & Hm' & _ & _ & _ & _ & Hx & _).
  - exact streamingWorld_reachable_any.
  - vm_compute. reflexivity.
  - reflexivity.
  - exists m'. split; [exact Hm' | exact Hx].
Defined.

(** ** Message ids *)

Lemma ids_write (h : Heap) (r : loc) (m m' : Message.t) :
  h !! r = Some m → Message.id m' = Message.id m →
  Message.id <$> <[r := m']> h = Message.id <$> h.
Proof.
  intros Hm Hid. rewrite list_fmap_insert, Hid.
  apply list_insert_id. by rewrite list_lookup_fmap, Hm.
Qed.

Lemma ids_inj (h : Heap) (r1 r2 : loc) (m1 m2 : Message.t) :
  NoDup (Message.id <$> h) → h !! r1 = Some m1 → h !! r2 = Some m2 →
  Message.id m1 = Message.id m2 → r1 = r2.
Proof.
  intros Hnd H1 H2 Heq. apply (NoDup_lookup _ r1 r2 (Message.id m1) Hnd).
  - by rewrite list_lookup_fmap, H1.
  - by rewrite list_lookup_fmap, H2, Heq.
Qed.

Lemma message_ids_NoDup (h : Heap) (ms : list loc) :
  NoDup (Message.id <$> h) → NoDup ms → (∀ r, r ∈ ms → r < length h) →
  NoDup (message_ids h ms) ∧ length (message_ids h ms) = length ms.
Proof.
  intros Hids. induction ms as [| r ms IH]; intros Hnd Hvalid; [by split; [constructor |] |].
  apply NoDup_cons in Hnd as [Hnotin Hnd].
  destruct IH as [IH1 IH2]; [done | intros; apply Hvalid; by right |].
  destruct (lookup_lt_is_Some_2 h r) as [m Hm]; [apply Hvalid; by left |].
  unfold message_ids in *. simpl. rewrite Hm. simpl. split; [| by f_equal].
  apply NoDup_cons. split; [| done].
  intros (r' & Hr' & Hid)%list_elem_of_omap.
  destruct (h !! r') as [m' |] eqn:Hm'; [| done]. injection Hid as Hid.
  assert (r' = r) as -> by by eapply ids_inj.
  done.
Qed.

Lemma fresh_ids_spec text attachments env w :
  fresh_ids (Send text attachments env) w = true →
  userMsgId env ≠ aiId env ∧
  (userMsgId env ∉ Message.id <$> heap (app w)) ∧
  (aiId env ∉ Message.id <$> heap (app w)).
Proof.
  simpl. intros [[H1 H2]%andb_true_iff H3]%andb_true_iff.
  by apply bool_decide_eq_true in H1, H2, H3.
Qed.

Lemma step_ids w ev w' :
  Safe w → change ev w w' → fresh_ids ev w = true →
  NoDup (Message.id <$> heap (app w)) →
  (∀ k s, sessions (state (app w)) !! k = Some s → NoDup (ChatSession.messages s)) →
  NoDup (Message.id <$> heap (app w')) ∧
  (∀ k s, sessions (state (app w')) !! k = Some s → NoDup (ChatSession.messages s)).
Proof.
  intros HJ Hch Hfresh Hids Hms.
  destruct Hch as [Hh Hss _ _ | newId now Hnone Hh Hss _
                   | text attachments env sid -> Hcur Htr Hh Hss _
                   | t s r m m' _ Hin Hs Hl Hm Hev _ Hh Hss _]; rewrite Hss, Hh.
  - done.
  - split; [done |].
    intros k s [[<- <-] | [? H1]]%lookup_insert_Some; [constructor | eauto].
  - apply fresh_ids_spec in Hfresh as (Hne & Hu & Ha). split.
    + rewrite fmap_app. apply NoDup_app. split; [done |]. split.
      * intros x Hx Hx'. simpl in Hx'.
        apply elem_of_cons in Hx' as [-> | Hx']; [done |].
        apply list_elem_of_singleton in Hx' as ->. done.
      * simpl. apply NoDup_cons. split; [| apply NoDup_singleton].
        by intros Heq%list_elem_of_singleton.
    + destruct (sessions (state (app w)) !! sid) as [s1 |] eqn:Hs1; [| done].
      intros k s [[<- <-] | [? H1]]%lookup_insert_Some; [| eauto]. simpl.
      apply NoDup_app. split; [eauto |]. split.
      * intros x Hx Hx'. pose proof (j_valid _ _ _ HJ _ _ _ Hs1 Hx) as Hlt.
        apply elem_of_cons in Hx' as [-> | Hx']; [lia |].
        apply list_elem_of_singleton in Hx' as ->. lia.
      * apply NoDup_cons. split; [| apply NoDup_singleton].
        intros Hx%list_elem_of_singleton. lia.
  - split; [| done]. destruct Hev as (Hid & _). by rewrite (ids_write _ _ m).
Qed.

Lemma reachable_fresh_any w : reachable_by offered_fresh w → reachable_any w.
Proof.
  apply reachable_by_weaken. unfold offered_fresh. intros ev w0 H.
  by apply andb_true_iff in H as [H _].
Qed.

Lemma reachable_fresh_ids w :
  reachable_by offered_fresh w →
  NoDup (Message.id <$> heap (app w)) ∧
  (∀ k s, sessions (state (app w)) !! k = Some s → NoDup (ChatSession.messages s)).
Proof.
  induction 1 as [| w ev w' Hreach [IH1 IH2] Hen Hap].
  - split; [constructor |]. intros k s H. simpl in H. by rewrite lookup_empty in H.
  - pose proof (reachable_any_Safe _ (reachable_fresh_any _ Hreach)) as HJ.
    apply andb_true_iff in Hen as [Hen Hfresh].
    eapply step_ids; eauto using step_change.
Qed.

(** X3.  When [uuidv4()] hands out message ids in use by no message, the
    ids of the objects in the store are pairwise distinct, so that the
    rows of a session have distinct keys, one per message; and a delta
    changes no object but the single one that bears the id of the turn's
    placeholder, even when turns overlap. *)
Theorem message_ids_distinct w :
  reachable_by offered_fresh w →
  NoDup (Message.id <$> heap (app w)) ∧
  (∀ k s, sessions (state (app w)) !! k = Some s →
     NoDup (message_ids (heap (app w)) (ChatSession.messages s)) ∧
     length (message_ids (heap (app w)) (ChatSession.messages s))
       = length (ChatSession.messages s)) ∧
  (∀ t c w' r m,
     t ∈ inflight w → apply (Chunk t c) w = Some w' →
     heap (app w) !! r = Some m → heap (app w') !! r ≠ Some m →
     Message.id m = aiMsgId t ∧
     ∀ r2 m2, heap (app w) !! r2 = Some m2 → Message.id m2 = aiMsgId t → r2 = r).
Proof.
  intros Hreach. destruct (reachable_fresh_ids _ Hreach) as [Hids Hms].
  pose proof (reachable_any_Safe _ (reachable_fresh_any _ Hreach)) as HJ.
  split; [done |]. split.
  - intros k s Hs. apply message_ids_NoDup; eauto using j_valid.
  - intros t c w' r m Hin Hap Hm Hchg.
    assert (Hen : offered (Chunk t c) w = true) by by apply bool_decide_eq_true.
    assert (Hid : Message.id m = aiMsgId t).
    { destruct (step_change w _ w' HJ Hen Hap)
        as [Hh _ _ _ | ? ? _ Hh _ _ | ? ? ? ? [=] _ _ _ _ _
            | t0 s0 r0 m0 m0' [= <-] _ _ _ Hm0 _ Hc Hh _ _].
      - by rewrite Hh in Hchg.
      - by rewrite Hh in Hchg.
      - rewrite Hh in Hchg. destruct (decide (r = r0)) as [-> | Hne].
        + assert (m0 = m) as -> by congruence. apply Hc. by exists c.
        + by rewrite list_lookup_insert_ne in Hchg. }
    split; [done |]. intros r2 m2 Hm2 Hid2. eapply ids_inj; eauto. congruence.
Qed.

Lemma message_ids_distinct_witness :
  NoDup (Message.id <$> heap (app streamingWorld)).
Proof.
  refine (proj1 (message_ids_distinct streamingWorld _)).
  apply (run_reachable_by offered_fresh
           [Onboard "Ann" "ann@example.org" "s1" 0; Send "Hi" [] sampleEnv] initialWorld).
  - constructor.
  - vm_compute. reflexivity.
Defined.

(** ** The callbacks write to one object *)

(** X4.  A callback of a turn in flight ([onChunk], [onComplete],
    [onError]) leaves the whole [AppState] as it was (sessions, titles,
    message arrays, current id, model, sidebar) and the store at its size;
    the only object it may write to is the last message of the session it
    closed over, and it writes nothing when that session does not
    resolve.  A terminal callback ends the turn, a delta does not. *)
Theorem callbacks_write_one_object w ev t w' :
  reachable_any w → offered ev w = true → event_turn ev = Some t →
  apply ev w = Some w' →
  state (app w') = state (app w) ∧
  length (heap (app w')) = length (heap (app w)) ∧
  (∀ r, (∀ s, sessions (state (app w)) !! captured t = Some s →
              last_elem (ChatSession.messages s) ≠ Some r) →
        heap (app w') !! r = heap (app w) !! r) ∧
  (sessions (state (app w)) !! captured t = None → heap (app w') = heap (app w)) ∧
  inflight w' = if terminal_of t ev then remove_turn t (inflight w) else inflight w.
Proof.
  intros Hreach Hen Hev Hap. pose proof (reachable_any_Safe _ Hreach) as HJ.
  assert (Hin : t ∈ inflight w).
  { destruct ev; simpl in Hev; try done; injection Hev as ->;
      by apply bool_decide_eq_true in Hen. }
  assert (Hst : state (app w') = state (app w)).
  { destruct ev as [| | | | | | t0 c | t0 | t0 message]; simpl in Hev; try done;
      injection Hev as ->; simpl in Hap.
    - destruct (Safe_chunk w t c HJ Hin) as (a' & Hc & Hs & _). rewrite Hc in Hap.
      by injection Hap as <-.
    - destruct (Safe_complete w t HJ Hin) as (a' & Hc & Hs & _). rewrite Hc in Hap.
      by injection Hap as <-.
    - destruct (Safe_fail w t message HJ Hin) as (a' & Hc & Hs & _). rewrite Hc in Hap.
      by injection Hap as <-. }
  assert (Hfl : inflight w' =
                if terminal_of t ev then remove_turn t (inflight w) else inflight w).
  { destruct ev as [| | | | | | t0 c | t0 | t0 message]; simpl in Hev; try done;
      injection Hev as ->; simpl in *.
    - destruct (onChunk t c (app w)); [| done]. by injection Hap as <-.
    - rewrite bool_decide_eq_true_2 by done.
      destruct (onComplete t (app w)); [| done]. by injection Hap as <-.
    - rewrite bool_decide_eq_true_2 by done.
      destruct (onError t message (app w)); [| done]. by injection Hap as <-. }
  split; [done |].
  destruct (step_change w ev w' HJ Hen Hap)
    as [Hh _ _ _ | ? ? _ Hh _ _ | ? ? ? ? -> _ _ _ _ _
        | t0 s0 r0 m0 m0' Hev0 _ Hs0 Hl0 Hm0 _ _ Hh _ _]; try done.
  - by rewrite Hh.
  - by rewrite Hh.
  - assert (t0 = t) as -> by congruence. rewrite Hh.
    split; [by rewrite length_insert |]. split; [| split; [by rewrite Hs0 | done]].
    intros r Hr. apply list_lookup_insert_ne. intros Heq. apply (Hr s0 Hs0). congruence.
Qed.

Lemma callbacks_write_one_object_witness :
  ∃ w', apply (Chunk sampleTurn "Hel") streamingWorld = Some w' ∧
        state (app w') = state (app streamingWorld) ∧
        heap (app w') !! 0 = heap (app streamingWorld) !! 0.
Proof.
  assert (Hap : apply (Chunk sampleTurn "Hel") streamingWorld =
                Some (default streamingWorld (apply (Chunk sampleTurn "Hel") streamingWorld))).
  { vm_compute. reflexivity. }
  destruct (callbacks_write_one_object streamingWorld (Chunk sampleTurn "Hel") sampleTurn _
              streamingWorld_reachable_any eq_refl eq_refl Hap)
    as (Hst & _ & Hframe & _).
  eexists. split; [exact Hap |]. split; [exact Hst |].
  apply Hframe. intros s Hs Hl. vm_compute in Hs. injection Hs as <-. discriminate Hl.
Defined.

(** ** The stream sticks to its session *)

Lemma callbacks_frame_state w cb t w1 :
  Safe w → offered cb w = true → event_turn cb = Some t → apply cb w = Some w1 →
  state (app w1) = state (app w) ∧ (∀ t', t' ∈ inflight w1 → t' ∈ inflight w).
Proof.
  intros HJ Hen Hev Hap.
  destruct cb as [| | | | | | t0 c | t0 | t0 message]; simpl in Hev; try done;
    injection Hev as ->; simpl in *; apply bool_decide_eq_true in Hen.
  - destruct (Safe_chunk w t c HJ Hen) as (a' & Hc & Hs & _). rewrite Hc in Hap.
    by injection Hap as <-.
  - destruct (Safe_complete w t HJ Hen) as (a' & Hc & Hs & _). rewrite Hc in Hap.
    injection Hap as <-. split; [done |]. by intros t' [? _]%elem_of_remove_turn.
  - destruct (Safe_fail w t message HJ Hen) as (a' & Hc & Hs & _). rewrite Hc in Hap.
    injection Hap as <-. split; [done |]. by intros t' [? _]%elem_of_remove_turn.
Qed.

Lemma updating_after (f : AppState → AppState) t (u : Updater) a :
  sessions (f (state a)) !! captured t = sessions (state a) !! captured t →
  (∀ s s', sessions (state a) !! captured t = Some s →
     f (mkAppState (user (state a)) (currentSessionId (state a))
          (<[ChatSession.id s := s']> (sessions (state a)))
          (selectedModel (state a)) (sidebarOpen (state a)))
     = mkAppState (user (f (state a))) (currentSessionId (f (state a)))
         (<[ChatSession.id s := s']> (sessions (f (state a))))
         (selectedModel (f (state a))) (sidebarOpen (f (state a)))) →
  updating t u (with_state a (heap a) (f (state a))) =
  (λ a', with_state a' (heap a') (f (state a'))) <$> updating t u a.
Proof.
  intros Hlook Hcomm. unfold updating, updateCurrentSession. simpl. rewrite Hlook.
  destruct (truthy (captured t)); [| done].
  destruct (sessions (state a) !! captured t) as [s |] eqn:Hs; [| done].
  destruct (u (heap a) s) as [[h' s'] |]; [| done]. simpl.
  unfold with_state. simpl. by rewrite (Hcomm s s').
Qed.

Lemma callback_after (f : AppState → AppState) w cb t :
  event_turn cb = Some t →
  sessions (f (state (app w))) !! captured t = sessions (state (app w)) !! captured t →
  (∀ s s', sessions (state (app w)) !! captured t = Some s →
     f (mkAppState (user (state (app w))) (currentSessionId (state (app w)))
          (<[ChatSession.id s := s']> (sessions (state (app w))))
          (selectedModel (state (app w))) (sidebarOpen (state (app w))))
     = mkAppState (user (f (state (app w)))) (currentSessionId (f (state (app w))))
         (<[ChatSession.id s := s']> (sessions (f (state (app w)))))
         (selectedModel (f (state (app w)))) (sidebarOpen (f (state (app w))))) →
  apply cb (on_state f w) = on_state f <$> apply cb w.
Proof.
  intros Hev Hlook Hcomm.
  destruct cb as [| | | | | | t0 c | t0 | t0 message]; simpl in Hev; try done;
    injection Hev as ->; simpl.
  - unfold onChunk. rewrite (updating_after f t _ (app w)) by done.
    by destruct (updating t _ (app w)).
  - unfold onComplete.
    change (setIsGenerating false (with_state (app w) (heap (app w)) (f (state (app w)))))
      with (with_state (setIsGenerating false (app w))
              (heap (setIsGenerating false (app w)))
              (f (state (setIsGenerating false (app w))))).
    rewrite (updating_after f t _ (setIsGenerating false (app w))) by done.
    by destruct (updating t _ _).
  - unfold onError.
    change (setError ?e (setIsGenerating false
              (with_state (app w) (heap (app w)) (f (state (app w))))))
      with (with_state (setError e (setIsGenerating false (app w)))
              (heap (setError e (setIsGenerating false (app w))))
              (f (state (setError e (setIsGenerating false (app w)))))).
    rewrite (updating_after f t _ (setError _ (setIsGenerating false (app w)))) by done.
    by destruct (updating t _ _).
Qed.

(** X5.  The callbacks of a turn keep targeting the session the send
    closed over: in a reachable state, a callback and an event of the
    sidebar, the header or the model menu (new chat, session selected,
    sidebar toggled, model selected) give the same state in either order,
    and each stays possible after the other. *)
Theorem stream_sticks_to_its_session w nav cb t :
  reachable_any w → is_nav nav = true → event_turn cb = Some t →
  offered nav w = true → offered cb w = true →
  (apply nav w ≫= apply cb) = (apply cb w ≫= apply nav) ∧
  is_Some (apply nav w ≫= apply cb) ∧
  (∀ w1, apply nav w = Some w1 → offered cb w1 = true) ∧
  (∀ w1, apply cb w = Some w1 → offered nav w1 = true).
Proof.
  intros Hreach Hnav Hev Hon Hoc. pose proof (reachable_any_Safe _ Hreach) as HJ.
  assert (Hin : t ∈ inflight w).
  { destruct cb; simpl in Hev; try done; injection Hev as ->;
      by apply bool_decide_eq_true in Hoc. }
  destruct (Safe_step w cb HJ Hoc) as (w1 & Hap1 & HJ1).
  destruct (callbacks_frame_state w cb t w1 HJ Hoc Hev Hap1) as (Hst1 & Hfl1).
  assert (Hcomm : ∃ f, apply nav w = Some (on_state f w) ∧
                       (∀ w0, apply nav w0 = Some (on_state f w0)) ∧
                       apply cb (on_state f w) = on_state f <$> apply cb w).
  { destruct nav as [| newId now | id | | md | | | |]; try done; simpl.
    - apply andb_true_iff in Hon as [_ [Hnone Hfl]%fresh_spec].
      exists (createNewSession newId now). split; [done |]. split; [done |].
      apply (callback_after _ w cb t Hev).
      + simpl. apply lookup_insert_ne. intros Heq. by apply (Hfl t).
      + intros s s' Hs. unfold createNewSession. simpl. f_equal. apply insert_insert_ne.
        rewrite (j_keys _ _ _ HJ _ _ Hs). intros Heq. by apply (Hfl t).
    - exists (selectSession id). split; [done |]. split; [done |].
      by apply (callback_after _ w cb t Hev).
    - exists toggleSidebar. split; [done |]. split; [done |].
      by apply (callback_after _ w cb t Hev).
    - exists (selectModel md). split; [done |]. split; [done |].
      by apply (callback_after _ w cb t Hev). }
  destruct Hcomm as (f & Hn & Hn' & Hc).
  rewrite Hn, Hap1. simpl. rewrite Hc, Hap1, Hn'. simpl.
  split; [done |]. split; [by eexists |]. split.
  - intros w2 [= <-]. destruct cb; simpl in Hev; try done; simpl in *; done.
  - intros w2 [= <-].
    destruct nav as [| newId now | id | | md | | | |]; try done; simpl in *;
      unfold onboarded in *; rewrite Hst1; try done.
    apply andb_true_iff in Hon as [Hu [Hnone Hfl]%fresh_spec].
    apply andb_true_iff. split; [done |]. apply fresh_spec. rewrite Hst1.
    split; [done |]. intros t' Ht'. apply Hfl. by apply Hfl1.
Qed.

Lemma stream_sticks_to_its_session_witness :
  (apply (NewChat "s2" 7) streamingWorld ≫= apply (Chunk sampleTurn "Hel")) =
  (apply (Chunk sampleTurn "Hel") streamingWorld ≫= apply (NewChat "s2" 7)).
Proof.
  refine (proj1 (stream_sticks_to_its_session streamingWorld (NewChat "s2" 7)
                   (Chunk sampleTurn "Hel") sampleTurn _ _ _ _ _)).
  - exact streamingWorld_reachable_any.
  - reflexivity.
  - reflexivity.
  - vm_compute. reflexivity.
  - vm_compute. reflexivity.
Defined.

(** ** The generating flag and the error banner *)

Lemma updating_flags t (u : Updater) a a' :
  updating t u a = Some a' → isGenerating a' = isGenerating a ∧ error a' = error a.
Proof.
  unfold updating. destruct (updateCurrentSession _ _ _ _) as [[h' st'] |]; [| done].
  by intros [= <-].
Qed.

Lemma handleSendMessage_flags text attachments env a a' ot :
  handleSendMessage text attachments env a = Some (a', ot) →
  if active a then isGenerating a' = true ∧ error a' = None ∧ is_Some ot
  else a' = a ∧ ot = None.
Proof.
  destruct (active a) eqn:Hact.
  2:{ rewrite handleSendMessage_not_active by done. by intros [= <- <-]. }
  apply active_spec in Hact as (sid & Hcur & Htr).
  unfold handleSendMessage. rewrite Hcur, Htr. simpl.
  destruct (updateCurrentSession _ _ _ _) as [[h2 st2] |]; [| done].
  destruct (updateCurrentSession _ _ _ _) as [[h4 st4] |]; [| done].
  intros [= <- <-]. simpl. split; [done |]. split; [done | by eexists].
Qed.

(** How each event moves the flag, the banner text and the turns in
    flight. *)
Lemma step_indicators w ev w' :
  apply ev w = Some w' →
  isGenerating (app w') =
    match ev with
    | Send _ _ _ => if active (app w) then true else isGenerating (app w)
    | Complete _ | Fail _ _ => false
    | _ => isGenerating (app w)
    end ∧
  error (app w') =
    match ev with
    | Send _ _ _ => if active (app w) then None else error (app w)
    | Fail _ message => Some (str_or (default "" message) GENERIC_ERROR)
    | _ => error (app w)
    end ∧
  match ev with
  | Send _ _ _ =>
    if active (app w) then ∃ t, inflight w' = inflight w ++ [t] else inflight w' = inflight w
  | Complete t | Fail t _ => inflight w' = remove_turn t (inflight w)
  | _ => inflight w' = inflight w
  end.
Proof.
  destruct ev as [name mail newId now | newId now | id | | md
                 | text attachments env | t c | t | t message]; simpl;
    try (by intros [= <-]).
  - destruct (handleSendMessage text attachments env (app w)) as [[a' ot] |] eqn:Hs; [| done].
    apply handleSendMessage_flags in Hs.
    destruct (active (app w)).
    + destruct Hs as (Hg & He & [t ->]). intros [= <-]. simpl. by eauto.
    + destruct Hs as [-> ->]. by intros [= <-].
  - destruct (onChunk t c (app w)) as [a' |] eqn:Hc; [| done].
    apply updating_flags in Hc as [Hg He]. by intros [= <-].
  - destruct (onComplete t (app w)) as [a' |] eqn:Hc; [| done].
    apply updating_flags in Hc as [Hg He]. by intros [= <-].
  - destruct (onError t message (app w)) as [a' |] eqn:Hc; [| done].
    apply updating_flags in Hc as [Hg He]. by intros [= <-].
Qed.

Lemma reachable_any_generating w :
  reachable_any w → isGenerating (app w) = true → inflight w ≠ [].
Proof.
  induction 1 as [| w ev w' Hreach IH Hen Hap]; [done |].
  destruct (step_indicators w ev w' Hap) as (Hg & _ & Hfl).
  destruct ev as [name mail newId now | newId now | id | | md
                 | text attachments env | t c | t | t message];
    rewrite Hg; try done; try (rewrite Hfl; exact IH).
  destruct (active (app w)).
  - destruct Hfl as [t ->]. intros _. by destruct (inflight w).
  - rewrite Hfl. exact IH.
Qed.

(** X6.  The generating flag, which disables the input, is raised by an
    accepted send and by nothing else, and lowered by every terminal
    event; in any reachable state (turns may overlap) it is set only while
    some turn is in flight, so that the input is enabled again once every
    turn has ended.  The converse fails when turns overlap: see
    [flag_cleared_while_streaming]. *)
Theorem generating_flag w ev w' :
  reachable_any w → apply ev w = Some w' →
  (isGenerating (app w) = true → inflight w ≠ []) ∧
  (inflight w = [] → inputDisabled (app w) = false) ∧
  isGenerating (app w') =
    match ev with
    | Send _ _ _ => if active (app w) then true else isGenerating (app w)
    | Complete _ | Fail _ _ => false
    | _ => isGenerating (app w)
    end.
Proof.
  intros Hreach Hap. pose proof (reachable_any_generating w Hreach) as Hg.
  split; [done |]. split.
  - intros Hnil. unfold inputDisabled. destruct (isGenerating (app w)); [| done].
    by destruct Hg.
  - by destruct (step_indicators w ev w' Hap) as (? & _).
Qed.

Lemma generating_flag_witness :
  isGenerating
    (app (default streamingWorld (apply (Complete sampleTurn) streamingWorld)))
  = false.
Proof.
  refine (proj2 (proj2 (generating_flag streamingWorld (Complete sampleTurn)
                   (default streamingWorld (apply (Complete sampleTurn) streamingWorld))
                   _ _))).
  - exact streamingWorld_reachable_any.
  - vm_compute. reflexivity.
Defined.

(** Two sessions streaming: the completion of the first turn clears the
    flag while the second turn is still in flight. *)
Example flag_cleared_while_streaming :
  ∃ w, run enabled
         [Onboard "Ann" "ann@example.org" "s1" 0; Send "Hi" [] sampleEnv;
          NewChat "s2" 7; Send "Yo" [] secondEnv; Complete sampleTurn]
         initialWorld = Some w ∧
       isGenerating (app w) = false ∧ length (inflight w) = 1.
Proof. eexists. split; [vm_compute; reflexivity |]. split; reflexivity. Qed.

(** X7.  The error banner is shown after every failure, whatever message
    the failure carries (an empty or missing one gives the generic text);
    it is taken down by an accepted send and by nothing else: deltas,
    completions, ignored sends, new chats and session switches leave it. *)
Theorem error_banner w ev w' :
  apply ev w = Some w' →
  bannerShown (app w') =
    match ev with
    | Fail _ _ => true
    | Send _ _ _ => if active (app w) then false else bannerShown (app w)
    | _ => bannerShown (app w)
    end ∧
  (∀ t message, ev = Fail t message →
     error (app w') = Some (match message with
                            | Some msg => if decide (msg = "") then GENERIC_ERROR else msg
                            | None => GENERIC_ERROR
                            end)).
Proof.
  intros Hap. destruct (step_indicators w ev w' Hap) as (_ & He & _).
  unfold bannerShown. rewrite He. split.
  - destruct ev as [| | | | | text attachments env | | | t message]; try done.
    + by destruct (active (app w)).
    + rewrite str_or_spec. case_decide; [done |]. by apply truthy_true.
  - intros t message ->. f_equal. rewrite str_or_spec. by destruct message.
Qed.

Lemma error_banner_witness :
  bannerShown
    (app (default streamingWorld (apply (Fail sampleTurn (Some "")) streamingWorld)))
  = true.
Proof.
  refine (proj1 (error_banner streamingWorld (Fail sampleTurn (Some "")) _ _)).
  vm_compute. reflexivity.
Defined.

(** ** Sends through the disabled input only *)

Lemma remove_turn_single (t : Turn) : remove_turn t [t] = [].
Proof. unfold remove_turn. by rewrite filter_cons_False, filter_nil by (intros H; by apply H). Qed.

Lemma enabled_of_offered ev w :
  offered ev w = true →
  (∀ text attachments env, ev = Send text attachments env → idle_target w = true) →
  enabled ev w = true.
Proof.
  destruct ev; simpl; try done. intros -> H. by rewrite (H _ _ _ eq_refl).
Qed.

Lemma input_regime w :
  reachable_by input_offered w →
  reachable w ∧
  ((inflight w = [] ∧ isGenerating (app w) = false) ∨
   (∃ t, inflight w = [t] ∧ isGenerating (app w) = true)).
Proof.
  induction 1 as [| w ev w' Hreach [IHr IH] Hen Hap].
  - split; [constructor |]. by left.
  - apply andb_true_iff in Hen as [Hen Hvia].
    destruct (step_indicators w ev w' Hap) as (Hg & _ & Hfl).
    split.
    + apply (reach_step enabled w ev w'); [done | | done].
      apply enabled_of_offered; [done |]. intros text attachments env ->.
      simpl in Hvia. unfold inputDisabled in Hvia. apply negb_true_iff in Hvia.
      destruct IH as [[Hnil _] | (t & _ & Htrue)]; [| congruence].
      unfold idle_target. rewrite Hnil. by destruct (currentSessionId _).
    + destruct ev as [name mail newId now | newId now | id | | md
                     | text attachments env | t c | t | t message];
        rewrite Hg; try rewrite Hfl; try done.
      * simpl in Hvia. unfold inputDisabled in Hvia. apply negb_true_iff in Hvia.
        destruct IH as [[Hnil Hfalse] | (t & _ & Htrue)]; [| congruence].
        destruct (active (app w)).
        -- destruct Hfl as [t ->]. right. exists t. by rewrite Hnil.
        -- rewrite Hfl. by left.
      * simpl in Hen. apply bool_decide_eq_true in Hen. left.
        destruct IH as [[Hnil _] | (t0 & Ht0 & _)].
        -- rewrite Hnil in Hen. by apply elem_of_nil in Hen.
        -- rewrite Ht0 in Hen. apply list_elem_of_singleton in Hen as ->.
           by rewrite Ht0, remove_turn_single.
      * simpl in Hen. apply bool_decide_eq_true in Hen. left.
        destruct IH as [[Hnil _] | (t0 & Ht0 & _)].
        -- rewrite Hnil in Hen. by apply elem_of_nil in Hen.
        -- rewrite Ht0 in Hen. apply list_elem_of_singleton in Hen as ->.
           by rewrite Ht0, remove_turn_single.
Qed.

(** X8.  If sends come through the input only, which is disabled while the
    generating flag is set, then at most one turn is in flight in the
    whole application, the flag is set exactly while a turn is in flight,
    and the one-turn-per-session precondition holds: every such state is
    reachable under it, and no session has two streaming messages. *)
Theorem input_only_regime w :
  reachable_by input_offered w →
  length (inflight w) ≤ 1 ∧
  (isGenerating (app w) = true ↔ inflight w ≠ []) ∧
  reachable w ∧
  (∀ k s, sessions (state (app w)) !! k = Some s →
          count_streaming (heap (app w)) (ChatSession.messages s) ≤ 1).
Proof.
  intros Hreach. destruct (input_regime w Hreach) as [Hr Hcase].
  split; [| split; [| split; [done |]]].
  - destruct Hcase as [[-> _] | (t & -> & _)]; simpl; lia.
  - destruct Hcase as [[-> ->] | (t & -> & ->)]; by split.
  - intros k s Hs. eapply count_streaming_le_1; [apply (reachable_Inv _ Hr) | done].
Qed.

Lemma input_only_regime_witness : length (inflight streamingWorld) ≤ 1.
Proof.
  refine (proj1 (input_only_regime streamingWorld _)).
  apply (run_reachable_by input_offered
           [Onboard "Ann" "ann@example.org" "s1" 0; Send "Hi" [] sampleEnv] initialWorld).
  - constructor.
  - vm_compute. reflexivity.
Defined.

(** ** Sends through the input and the suggestion buttons *)

(** X9.  The suggestion buttons do not look at the generating flag, and
    the flag is global: with the input and the suggestions as [App.tsx]
    wires them, a state is reachable in which one session has two turns in
    flight and two streaming messages.  (A turn streams in ["s1"]; a
    suggestion is clicked in the new chat ["s2"]; the first turn
    completes, which enables the input; a message is sent in ["s2"].) *)
Theorem suggestions_bypass_the_flag :
  ∃ evs w s,
    run ui_offered evs initialWorld = Some w ∧
    sessions (state (app w)) !! "s2" = Some s ∧
    count_streaming (heap (app w)) (ChatSession.messages s) = 2 ∧
    length (filter (λ t, captured t = "s2") (inflight w)) = 2 ∧
    run enabled evs initialWorld = None.
Proof.
  exists [Onboard "Ann" "ann@example.org" "s1" 0;
          Send "Hi" [] sampleEnv;
          NewChat "s2" 7;
          Send "Explain quantum computing to a 5-year-old using simple analogies." []
               secondEnv;
          Complete sampleTurn;
          Send "and then?" [] (mkSendEnv "u3" 8 9 "a3" 10)].
  eexists _, _. split; [vm_compute; reflexivity |].
  split; [vm_compute; reflexivity |]. split; [reflexivity |]. split; reflexivity.
Qed.

(** ** What the bubbles show *)

Lemma bubble_model (m : Message.t) :
  Message.role m = MODEL →
  bubble m =
    if decide (Message.text m = "") then
      if decide (Message.isStreaming m = Some true) then TypingDots else NoContent
    else Markdown (Message.text m).
Proof.
  intros Hr. unfold bubble. rewrite Hr.
  destruct (decide (Message.text m = "")) as [-> | Hne].
  - simpl. by destruct (Message.isStreaming m) as [[|] |].
  - by apply truthy_true in Hne as ->.
Qed.

(** X10.  Under the one-turn-per-session precondition, what the bubbles
    of a turn show: the user's bubble shows the text sent, throughout; the
    assistant's bubble shows typing dots as long as the text received is
    empty and the text received afterwards; after a completion it shows
    the text received, and nothing at all when none was received; after a
    failure it is never blank: it shows the text received or, when there
    is none, the apology. *)
Theorem bubbles_of_a_turn w0 text attachments env sid s w1 evs w2 :
  reachable w0 →
  currentSessionId (state (app w0)) = Some sid → truthy sid = true →
  sessions (state (app w0)) !! sid = Some s →
  enabled (Send text attachments env) w0 = true →
  apply (Send text attachments env) w0 = Some w1 →
  Forall (λ ev, terminal_of (sentTurn text attachments env (app w0) s) ev = false) evs →
  run enabled evs w1 = Some w2 →
  bubble <$> heap (app w2) !! length (heap (app w0)) = Some (PlainText text) ∧
  bubble <$> heap (app w2) !! placeholderRef (app w0) =
    Some (if decide (joined (deltas_of (sentTurn text attachments env (app w0) s) evs) = "")
          then TypingDots
          else Markdown (joined (deltas_of (sentTurn text attachments env (app w0) s) evs))) ∧
  (∀ w3, apply (Complete (sentTurn text attachments env (app w0) s)) w2 = Some w3 →
     bubble <$> heap (app w3) !! placeholderRef (app w0) =
       Some (if decide (joined (deltas_of (sentTurn text attachments env (app w0) s) evs) = "")
             then NoContent
             else Markdown (joined (deltas_of (sentTurn text attachments env (app w0) s) evs)))) ∧
  (∀ message w3,
     apply (Fail (sentTurn text attachments env (app w0) s) message) w2 = Some w3 →
     bubble <$> heap (app w3) !! placeholderRef (app w0) =
       Some (Markdown
               (if decide (joined (deltas_of (sentTurn text attachments env (app w0) s) evs) = "")
                then APOLOGY
                else joined (deltas_of (sentTurn text attachments env (app w0) s) evs)))).
Proof.
  intros Hreach Hcur Htr Hs Hen Hap Hall Hrun.
  destruct (turn_in_progress _ _ _ _ _ _ _ _ _ Hreach Hcur Htr Hs Hen Hap Hall Hrun)
    as (Hct & HI2 & Hin2 & s2 & Hs2 & Hms & Hm).
  set (t := sentTurn text attachments env (app w0) s) in *.
  set (received := joined (deltas_of t evs)) in *.
  assert (Hl : last_elem (ChatSession.messages s2) = Some (placeholderRef (app w0))).
  { rewrite Hms. apply last_elem_two. }
  assert (Hlt : placeholderRef (app w0) < length (heap (app w2))) by by eapply lookup_lt_Some.
  assert (Hkey : ChatSession.id s2 = captured t).
  { rewrite Hct. by apply (inv_keys _ _ _ HI2). }
  split; [| split; [| split]].
  - assert (Hreach1 : reachable_any w1).
    { apply reachable_reachable_any. by eapply reach_step. }
    assert (Hu : heap (app w1) !! length (heap (app w0)) =
                 Some (userMessage text attachments env)).
    { simpl in Hap.
      rewrite (handleSendMessage_resolved _ _ _ _ sid s) in Hap
        by eauto using inv_keys, reachable_Inv.
      injection Hap as <-. simpl. by rewrite lookup_app_r, Nat.sub_diag by lia. }
    destruct (run_objects evs w1 w2 _ _ Hreach1 (run_enabled_offered _ _ _ Hrun) Hu)
      as (m' & Hm' & _ & Hsame).
    rewrite Hm', (Hsame eq_refl). done.
  - rewrite Hm. simpl. rewrite bubble_model by done. simpl.
    by destruct (decide (received = "")).
  - intros w3 Hap3. simpl in Hap3.
    rewrite (onComplete_resolved t (app w2) s2 (placeholderRef (app w0))
               (Message.mk (aiId env) MODEL received None (Some true) (aiStamp env)))
      in Hap3;
      [| by rewrite Hct | by rewrite Hct | done | done | exact Hm].
    injection Hap3 as <-. simpl. rewrite list_lookup_insert_eq by done. simpl.
    rewrite bubble_model by done. simpl. by destruct (decide (received = "")).
  - intros message w3 Hap3. simpl in Hap3.
    rewrite (onError_resolved t (app w2) s2 (placeholderRef (app w0))
               (Message.mk (aiId env) MODEL received None (Some true) (aiStamp env)))
      in Hap3;
      [| by rewrite Hct | by rewrite Hct | done | done | exact Hm].
    injection Hap3 as <-. simpl. rewrite list_lookup_insert_eq by done. simpl.
    rewrite bubble_model by done. simpl. rewrite str_or_spec.
    destruct (decide (received = "")) as [-> | Hne]; [done |].
    by rewrite decide_False.
Qed.

Lemma bubbles_of_a_turn_witness :
  bubble <$> heap (app streamingWorld) !! 1 = Some TypingDots ∧
  bubble <$> heap (app helloWorld) !! 1 = Some (Markdown "Hello").
Proof.
  split.
  - refine (proj1 (proj2 (bubbles_of_a_turn onboardedWorld "Hi" [] sampleEnv "s1"
                            newChatSession streamingWorld [] streamingWorld
                            _ _ _ _ _ _ _ _))).
    + exact onboardedWorld_reachable.
    + reflexivity.
    + reflexivity.
    + reflexivity.
    + vm_compute. reflexivity.
    + vm_compute. reflexivity.
    + constructor.
    + reflexivity.
  - refine (proj1 (proj2 (bubbles_of_a_turn onboardedWorld "Hi" [] sampleEnv "s1"
                            newChatSession streamingWorld
                            [Chunk sampleTurn "He"; Chunk sampleTurn "llo"] helloWorld
                            _ _ _ _ _ _ _ _))).
    + exact onboardedWorld_reachable.
    + reflexivity.
    + reflexivity.
    + reflexivity.
    + vm_compute. reflexivity.
    + vm_compute. reflexivity.
    + repeat constructor.
    + vm_compute. reflexivity.
Defined.

(** ** New chats *)

(** X11.  [createNewSession] stores an empty session titled ["New Chat"]
    under the new id, makes it current and closes the sidebar; the other
    sessions, the user and the model are as before.  The mapping gains one
    entry when the id was unused; an id already in use has its session
    replaced by the empty one.  Selecting an earlier session afterwards
    shows that session as it was. *)
Theorem new_chat (newId : string) (now : Z) (prev : AppState) :
  sessions (createNewSession newId now prev) !! newId
    = Some (ChatSession.mk newId "New Chat" [] now) ∧
  currentSessionId (createNewSession newId now prev) = Some newId ∧
  currentMessages (createNewSession newId now prev) = [] ∧
  sidebarOpen (createNewSession newId now prev) = false ∧
  user (createNewSession newId now prev) = user prev ∧
  selectedModel (createNewSession newId now prev) = selectedModel prev ∧
  (∀ k, k ≠ newId → sessions (createNewSession newId now prev) !! k = sessions prev !! k) ∧
  size (sessions (createNewSession newId now prev))
    = (if decide (is_Some (sessions prev !! newId)) then size (sessions prev)
       else S (size (sessions prev))) ∧
  (∀ k, k ≠ newId →
     currentSession (selectSession k (createNewSession newId now prev))
     = currentSession (selectSession k prev)).
Proof.
  split; [apply lookup_insert_eq |]. split; [done |]. split.
  { unfold currentMessages, currentSession. simpl.
    destruct (truthy newId); [| done]. by rewrite lookup_insert_eq. }
  do 3 (split; [done |]). split; [intros k Hne; simpl; by rewrite lookup_insert_ne |].
  split.
  - simpl. case_decide as Hsome.
    + destruct Hsome as [s Hs].
      rewrite <- (insert_delete_eq (sessions prev) newId), map_size_insert_None
        by apply lookup_delete_eq.
      rewrite <- (insert_id (sessions prev) newId s) at 2 by done.
      rewrite <- (insert_delete_eq (sessions prev) newId s), map_size_insert_None
        by apply lookup_delete_eq.
      done.
    + apply map_size_insert_None. by apply eq_None_not_Some.
  - intros k Hne. unfold currentSession. simpl.
    destruct (truthy k); [| done]. by rewrite lookup_insert_ne.
Qed.

(** ** Which event touches which field *)

Lemma handleSendMessage_fields text attachments env a a' ot :
  (∀ k s, sessions (state a) !! k = Some s → ChatSession.id s = k) →
  handleSendMessage text attachments env a = Some (a', ot) →
  user (state a') = user (state a) ∧
  currentSessionId (state a') = currentSessionId (state a) ∧
  selectedModel (state a') = selectedModel (state a) ∧
  sidebarOpen (state a') = sidebarOpen (state a).
Proof.
  intros Hkeys Hsend. destruct (active a) eqn:Hact.
  2:{ rewrite handleSendMessage_not_active in Hsend by done. by injection Hsend as <- <-. }
  apply active_spec in Hact as (sid & Hcur & Htr).
  destruct (sessions (state a) !! sid) as [s |] eqn:Hs.
  - rewrite (handleSendMessage_resolved _ _ _ _ sid s) in Hsend by eauto.
    injection Hsend as <- <-. simpl. by rewrite Hcur.
  - rewrite (handleSendMessage_unresolved _ _ _ _ sid) in Hsend by done.
    by injection Hsend as <- <-.
Qed.

(** X12.  What an event never does, in any reachable state: the user is
    set by onboarding only; the model by the model menu only; the current
    session id by onboarding, a new chat or a selection only; the sidebar
    flag by its toggle, a new chat or onboarding only; the mapping of
    sessions by onboarding, a new chat or a send only; and the store of
    message objects by a send or a callback only. *)
Theorem event_frame w ev w' :
  reachable_any w → offered ev w = true → apply ev w = Some w' →
  match ev with
  | Onboard _ _ _ _ => True
  | _ => user (state (app w')) = user (state (app w))
  end ∧
  match ev with
  | SelectModel _ => True
  | _ => selectedModel (state (app w')) = selectedModel (state (app w))
  end ∧
  match ev with
  | Onboard _ _ _ _ | NewChat _ _ | SelectSession _ => True
  | _ => currentSessionId (state (app w')) = currentSessionId (state (app w))
  end ∧
  match ev with
  | Onboard _ _ _ _ | NewChat _ _ | ToggleSidebar => True
  | _ => sidebarOpen (state (app w')) = sidebarOpen (state (app w))
  end ∧
  match ev with
  | Onboard _ _ _ _ | NewChat _ _ | Send _ _ _ => True
  | _ => sessions (state (app w')) = sessions (state (app w))
  end ∧
  match ev with
  | Send _ _ _ | Chunk _ _ | Complete _ | Fail _ _ => True
  | _ => heap (app w') = heap (app w)
  end.
Proof.
  intros Hreach Hen Hap. pose proof (reachable_any_Safe _ Hreach) as HJ.
  destruct ev as [name mail newId now | newId now | id | | md
                 | text attachments env | t c | t | t message].
  - simpl in Hap. injection Hap as <-. simpl. repeat split.
    unfold initSessionEffect.
    destruct (user (handleOnboardingSubmit name mail (state (app w)))); [| ].
    + unfold handleOnboardingSubmit.
      destruct (currentSessionId _) as [sid |]; [destruct (truthy sid) |];
        by destruct (truthy name && truthy mail).
    + unfold handleOnboardingSubmit. by destruct (truthy name && truthy mail).
  - simpl in Hap. by injection Hap as <-.
  - simpl in Hap. by injection Hap as <-.
  - simpl in Hap. by injection Hap as <-.
  - simpl in Hap. by injection Hap as <-.
  - simpl in Hap.
    destruct (handleSendMessage text attachments env (app w)) as [[a' ot] |] eqn:Hs; [| done].
    destruct (handleSendMessage_fields _ _ _ _ _ _ (j_keys _ _ _ HJ) Hs)
      as (Hu & Hc & Hm & Hsb).
    destruct ot; by injection Hap as <-.
  - destruct (callbacks_frame_state w _ t w' HJ Hen eq_refl Hap) as [-> _]. done.
  - destruct (callbacks_frame_state w _ t w' HJ Hen eq_refl Hap) as [-> _]. done.
  - destruct (callbacks_frame_state w _ t w' HJ Hen eq_refl Hap) as [-> _]. done.
Qed.

Lemma event_frame_witness :
  sessions (state (app (on_state (selectSession "ghost") streamingWorld)))
  = sessions (state (app streamingWorld)).
Proof.
  refine (proj1 (proj2 (proj2 (proj2 (proj2
            (event_frame streamingWorld (SelectSession "ghost") _ _ _ _)))))).
  - exact streamingWorld_reachable_any.
  - vm_compute. reflexivity.
  - reflexivity.
Defined.

(** ** Onboarding *)

Lemma onboard_outcome name mail newId now :
  let st := initSessionEffect newId now (handleOnboardingSubmit name mail initialState) in
  if truthy name && truthy mail
  then st = mkAppState (Some (mkUserProfile name mail)) (Some newId)
              {[newId := ChatSession.mk newId "New Chat" [] now]} DEFAULT_MODEL false
  else st = initialState.
Proof.
  simpl. unfold handleOnboardingSubmit.
  destruct (truthy name && truthy mail); [| done].
  unfold initSessionEffect, createNewSession. simpl. f_equal.
Qed.

Lemma onboard_world name mail newId now :
  apply (Onboard name mail newId now) initialWorld =
  Some (if truthy name && truthy mail
        then mkWorld (mkApp [] (mkAppState (Some (mkUserProfile name mail)) (Some newId)
                                  {[newId := ChatSession.mk newId "New Chat" [] now]}
                                  DEFAULT_MODEL false) false None) []
        else initialWorld).
Proof.
  simpl. f_equal. unfold on_state, handleOnboardingSubmit. simpl.
  destruct (truthy name && truthy mail); [| done].
  unfold initSessionEffect, createNewSession, with_state. simpl. do 3 f_equal.
Qed.

Lemma on_state_initial (st : AppState) :
  st = initialState → on_state (λ _, st) initialWorld = initialWorld.
Proof. by intros ->. Qed.

Lemma gate_invariant w :
  reachable_any w →
  (user (state (app w)) = None → w = initialWorld) ∧
  (user (state (app w)) ≠ None →
   is_Some (currentSessionId (state (app w))) ∧ sessions (state (app w)) ≠ ∅).
Proof.
  induction 1 as [| w ev w' Hreach [IH0 IH1] Hen Hap]; [by split |].
  pose proof (reachable_any_Safe _ Hreach) as HJ.
  destruct (decide (user (state (app w)) = None)) as [Hnone | Hsome].
  - (* only the onboarding form is shown *)
    rewrite (IH0 Hnone) in *. clear IH0 IH1.
    destruct ev as [name mail newId now | | | | | | | |]; simpl in Hen; try done.
    simpl in Hap. injection Hap as <-.
    pose proof (onboard_outcome name mail newId now) as Hout. simpl in Hout.
    destruct (truthy name && truthy mail).
    + split; simpl; rewrite Hout; simpl; [done |]. intros _. split; [by eexists |].
      apply insert_non_empty.
    + split; simpl; rewrite Hout; [| done]. intros _. by apply on_state_initial.
  - specialize (IH1 Hsome) as [Hcur Hne].
    assert (Huser : user (state (app w')) ≠ None ∧
                    is_Some (currentSessionId (state (app w'))) ∧
                    sessions (state (app w')) ≠ ∅).
    { destruct ev as [name mail newId now | newId now | id | | md
                     | text attachments env | t c | t | t message]; simpl in Hen.
      - apply andb_true_iff in Hen as [Hen _]. apply negb_true_iff in Hen.
        unfold onboarded in Hen. by apply bool_decide_eq_false in Hen.
      - simpl in Hap. injection Hap as <-. simpl. split; [done |].
        split; [by eexists | apply insert_non_empty].
      - simpl in Hap. injection Hap as <-. simpl. split; [done |]. split; [by eexists | done].
      - simpl in Hap. by injection Hap as <-.
      - simpl in Hap. by injection Hap as <-.
      - simpl in Hap.
        destruct (handleSendMessage text attachments env (app w)) as [[a' ot] |] eqn:Hs;
          [| done].
        destruct (handleSendMessage_fields _ _ _ _ _ _ (j_keys _ _ _ HJ) Hs)
          as (Hu & Hc & _).
        assert (Hss : sessions (state a') ≠ ∅).
        { destruct (step_change w (Send text attachments env) (mkWorld a' (inflight w ++ option_list ot)) HJ)
            as [_ Hx _ _ | ? ? _ _ Hx _ | ? ? ? sid0 _ _ _ _ Hx _ | ? ? ? ? ? _ _ _ _ _ _ _ _ Hx _];
            try done.
          - simpl. rewrite Hs. destruct ot; simpl; [done | by rewrite app_nil_r].
          - simpl in Hx. by rewrite Hx.
          - simpl in Hx. rewrite Hx. apply insert_non_empty.
          - simpl in Hx. rewrite Hx.
            destruct (sessions (state (app w)) !! sid0); [apply insert_non_empty | done].
          - simpl in Hx. by rewrite Hx. }
        destruct ot; injection Hap as <-; simpl; by rewrite Hu, Hc.
      - destruct (callbacks_frame_state w (Chunk t c) t w' HJ Hen eq_refl Hap) as [-> _]. done.
      - destruct (callbacks_frame_state w (Complete t) t w' HJ Hen eq_refl Hap) as [-> _]. done.
      - destruct (callbacks_frame_state w (Fail t message) t w' HJ Hen eq_refl Hap) as [-> _]. done. }
    destruct Huser as (Hu & Hc & Hs). split; [done |]. by intros _.
Qed.

(** X13.  Onboarding gates the chat: as long as no user is set (no
    submission with a non-empty name and a non-empty mail address), the
    application is in its initial state, with no session, no message and
    no turn; a submission with both creates the first session, empty and
    current; and from then on the user stays set, a current session id is
    always set and at least one session exists. *)
Theorem onboarding_gate w :
  reachable_any w →
  (user (state (app w)) = None → w = initialWorld) ∧
  (user (state (app w)) ≠ None →
   is_Some (currentSessionId (state (app w))) ∧ sessions (state (app w)) ≠ ∅) ∧
  (∀ name mail newId now w',
     user (state (app w)) = None →
     apply (Onboard name mail newId now) w = Some w' →
     if truthy name && truthy mail
     then state (app w') =
            mkAppState (Some (mkUserProfile name mail)) (Some newId)
              {[newId := ChatSession.mk newId "New Chat" [] now]} DEFAULT_MODEL false
     else w' = initialWorld) ∧
  (∀ ev w', user (state (app w)) ≠ None → offered ev w = true →
     apply ev w = Some w' → user (state (app w')) = user (state (app w))).
Proof.
  intros Hreach. destruct (gate_invariant w Hreach) as [H0 H1].
  split; [done |]. split; [done |]. split.
  - intros name mail newId now w' Hnone Hap. rewrite (H0 Hnone) in Hap.
    rewrite onboard_world in Hap. injection Hap as <-.
    by destruct (truthy name && truthy mail).
  - intros ev w' Hsome Hen Hap. pose proof (reachable_any_Safe _ Hreach) as HJ.
    destruct ev as [name mail newId now | newId now | id | | md
                   | text attachments env | t c | t | t message]; simpl in Hen.
    + apply andb_true_iff in Hen as [Hen _]. apply negb_true_iff in Hen.
      unfold onboarded in Hen. by apply bool_decide_eq_false in Hen.
    + simpl in Hap. by injection Hap as <-.
    + simpl in Hap. by injection Hap as <-.
    + simpl in Hap. by injection Hap as <-.
    + simpl in Hap. by injection Hap as <-.
    + simpl in Hap.
      destruct (handleSendMessage text attachments env (app w)) as [[a' ot] |] eqn:Hs;
        [| done].
      destruct (handleSendMessage_fields _ _ _ _ _ _ (j_keys _ _ _ HJ) Hs) as (Hu & _).
      destruct ot; by injection Hap as <-.
    + by destruct (callbacks_frame_state w (Chunk t c) t w' HJ Hen eq_refl Hap) as [-> _].
    + by destruct (callbacks_frame_state w (Complete t) t w' HJ Hen eq_refl Hap) as [-> _].
    + by destruct (callbacks_frame_state w (Fail t message) t w' HJ Hen eq_refl Hap) as [-> _].
Qed.

Lemma onboarding_gate_witness :
  is_Some (currentSessionId (state (app streamingWorld))) ∧
  sessions (state (app streamingWorld)) ≠ ∅.
Proof.
  refine (proj1 (proj2 (onboarding_gate streamingWorld _)) _).
  - exact streamingWorld_reachable_any.
  - discriminate.
Defined.

(** ** A send on a current id that keys no session *)

(** X14.  When the current session id keys no session (a selection of an
    unknown id leads there) and names no property inherited from
    [Object.prototype], a send is not refused: it raises the
    generating flag and invokes the capability with a history of the new
    user message alone, but stores the message nowhere: the state is as
    before and no session refers to the new objects.  The deltas of that
    turn change nothing, its completion only lowers the flag, and its
    failure only lowers the flag and raises the banner. *)
Theorem send_on_dangling_session w text attachments env sid :
  reachable_any w →
  currentSessionId (state (app w)) = Some sid → truthy sid = true →
  plain_key sid = true →
  sessions (state (app w)) !! sid = None →
  ∃ w1 t,
    apply (Send text attachments env) w = Some w1 ∧
    state (app w1) = state (app w) ∧
    isGenerating (app w1) = true ∧
    inflight w1 = inflight w ++ [t] ∧ captured t = sid ∧
    historyArg t = [length (heap (app w))] ∧
    currentMessages (state (app w1)) = [] ∧
    (∀ k s r, sessions (state (app w1)) !! k = Some s →
              r ∈ ChatSession.messages s → r < length (heap (app w))) ∧
    (∀ c, apply (Chunk t c) w1 = Some w1) ∧
    apply (Complete t) w1
      = Some (mkWorld (setIsGenerating false (app w1)) (remove_turn t (inflight w1))) ∧
    (∀ message, ∃ w2,
       apply (Fail t message) w1 = Some w2 ∧
       state (app w2) = state (app w) ∧ heap (app w2) = heap (app w1) ∧
       isGenerating (app w2) = false ∧ bannerShown (app w2) = true).
Proof.
  intros Hreach Hcur Htr _ Hnone. pose proof (reachable_any_Safe _ Hreach) as HJ.
  eexists _, _. split.
  { simpl. by rewrite (handleSendMessage_unresolved _ _ _ _ sid). }
  simpl. do 5 (split; [done |]). split.
  { unfold currentMessages, currentSession. by rewrite Hcur, Htr, Hnone. }
  split; [by apply (j_valid _ _ _ HJ) |]. split; [| split].
  - intros c. unfold onChunk. by rewrite updating_unresolved.
  - unfold onComplete. by rewrite updating_unresolved.
  - intros message. unfold onError. rewrite updating_unresolved by done.
    eexists. split; [done |]. simpl. do 3 (split; [done |]).
    unfold bannerShown. simpl. rewrite str_or_spec. case_decide; [done |].
    by apply truthy_true.
Qed.

Lemma ghostWorld_reachable_any : reachable_any ghostWorld.
Proof.
  apply (run_reachable_by offered [SelectSession "ghost"] onboardedWorld).
  - exact onboardedWorld_reachable_any.
  - vm_compute. reflexivity.
Defined.

Lemma send_on_dangling_session_witness :
  ∃ w1, apply (Send "Hi" [] sampleEnv) ghostWorld = Some w1 ∧
        state (app w1) = state (app ghostWorld).
Proof.
  destruct (send_on_dangling_session ghostWorld "Hi" [] sampleEnv "ghost")
    as (w1 & t & Hap & Hst & _).
  - exact ghostWorld_reachable_any.
  - reflexivity.
  - reflexivity.
  - vm_compute. reflexivity.
  - reflexivity.
  - exists w1. split; [exact Hap | exact Hst].
Defined.

(** ** The model menu *)

(** X15.  Whatever model is selected, the header has a label, the menu has
    one row per model of the enum and highlights exactly one of them, the
    row of the selected model, whose label is the header's; every row has
    a description, and the id of every row is the value of a model, so
    that a click selects a model and the header then shows the label of
    the row clicked. *)
Theorem model_menu (selected : ModelId) :
  (∃ row, filter (λ r, row_selected r = true) (modelMenu selected) = [row] ∧
          row_id row = ModelId_value selected ∧
          headerLabel selected = Some (row_label row)) ∧
  row_id <$> modelMenu selected = ModelId_value <$> [FLASH; PRO; FLASH_LITE] ∧
  NoDup (row_id <$> modelMenu selected) ∧
  ModelId_of_value (ModelId_value selected) = Some selected ∧
  (∀ row, row ∈ modelMenu selected →
     is_Some (row_description row) ∧
     ∃ m, ModelId_of_value (row_id row) = Some m ∧
          headerLabel (selectedModel (selectModel m initialState)) = Some (row_label row)).
Proof.
  split; [| split; [| split; [| split]]].
  - destruct selected; eexists; (split; [vm_compute; reflexivity |]); by split.
  - by destruct selected.
  - assert (H : row_id <$> modelMenu selected = ModelId_value <$> [FLASH; PRO; FLASH_LITE])
      by by destruct selected.
    rewrite H. simpl.
    repeat (apply NoDup_cons; split;
            [rewrite ?elem_of_cons, elem_of_nil; intros H'; by repeat destruct H' as [H' | H'] |]).
    constructor.
  - by destruct selected.
  - intros row Hrow.
    assert (Hrows : Forall (λ row,
              is_Some (row_description row) ∧
              ∃ m, ModelId_of_value (row_id row) = Some m ∧
                   headerLabel m = Some (row_label row)) (modelMenu selected)).
    { unfold modelMenu, MODEL_LABELS. simpl.
      repeat (constructor; [split; [by eexists | eexists; split; reflexivity] |]).
      constructor. }
    rewrite Forall_forall in Hrows. by apply Hrows.
Qed.

(** ** Store updates compose *)

(** X16.  Two queued store updates act as one: when the mapping is keyed
    by the session ids and the first updater keeps the id of the session,
    [updateCurrentSession] with [u1] followed by [updateCurrentSession]
    with [u2] (same closure) is [updateCurrentSession] with [u1] then
    [u2]; a throwing updater makes the whole update throw. *)
Theorem updates_compose cur (u1 u2 : Updater) h prev :
  (∀ k s, sessions prev !! k = Some s → ChatSession.id s = k) →
  (∀ h0 s0 h1 s1, u1 h0 s0 = Some (h1, s1) → ChatSession.id s1 = ChatSession.id s0) →
  (updateCurrentSession cur u1 h prev ≫= λ r, updateCurrentSession cur u2 r.1 r.2)
  = updateCurrentSession cur (then_updater u1 u2) h prev.
Proof.
  intros Hkeys Hid. unfold updateCurrentSession, then_updater.
  destruct cur as [sid |]; [| done]. destruct (truthy sid) eqn:Htr; simpl; [| done].
  destruct (sessions prev !! sid) as [s |] eqn:Hs; simpl; [| by rewrite Hs].
  destruct (u1 h s) as [[h1 s1] |] eqn:Hu1; simpl; [| done].
  rewrite (Hkeys _ _ Hs), lookup_insert_eq.
  destruct (u2 h1 s1) as [[h2 s2] |]; [| done].
  rewrite (Hid _ _ _ _ Hu1), (Hkeys _ _ Hs). by rewrite insert_insert_eq.
Qed.

Lemma updates_compose_witness :
  (updateCurrentSession (Some "s1") (addUserMessage "Hi" 0 2) [] (state (app onboardedWorld))
     ≫= λ r, updateCurrentSession (Some "s1") (addPlaceholder 1) r.1 r.2)
  = updateCurrentSession (Some "s1")
      (then_updater (addUserMessage "Hi" 0 2) (addPlaceholder 1)) []
      (state (app onboardedWorld)).
Proof.
  apply updates_compose.
  - intros k s Hs. simpl in Hs.
    apply lookup_singleton_Some in Hs as [<- <-]. reflexivity.
  - intros h0 s0 h1 s1 Hu. unfold addUserMessage in Hu. injection Hu as _ <-. reflexivity.
Defined.

(** ** The welcome screen *)

(** X17.  The welcome screen with its suggestion buttons shows exactly
    when the current session id is unset, empty or unresolved, or the
    current session has no message.  Once a session has a message it
    keeps having one: along any run (turns may overlap), whenever that
    session is current the welcome screen is hidden. *)
Theorem welcome_screen w evs w' k s :
  reachable_any w → run offered evs w = Some w' →
  sessions (state (app w)) !! k = Some s →
  (welcomeShown (app w') = true ↔
   ∀ s', currentSession (state (app w')) = Some s' → ChatSession.messages s' = []) ∧
  (ChatSession.messages s ≠ [] → truthy k = true →
   currentSessionId (state (app w')) = Some k → welcomeShown (app w') = false).
Proof.
  intros Hreach Hrun Hs. pose proof (reachable_any_Safe _ Hreach) as HJ. split.
  - unfold welcomeShown, currentMessages.
    destruct (currentSession (state (app w'))) as [s' |]; simpl.
    + rewrite Nat.eqb_eq. split.
      * intros Hlen s0 [= <-]. by destruct (ChatSession.messages s').
      * intros H. by rewrite (H s' eq_refl).
    + split; [by intros _ s0 | done].
  - intros Hne Htr Hcur.
    destruct (run_sessions_grow evs w w' k s HJ Hrun Hs) as (_ & s' & Hs' & _ & [l Hpre] & _).
    unfold welcomeShown, currentMessages, currentSession. rewrite Hcur, Htr, Hs', Hpre.
    apply Nat.eqb_neq. rewrite length_app. destruct (ChatSession.messages s); [done | simpl; lia].
Qed.

Lemma welcome_screen_witness :
  welcomeShown (app helloWorld) = false.
Proof.
  refine (proj2 (welcome_screen streamingWorld
                   [Chunk sampleTurn "He"; Chunk sampleTurn "llo"] helloWorld "s1"
                   (ChatSession.mk "s1" "Hi" [0; 1] 2) _ _ _) _ _ _).
  - exact streamingWorld_reachable_any.
  - vm_compute. reflexivity.
  - reflexivity.
  - discriminate.
  - reflexivity.
  - reflexivity.
Defined.
